(** * github-activity-monitor: the capture, buffer, flush and supervise pipeline

    A shallow embedding of [src/activityTracker.js], [src/gitManager.js],
    [src/githubAPI.js] and [src/scheduler.js], of the save listener of
    [src/extension.js] and of the placing of the shapes in
    [src/visualization.js], with the properties their specification states
    about them and further properties the code has.

    Conventions.
    - A JavaScript string is a [string], one character for each code unit
      (code units below 256); a JavaScript number that the code only uses as
      an integer is a [Z].
    - A JavaScript [Map] iterates in insertion order, and the code relies on
      it (the oldest key of the content cache, the order of the flush), so
      a [Map] is an association list in insertion order ([JsMap]).
    - The remote store is a finite map from (repository, path) to what is
      stored there; requests to it may fail in transit, as told by a script
      of transport outcomes that the requests consume one by one.
    - [async] functions run to completion here: no other handler is
      interleaved at an [await].
    - The lines of [console.log] and the base64 coding of contents on their
      way to and from the store are left out; the lines of [console.error],
      the error notifications and the waits are kept as events. *)

From Stdlib Require Import ZArith Ascii String List Lia Bool.
From stdpp Require Import base option list strings pretty gmap.
Import ListNotations.
Local Open Scope string_scope.
Local Open Scope Z_scope.

(** ** JavaScript values the code handles *)

(** [x || d] on a number option that may be missing: [undefined] and [0] are
    falsy. *)
Definition js_or (x : option Z) (d : Z) : Z :=
  match x with
  | None => d
  | Some v => if decide (v = 0) then d else v
  end.

(** The line feed, ['\n']. *)
Definition LF : ascii := ascii_of_nat 10.

(** [s.split(sep)] where the separator matches one character: never empty,
    one more segment than there are separators. *)
Fixpoint split_by (sep : ascii -> bool) (s : string) : list string :=
  match s with
  | EmptyString => [EmptyString]
  | String c s' =>
      if sep c then EmptyString :: split_by sep s'
      else match split_by sep s' with
           | seg :: segs => String c seg :: segs
           | [] => [String c EmptyString]
           end
  end.

Definition split (sep : ascii) (s : string) : list string :=
  split_by (fun c => bool_decide (c = sep)) s.

(** The number of separators in a string. *)
Fixpoint occurrences (sep : ascii -> bool) (s : string) : nat :=
  match s with
  | EmptyString => 0
  | String c s' => if sep c then S (occurrences sep s') else occurrences sep s'
  end.

(** [segs.join(c)] *)
Fixpoint join (c : ascii) (segs : list string) : string :=
  match segs with
  | [] => EmptyString
  | [seg] => seg
  | seg :: segs' => seg +:+ String c (join c segs')
  end.

(** A thrown [Error]: its message and, for a failed request, the HTTP
    status the client library attaches. *)
Record JsError := { message : string; status : option Z }.

Definition errorMessage (e : JsError) : string := message e.

Definition plainError (msg : string) : JsError :=
  {| message := msg; status := None |}.

(** How a call ends: it returns (an [async] function resolves) or it throws
    (rejects). *)
Inductive result (A : Type) : Type :=
  | Ok (a : A)
  | Throw (e : JsError).
Arguments Ok {A} a.
Arguments Throw {A} e.

(** A value that [JSON.parse] yields and [JSON.stringify] prints. *)
#[local] Unset Elimination Schemes.
Inductive Json :=
  | JNull
  | JBool (b : bool)
  | JNumber (n : Z)
  | JString (s : string)
  | JArray (items : list Json)
  | JObject (members : list (string * Json)).
#[local] Set Elimination Schemes.

(** [Array.isArray(v)] *)
Definition isArray (v : Json) : bool :=
  match v with JArray _ => true | _ => false end.

(** What the code takes from its platform without defining it: the JSON
    codec of the language ([JSON_parse] is [None] where [JSON.parse] throws a
    [SyntaxError]; [JSON_stringify v n] is [JSON.stringify(v, null, n)]) and
    the content hash the remote store gives to what it stores. *)
Class Platform := {
  JSON_parse : string -> option Json;
  JSON_stringify : Json -> Z -> string;
  blob_sha : string -> string
}.

(** Code that changes a state [S] and may throw: a thrown error keeps the
    changes made before it. *)
Definition M (S A : Type) : Type := S -> result A * S.

#[global] Instance M_ret {S} : MRet (M S) := fun A a s => (Ok a, s).

#[global] Instance M_bind {S} : MBind (M S) := fun A B f m s =>
  match m s with
  | (Ok a, s') => f a s'
  | (Throw e, s') => (Throw e, s')
  end.

Definition throw {S A} (e : JsError) : M S A := fun s => (Throw e, s).

(** [try { body } catch (error) { handler }] *)
Definition try_catch {S A} (body : M S A) (handler : JsError -> M S A) : M S A :=
  fun s =>
    match body s with
    | (Ok a, s') => (Ok a, s')
    | (Throw e, s') => handler e s'
    end.

Definition modify {S} (f : S -> S) : M S unit := fun s => (Ok tt, f s).

Definition gets {S A} (f : S -> A) : M S A := fun s => (Ok (f s), s).

(** [arr.includes(x)] on an array of strings. *)
Definition includes (x : string) (arr : list string) : bool :=
  bool_decide (x ∈ arr).

(** ** The insertion-ordered [Map] *)

Module JsMap.
Section WithValues.
Context {V : Type}.

Definition t : Type := list (string * V).

Definition keys (m : t) : list string := m.*1.

Definition size (m : t) : Z := Z.of_nat (length m).

Fixpoint get (k : string) (m : t) : option V :=
match m with
| [] => None
| (k', v) :: m' => if decide (k = k') then Some v else get k m'
end.

Definition has (k : string) (m : t) : bool :=
match get k m with Some _ => true | None => false end.

(** [m.set(k, v)]: an existing key keeps its place, a new key goes last. *)
Fixpoint set (k : string) (v : V) (m : t) : t :=
match m with
| [] => [(k, v)]
| (k', v') :: m' =>
    if decide (k = k') then (k, v) :: m' else (k', v') :: set k v m'
end.

Fixpoint delete (k : string) (m : t) : t :=
match m with
| [] => []
| (k', v') :: m' =>
    if decide (k = k') then m' else (k', v') :: delete k m'
end.

(** [m.keys().next().value]: the key inserted longest ago, [undefined] on
  an empty map. *)
Definition oldest (m : t) : option string := head (keys m).

(** [m.delete(m.keys().next().value)]; deleting [undefined] does nothing. *)
Definition delete_oldest (m : t) : t :=
match oldest m with
| Some k => delete k m
| None => m
end.

(** Keys of a [Map] are unique. *)
Definition wf (m : t) : Prop := NoDup (keys m).
End WithValues.
Arguments t : clear implicits.
End JsMap.

(** ** ActivityTracker ([src/activityTracker.js]) *)

Module ActivityTracker.

(** *** The change detector *)

(** [\s] of a regular expression without the [u] flag, on code units below
    256: tab, line feed, vertical tab, form feed, carriage return, space
    and the no-break space. *)
Definition is_space (c : ascii) : bool :=
  let n := nat_of_ascii c in
  bool_decide (n ∈ [9; 10; 11; 12; 13; 32; 160]%nat).

(** [\w]: ASCII letters, digits and the underscore. *)
Definition is_word (c : ascii) : bool :=
  let n := nat_of_ascii c in
  ((48 <=? n) && (n <=? 57) || (65 <=? n) && (n <=? 90)
   || (97 <=? n) && (n <=? 122) || (n =? 95))%nat.

(** The longest prefix of characters in a class, and what follows it. *)
Fixpoint span (p : ascii -> bool) (s : string) : string * string :=
  match s with
  | EmptyString => (EmptyString, EmptyString)
  | String c s' =>
      if p c then let '(a, b) := span p s' in (String c a, b)
      else (EmptyString, s)
  end.

Fixpoint strip_prefix (p s : string) : option string :=
  match p, s with
  | EmptyString, _ => Some s
  | String a p', String b s' =>
      if decide (a = b) then strip_prefix p' s' else None
  | String _ _, EmptyString => None
  end.

(** One attempt of [/function\s+(\w+)\s*\(/] at the start of [s]: the
    captured group and the length of the whole match. The three classes
    that follow one another ([\s], [\w], then [\s] or an opening
    parenthesis) are disjoint, so the greedy choice is the only one and no
    backtracking is needed. *)
Definition match_here (s : string) : option (string * nat) :=
  match strip_prefix "function" s with
  | None => None
  | Some r0 =>
      let '(ws, r1) := span is_space r0 in
      let '(name, r2) := span is_word r1 in
      let '(ws', r3) := span is_space r2 in
      match ws, name, r3 with
      | String _ _, String _ _, String "(" _ =>
          Some (name, (8 + String.length ws + String.length name
                       + String.length ws' + 1)%nat)
      | _, _, _ => None
      end
  end.

(** [[...s.matchAll(re)].map(m => m[1])]: matches are searched left to
    right, and the search resumes where the previous match ended. [skip]
    counts the characters of the current match still to be passed. *)
Fixpoint scan (skip : nat) (s : string) : list string :=
  match s with
  | EmptyString => []
  | String _ s' =>
      match skip with
      | S k => scan k s'
      | O =>
          match match_here s with
          | Some (name, len) => name :: scan (Nat.pred len) s'
          | None => scan 0 s'
          end
      end
  end.

Definition functionNames (content : string) : list string := scan 0 content.

(** [s.slice(n)] *)
Fixpoint string_drop (n : nat) (s : string) : string :=
  match n, s with
  | O, _ => s
  | S _, EmptyString => EmptyString
  | S n', String _ s' => string_drop n' s'
  end.

(** What the pattern says, without an algorithm: [s] begins with the word
    [function], at least one white space character, a non-empty run of word
    characters (the captured [name]), any white space and an opening
    parenthesis; [len] is the length of all that. *)
Fixpoint all_chars (p : ascii -> bool) (s : string) : bool :=
  match s with
  | EmptyString => true
  | String c s' => p c && all_chars p s'
  end.

(** What stops a run of characters of a class: the end of the string or a
    character outside the class. *)
Definition stops (p : ascii -> bool) (s : string) : Prop :=
  match s with
  | EmptyString => True
  | String c _ => p c = false
  end.

Definition pattern_matches (s name : string) (len : nat) : Prop :=
  exists ws ws' rest,
    s = "function" +:+ ws +:+ name +:+ ws' +:+ String "(" rest
    /\ ws <> "" /\ all_chars is_space ws = true
    /\ name <> "" /\ all_chars is_word name = true
    /\ all_chars is_space ws' = true
    /\ len = (8 + String.length ws + String.length name
              + String.length ws' + 1)%nat.

Record FunctionChanges := {
  added : list string;
  modified : list string;
  removed : list string
}.

Definition detectFunctionChanges (oldContent newContent : string)
  : FunctionChanges :=
  let oldFunctions := functionNames oldContent in
  let newFunctions := functionNames newContent in
  {| added :=
       List.filter (fun f => negb (includes f oldFunctions)) newFunctions;
     modified := [];
     removed :=
       List.filter (fun f => negb (includes f newFunctions)) oldFunctions |}.

Record LineChanges := {
  addedLines : Z;
  modifiedLines : Z;
  totalLines : Z
}.

Definition lineCount (content : string) : Z :=
  Z.of_nat (length (split LF content)).

Definition getLineChanges (oldContent newContent : string) : LineChanges :=
  let oldLines := split LF oldContent in
  let newLines := split LF newContent in
  {| addedLines := Z.of_nat (length newLines) - Z.of_nat (length oldLines);
     modifiedLines :=
       Z.abs (Z.of_nat (length newLines) - Z.of_nat (length oldLines));
     totalLines := Z.of_nat (length newLines) |}.

(** *** The tracker object *)

Record Options := {
  opt_maxCachedFiles : option Z;
  opt_retryAttempts : option Z;
  opt_retryDelay : option Z
}.

Definition noOptions : Options :=
  {| opt_maxCachedFiles := None; opt_retryAttempts := None;
     opt_retryDelay := None |}.

Record Tracker := {
  isTracking : bool;
  previousContent : JsMap.t string;
  maxCachedFiles : Z;
  retryAttempts : Z;
  retryDelay : Z
}.

Definition new (options : Options) : Tracker :=
  {| isTracking := false;
     previousContent := [];
     maxCachedFiles := js_or (opt_maxCachedFiles options) 100;
     retryAttempts := js_or (opt_retryAttempts options) 3;
     retryDelay := js_or (opt_retryDelay options) 1000 |}.

Definition with_previousContent (m : JsMap.t string) (t : Tracker) : Tracker :=
  {| isTracking := isTracking t;
     previousContent := m;
     maxCachedFiles := maxCachedFiles t;
     retryAttempts := retryAttempts t;
     retryDelay := retryDelay t |}.

Definition with_isTracking (b : bool) (t : Tracker) : Tracker :=
  {| isTracking := b;
     previousContent := previousContent t;
     maxCachedFiles := maxCachedFiles t;
     retryAttempts := retryAttempts t;
     retryDelay := retryDelay t |}.

(** What the tracker reads of a saved [vscode.TextDocument]: its file
    name, its text, the name of the workspace folder it lies in (if any)
    and the file system path of its URI. *)
Record Document := {
  fileName : string;
  getText : string;
  workspaceFolder : option string;
  fsPath : string
}.

Record Changes := {
  functions : FunctionChanges;
  classes : FunctionChanges;
  imports : FunctionChanges;
  lineChanges : LineChanges
}.

Definition noChanges : FunctionChanges :=
  {| added := []; modified := []; removed := [] |}.

Definition managePreviousContent (fileName content : string) (t : Tracker)
  : Tracker :=
  let cache :=
    if JsMap.size (previousContent t) >=? maxCachedFiles t
    then JsMap.delete_oldest (previousContent t)
    else previousContent t in
  with_previousContent (JsMap.set fileName content cache) t.

(** A run of cache writes, one after the other. *)
Definition manageAll (writes : list (string * string)) (t : Tracker) : Tracker :=
  foldl (fun t w => managePreviousContent w.1 w.2 t) t writes.

(** Nothing in the body throws on a document, so the [catch] of the source
    has no case here. *)
Definition trackCodeChanges (document : Document) (t : Tracker)
  : Changes * Tracker :=
  let currentContent := getText document in
  let previous :=
    match JsMap.get (fileName document) (previousContent t) with
    | Some c => if decide (c = "") then "" else c
    | None => ""
    end in
  let changes :=
    {| functions := detectFunctionChanges previous currentContent;
       classes := noChanges;
       imports := noChanges;
       lineChanges := getLineChanges previous currentContent |} in
  (changes, managePreviousContent (fileName document) currentContent t).

Inductive ChangeType :=
  | FUNCTION_ADDED | FUNCTION_MODIFIED | FUNCTION_REMOVED
  | CLASS_ADDED | CLASS_MODIFIED | IMPORT_ADDED | CODE_MODIFIED.

(** [types.add(x)] on the [Set] of the source, whose elements are given
    out in insertion order. *)
Definition add_type (cond : bool) (x : ChangeType) (types : list ChangeType)
  : list ChangeType :=
  if cond then types ++ [x] else types.

Definition nonEmpty {A} (l : list A) : bool :=
  (0 <? Z.of_nat (length l)).

Definition determineChangeType (changes : Changes) : list ChangeType :=
  let types := [] in
  let types := add_type (nonEmpty (added (functions changes))) FUNCTION_ADDED types in
  let types := add_type (nonEmpty (modified (functions changes))) FUNCTION_MODIFIED types in
  let types := add_type (nonEmpty (removed (functions changes))) FUNCTION_REMOVED types in
  let types := add_type (nonEmpty (added (classes changes))) CLASS_ADDED types in
  let types := add_type (nonEmpty (modified (classes changes))) CLASS_MODIFIED types in
  let types := add_type (nonEmpty (added (imports changes))) IMPORT_ADDED types in
  let types := add_type (0 <? modifiedLines (lineChanges changes)) CODE_MODIFIED types in
  types.

Definition is_path_separator (c : ascii) : bool :=
  bool_decide (c = "/"%char) || bool_decide (c = "\"%char).

Definition getProjectName (document : Document) : string :=
  match workspaceFolder document with
  | Some name => name
  | None => List.last (split_by is_path_separator (fsPath document)) ""
  end.

Record LoggedChanges := {
  log_functions : FunctionChanges;
  log_classes : FunctionChanges;
  log_imports : FunctionChanges;
  lineStats : LineChanges;
  type : list ChangeType
}.

Record ActivityLog := {
  file : string;
  project : string;
  timestamp : string;
  changes : LoggedChanges
}.

Definition changeTypeName (c : ChangeType) : string :=
  match c with
  | FUNCTION_ADDED => "FUNCTION_ADDED"
  | FUNCTION_MODIFIED => "FUNCTION_MODIFIED"
  | FUNCTION_REMOVED => "FUNCTION_REMOVED"
  | CLASS_ADDED => "CLASS_ADDED"
  | CLASS_MODIFIED => "CLASS_MODIFIED"
  | IMPORT_ADDED => "IMPORT_ADDED"
  | CODE_MODIFIED => "CODE_MODIFIED"
  end.

Definition functionChangesJson (c : FunctionChanges) : Json :=
  JObject [("added", JArray (JString <$> added c));
           ("modified", JArray (JString <$> modified c));
           ("removed", JArray (JString <$> removed c))].

Definition lineChangesJson (c : LineChanges) : Json :=
  JObject [("addedLines", JNumber (addedLines c));
           ("modifiedLines", JNumber (modifiedLines c));
           ("totalLines", JNumber (totalLines c))].

(** The object literal of [logFileActivity] as a JSON value, members in
    the order they are written. *)
Definition toJson (a : ActivityLog) : Json :=
  JObject
    [("file", JString (file a));
     ("project", JString (project a));
     ("timestamp", JString (timestamp a));
     ("changes",
      JObject
        [("functions", functionChangesJson (log_functions (changes a)));
         ("classes", functionChangesJson (log_classes (changes a)));
         ("imports", functionChangesJson (log_imports (changes a)));
         ("lineStats", lineChangesJson (lineStats (changes a)));
         ("type", JArray ((JString ∘ changeTypeName) <$> type (changes a)))])].

(** What the tracker does besides changing its own state and calling the
    git manager. *)
Inductive Effect :=
  | LogActivity (activityLog : ActivityLog) (rejected : option JsError)
  | Timeout (ms : Z)
  | ShowErrorMessage (attempts : Z) (cause : JsError)
  | ConsoleError (cause : JsError).

Section WithGitManager.
(** The git manager is handed to the constructor; the tracker only calls
    its [logActivity]. [G] is the state of whatever stands behind it. *)
Context {G : Type}.
Variable logActivity : ActivityLog -> G -> result unit * G.
(** [new Date().toISOString()] at the attempt of a given number. *)
Variable now : Z -> string.

Definition buildActivityLog (document : Document) (changes : Changes)
    (attempt : Z) : ActivityLog :=
  {| file := fileName document;
     project := getProjectName document;
     timestamp := now attempt;
     changes :=
       {| log_functions := functions changes;
          log_classes := classes changes;
          log_imports := imports changes;
          lineStats := lineChanges changes;
          type := determineChangeType changes |} |}.

(** The [while (attempt < this.retryAttempts)] loop. Every round either
    returns or increases [attempt], so [fuel] rounds are enough when
    [retryAttempts - attempt <= fuel] (see [retry_loop_fuel]). *)
Fixpoint retry_loop (fuel : nat) (document : Document) (attempt : Z)
    (t : Tracker) (g : G) : Tracker * G * list Effect :=
  match fuel with
  | O => (t, g, [])
  | S fuel' =>
      if attempt <? retryAttempts t then
        let '(changes, t1) := trackCodeChanges document t in
        let activityLog := buildActivityLog document changes attempt in
        match logActivity activityLog g with
        | (Ok _, g1) => (t1, g1, [LogActivity activityLog None])
        | (Throw error, g1) =>
            let attempt := attempt + 1 in
            if decide (attempt = retryAttempts t1) then
              let '(t2, g2, effects) :=
                retry_loop fuel' document attempt t1 g1 in
              (t2, g2,
               LogActivity activityLog (Some error)
               :: ShowErrorMessage (retryAttempts t1) error
               :: ConsoleError error :: effects)
            else
              let '(t2, g2, effects) :=
                retry_loop fuel' document attempt t1 g1 in
              (t2, g2,
               LogActivity activityLog (Some error)
               :: Timeout (retryDelay t1 * attempt) :: effects)
        end
      else (t, g, [])
  end.

Definition logFileActivity (document : Document) (t : Tracker) (g : G)
  : Tracker * G * list Effect :=
  if negb (isTracking t) then (t, g, [])
  else retry_loop (Z.to_nat (retryAttempts t)) document 0 t g.
End WithGitManager.

Definition start (t : Tracker) : Tracker := with_isTracking true t.

Definition stop (t : Tracker) : Tracker :=
  with_previousContent [] (with_isTracking false t).

(** *** Reading the effects of a capture *)

(** The tries: the calls of [logActivity]. *)
Definition isAttempt (x : Effect) : bool :=
  match x with LogActivity _ _ => true | _ => false end.

(** The calls of [logActivity] that resolved. *)
Definition isAccepted (x : Effect) : bool :=
  match x with LogActivity _ None => true | _ => false end.

(** The notifications shown to the user. *)
Definition isNotification (x : Effect) : bool :=
  match x with ShowErrorMessage _ _ => true | _ => false end.

(** Failed tries, each followed by its wait: [delay * k] after the failure
    numbered [k], counted from one. *)
Fixpoint backoff (delay k : Z) (failures : list (ActivityLog * JsError))
  : list Effect :=
  match failures with
  | [] => []
  | (a, e) :: rest =>
      LogActivity a (Some e) :: Timeout (delay * k) :: backoff delay (k + 1) rest
  end.

(** The state behind the git manager goes from [g] to [g'] through the calls
    of [logActivity] listed among the effects, each ending as listed, and
    through nothing else. *)
Inductive threads {G : Type}
    (logActivity : ActivityLog -> G -> result unit * G)
  : list Effect -> G -> G -> Prop :=
  | threads_nil g : threads logActivity [] g g
  | threads_resolved a g g1 g' effects :
      logActivity a g = (Ok tt, g1) ->
      threads logActivity effects g1 g' ->
      threads logActivity (LogActivity a None :: effects) g g'
  | threads_rejected a e g g1 g' effects :
      logActivity a g = (Throw e, g1) ->
      threads logActivity effects g1 g' ->
      threads logActivity (LogActivity a (Some e) :: effects) g g'
  | threads_other x g g' effects :
      isAttempt x = false ->
      threads logActivity effects g g' ->
      threads logActivity (x :: effects) g g'.

(** A git manager for trials: its state is the number of calls made and the
    records accepted; the first [failing] calls are rejected and leave the
    records as they are. *)
Definition flaky (failing : nat) (a : ActivityLog)
    (g : nat * list ActivityLog) : result unit * (nat * list ActivityLog) :=
  if (g.1 <? failing)%nat then (Throw (plainError "offline"), (S g.1, g.2))
  else (Ok tt, (S g.1, g.2 ++ [a])%list).

End ActivityTracker.

(** ** What a capture leaves behind *)

Module Capture.
Import ActivityTracker.

(** The file of a document has the text of the document as its snapshot. *)
Definition captured (document : Document) (t : Tracker) : Prop :=
  JsMap.get (fileName document) (previousContent t) = Some (getText document).

(** A record that tells of no change. *)
Definition unchanged (a : ActivityLog) : Prop :=
  log_functions (changes a) = noChanges
  /\ addedLines (lineStats (changes a)) = 0
  /\ modifiedLines (lineStats (changes a)) = 0
  /\ type (changes a) = [].

(** The changes of a text against itself. *)
Definition again (document : Document) : Changes :=
  {| functions := noChanges;
     classes := noChanges;
     imports := noChanges;
     lineChanges :=
       {| addedLines := 0; modifiedLines := 0;
          totalLines := lineCount (getText document) |} |}.

(** The records the tries of a capture submit, in order. *)
Definition tries (effects : list Effect) : list ActivityLog :=
  omap (fun x => match x with LogActivity a _ => Some a | _ => None end)
    effects.

End Capture.

(** ** Scheduler ([src/scheduler.js]) *)

Module Scheduler.

(** The handle [setInterval] returns. *)
Definition TimerId := nat.

Record Scheduler := {
  interval : option TimerId;
  isRunning : bool;
  retryCount : Z;
  maxRetries : Z
}.

(** The scheduler together with the timers of the host that are armed.
    [nextId] is the handle the next [setInterval] gives out. *)
Record Host := {
  scheduler : Scheduler;
  armed : list TimerId;
  nextId : TimerId
}.

Definition new : Scheduler :=
  {| interval := None; isRunning := false; retryCount := 0; maxRetries := 3 |}.

Definition boot : Host := {| scheduler := new; armed := []; nextId := 1%nat |}.

Definition clearInterval (id : TimerId) (armed : list TimerId)
  : list TimerId :=
  List.filter (fun i => negb (Nat.eqb i id)) armed.

(** A handle is truthy, so [if (this.interval)] asks whether there is one. *)
Definition stop (h : Host) : Host :=
  let s := scheduler h in
  {| scheduler :=
       {| interval := None; isRunning := false; retryCount := 0;
          maxRetries := maxRetries s |};
     armed :=
       match interval s with
       | Some id => clearInterval id (armed h)
       | None => armed h
       end;
     nextId := nextId h |}.

Definition startPeriodicTracking (h : Host) : Host :=
  let s := scheduler h in
  if isRunning s then h
  else
    {| scheduler :=
         {| interval := Some (nextId h); isRunning := true;
            retryCount := retryCount s; maxRetries := maxRetries s |};
       armed := nextId h :: armed h;
       nextId := S (nextId h) |}.

Definition fatal : JsError := plainError "Tracking failed after maximum retries".

Definition handleError (h : Host) : result unit * Host :=
  let s := scheduler h in
  let h1 :=
    {| scheduler :=
         {| interval := interval s; isRunning := isRunning s;
            retryCount := retryCount s + 1; maxRetries := maxRetries s |};
       armed := armed h;
       nextId := nextId h |} in
  if retryCount (scheduler h1) >=? maxRetries (scheduler h1)
  then (Throw fatal, stop h1)
  else (Ok tt, h1).

(** The callback given to [setInterval]; [saved] is how
    [this.tracker.saveCurrentActivity()] ended. What the callback throws is
    the rejection of the promise it returns. *)
Definition onTick (saved : result unit) (h : Host) : result unit * Host :=
  match saved with
  | Ok _ =>
      let s := scheduler h in
      (Ok tt,
       {| scheduler :=
            {| interval := interval s; isRunning := isRunning s;
               retryCount := 0; maxRetries := maxRetries s |};
          armed := armed h;
          nextId := nextId h |})
  | Throw _ => handleError h
  end.

(** What happens to the scheduler from outside: a call of
    [startPeriodicTracking], a call of [stop], or the period of the timer
    [id] elapsing while [saveCurrentActivity] would end as [saved]. *)
Inductive Event :=
  | Start
  | Stop
  | Elapsed (id : TimerId) (saved : result unit).

(** What an event made of the scheduler, for an observer. *)
Inductive Outcome :=
  | Called
  | NotFired
  | Fired (thrown : result unit).

(** The host runs the callback of a timer only while the timer is armed. *)
Definition step (e : Event) (h : Host) : Outcome * Host :=
  match e with
  | Start => (Called, startPeriodicTracking h)
  | Stop => (Called, stop h)
  | Elapsed id saved =>
      if bool_decide (id ∈ armed h) then
        let '(r, h') := onTick saved h in (Fired r, h')
      else (NotFired, h)
  end.

Fixpoint run (es : list Event) (h : Host) : list Outcome * Host :=
  match es with
  | [] => ([], h)
  | e :: es' =>
      let '(o, h1) := step e h in
      let '(os, h2) := run es' h1 in
      (o :: os, h2)
  end.

Definition isFatal (o : Outcome) : bool :=
  match o with Fired (Throw _) => true | _ => false end.

Definition isStart (e : Event) : bool :=
  match e with Start => true | _ => false end.

Definition isFired (o : Outcome) : bool :=
  match o with Fired _ => true | _ => false end.

(** What holds of the scheduler and the timers of its host whatever
    happened since the scheduler was made: the timer it keeps the handle of
    is the one armed timer, it is running exactly while it has one, and the
    count of failures stays below the maximum. *)
Definition consistent (h : Host) : Prop :=
  let s := scheduler h in
  maxRetries s = 3
  /\ 0 <= retryCount s < maxRetries s
  /\ match interval s with
     | Some id => isRunning s = true /\ armed h = [id]
     | None => isRunning s = false /\ armed h = [] /\ retryCount s = 0
     end.

End Scheduler.

(** ** GithubAPI ([src/githubAPI.js]) and the remote store behind it *)

Module GithubAPI.

(** What a path of a repository holds. *)
Inductive Entry :=
  | File (content sha : string)
  | Directory.

(** Whether a request reaches the store and is answered, or fails on the
    way with the status the client reports. *)
Inductive Transport :=
  | Delivered
  | Failed (code : Z).

(** The requests of the client library that the code sends; the owner is
    always [this.username]. *)
Inductive Request :=
  | ReposGet (repo : string)
  | ReposGetContent (repo path : string)
  | CreateOrUpdateFileContents (repo path message content : string)
      (sha : option string).

(** What the client gets back: the entry asked for, a plain success, or the
    error the request ends with. *)
Inductive Answer :=
  | Data (e : Entry)
  | Success
  | Refused (e : JsError).

(** What the code does to the world outside: a request with its answer, a
    line of [console.error], a wait. *)
Inductive Event :=
  | Exchange (r : Request) (a : Answer)
  | Logged (e : JsError)
  | Slept (ms : Z).

(** The client object with the store it talks to: the repositories of the
    user, their files, the outcomes of the transport for the requests to
    come (none left: delivered) and everything that happened so far. *)
Record GithubAPI := {
  username : string;
  repos : gset string;
  files : gmap (string * string) Entry;
  script : list Transport;
  trace : list Event
}.

Definition with_files (f : gmap (string * string) Entry) (api : GithubAPI)
  : GithubAPI :=
  {| username := username api; repos := repos api; files := f;
     script := script api; trace := trace api |}.

Definition with_script (sc : list Transport) (api : GithubAPI) : GithubAPI :=
  {| username := username api; repos := repos api; files := files api;
     script := sc; trace := trace api |}.

Definition with_trace (tr : list Event) (api : GithubAPI) : GithubAPI :=
  {| username := username api; repos := repos api; files := files api;
     script := script api; trace := tr |}.

Definition record (e : Event) : M GithubAPI unit :=
  modify (fun api => with_trace (trace api ++ [e]) api).

Definition httpError (code : Z) : JsError :=
  {| message := "HttpError"; status := Some code |}.

(** A request takes the next outcome of the transport. *)
Definition transport : M GithubAPI unit :=
  sc ← gets script;
  match sc with
  | [] => mret tt
  | Delivered :: rest => modify (with_script rest)
  | Failed code :: rest => modify (with_script rest);; throw (httpError code)
  end.

(** A request [r]: when the transport delivers it the store serves it; the
    exchange is recorded with the answer the client sees. *)
Definition exchange {A} (r : Request) (answer : A -> Answer)
    (serve : M GithubAPI A) : M GithubAPI A :=
  try_catch
    (a ← (transport;; serve); record (Exchange r (answer a));; mret a)
    (fun e => record (Exchange r (Refused e));; throw e).

(** The state after an exchange: one outcome of the transport is used up
    and the exchange is on record. *)
Definition after (e : Event) (api : GithubAPI) : GithubAPI :=
  with_trace (trace api ++ [e]) (with_script (tail (script api)) api).

Definition as_answer {A} (answer : A -> Answer) (r : result A) : Answer :=
  match r with
  | Ok a => answer a
  | Throw e => Refused e
  end.

(** What the client gets for each of the three requests, read off the
    script and the store. *)
Definition served_get (repo : string) (api : GithubAPI) : result unit :=
  match script api with
  | Failed code :: _ => Throw (httpError code)
  | _ => if bool_decide (repo ∈ repos api) then Ok tt
         else Throw (httpError 404)
  end.

Definition served_content (repo path : string) (api : GithubAPI)
  : result Entry :=
  match script api with
  | Failed code :: _ => Throw (httpError code)
  | _ =>
      if bool_decide (repo ∈ repos api) then
        match files api !! (repo, path) with
        | Some e => Ok e
        | None => Throw (httpError 404)
        end
      else Throw (httpError 404)
  end.

Definition served_write (repo path : string) (sha : option string)
    (api : GithubAPI) : result unit :=
  match script api with
  | Failed code :: _ => Throw (httpError code)
  | _ =>
      if bool_decide (repo ∈ repos api) then
        match files api !! (repo, path), sha with
        | None, None => Ok tt
        | Some (File _ current), Some given =>
            if decide (given = current) then Ok tt
            else Throw (httpError 409)
        | _, _ => Throw (httpError 422)
        end
      else Throw (httpError 404)
  end.

(** What [updateFile] leaves when an error [e] reaches its [catch]. *)
Definition failed_update (e : JsError) (api : GithubAPI)
  : result unit * GithubAPI :=
  (Throw (plainError ("Failed to update file: " +:+ errorMessage e)),
   with_trace (trace api ++ [Logged e]) api).

(** Whether an event is a write to a path of a repository. *)
Definition isWriteTo (repo path : string) (e : Event) : bool :=
  match e with
  | Exchange (CreateOrUpdateFileContents r p _ _ _) _ =>
      bool_decide (r = repo) && bool_decide (p = path)
  | _ => false
  end.

Definition isWrite (e : Event) : bool :=
  match e with
  | Exchange (CreateOrUpdateFileContents _ _ _ _ _) _ => true
  | _ => false
  end.

(** The transport delivers every request to come. *)
Definition reliable (api : GithubAPI) : Prop :=
  Forall (fun t => t = Delivered) (script api).

(** The transport delivers the next [n] requests. *)
Definition delivers (n : nat) (api : GithubAPI) : Prop :=
  Forall (fun t => t = Delivered) (take n (script api)).

(** The concurrency token of what a path holds. *)
Definition token (e : option Entry) : option string :=
  match e with
  | Some (File _ sha) => Some sha
  | _ => None
  end.

(** The concurrency token a read gave: the one of the file it answered
    with, none when the answer was anything else. *)
Definition answered_token (a : Answer) : option string :=
  match a with
  | Data e => token (Some e)
  | _ => None
  end.

(** Every write among the events follows a read of the same path and
    carries the token that read gave: the token of the stored file when one
    was read, none when there is no file. [stored] is the store the events
    start from. *)
Definition writes_pass_read_token (stored : gmap (string * string) Entry)
    (events : list Event) : Prop :=
  forall i repo path message content sha answer,
    events !! i
    = Some (Exchange (CreateOrUpdateFileContents repo path message content sha)
              answer) ->
    exists j read,
      i = S j
      /\ events !! j = Some (Exchange (ReposGetContent repo path) read)
      /\ sha = answered_token read
      /\ (forall e, read = Data e -> stored !! (repo, path) = Some e)
      /\ (stored !! (repo, path) = None -> sha = None)
      /\ (answer = Success -> sha = token (stored !! (repo, path))).

Section WithPlatform.
Context {platform : Platform}.

(** *** The store's side of the three requests *)

Definition repos_get (repo : string) : M GithubAPI unit :=
  exchange (ReposGet repo) (fun _ => Success)
    (known ← gets repos;
     if bool_decide (repo ∈ known) then mret tt else throw (httpError 404)).

Definition repos_getContent (repo path : string) : M GithubAPI Entry :=
  exchange (ReposGetContent repo path) Data
    (known ← gets repos;
     if bool_decide (repo ∈ known) then
       stored ← gets files;
       match stored !! (repo, path) with
       | Some e => mret e
       | None => throw (httpError 404)
       end
     else throw (httpError 404)).

(** A file is created when the path is free and no token comes with the
    request, and replaced when the token that comes with it is the one
    of the stored file; anything else is refused (409 for a stale token,
    422 for a missing or unexpected one). *)
Definition repos_createOrUpdateFileContents
    (repo path message content : string) (sha : option string)
  : M GithubAPI unit :=
  exchange (CreateOrUpdateFileContents repo path message content sha)
    (fun _ => Success)
    (known ← gets repos;
     if bool_decide (repo ∈ known) then
       stored ← gets files;
       let write :=
         modify (with_files
                   (<[(repo, path) := File content (blob_sha content)]> stored)) in
       match stored !! (repo, path), sha with
       | None, None => write
       | Some (File _ current), Some given =>
           if decide (given = current) then write else throw (httpError 409)
       | _, _ => throw (httpError 422)
       end
     else throw (httpError 404)).

(** *** The methods of the class *)

Definition checkRepoExists (repo : string) : M GithubAPI bool :=
  try_catch
    (repos_get repo;; mret true)
    (fun error =>
       if decide (status error = Some 404) then mret false
       else throw error).

Definition updateFile (repo path content message : string)
  : M GithubAPI unit :=
  try_catch
    (repoExists ← checkRepoExists repo;
     if negb repoExists
     then throw (plainError ("Repository " +:+ repo +:+ " does not exist"))
     else
       sha ← try_catch
               (fileResponse ← repos_getContent repo path;
                match fileResponse with
                | File _ sha => mret (Some sha)
                | Directory => mret None
                end)
               (fun error =>
                  if decide (status error = Some 404) then mret None
                  else throw error);
       repos_createOrUpdateFileContents repo path message content sha)
    (fun error =>
       record (Logged error);;
       throw (plainError ("Failed to update file: " +:+ errorMessage error))).

(** [null] is [None]. *)
Definition getFileContent (repo path : string)
  : M GithubAPI (option string) :=
  try_catch
    (response ← repos_getContent repo path;
     match response with
     | File content _ => mret (Some content)
     | Directory => throw (plainError "Path points to a directory, not a file")
     end)
    (fun error =>
       if decide (status error = Some 404) then mret None
       else throw error).
End WithPlatform.

End GithubAPI.

(** ** GitManager ([src/gitManager.js]): the activity queue and its flush *)

Module GitManager.
Import GithubAPI.
Export ActivityTracker (ActivityLog, toJson, project).

Record Update := {
  update_file : string;
  update_content : string;
  update_message : string
}.

(** [queueProcessInterval] is whether the flush timer is set. *)
Record GitManager := {
  githubApi : GithubAPI;
  activityQueue : JsMap.t (list ActivityLog);
  isProcessingQueue : bool;
  queueProcessInterval : bool
}.

Definition REPO_NAME : string := "activity-tracker".

Definition new (api : GithubAPI) : GitManager :=
  {| githubApi := api; activityQueue := []; isProcessingQueue := false;
     queueProcessInterval := false |}.

Definition with_githubApi (api : GithubAPI) (gm : GitManager) : GitManager :=
  {| githubApi := api; activityQueue := activityQueue gm;
     isProcessingQueue := isProcessingQueue gm;
     queueProcessInterval := queueProcessInterval gm |}.

Definition with_activityQueue (q : JsMap.t (list ActivityLog))
    (gm : GitManager) : GitManager :=
  {| githubApi := githubApi gm; activityQueue := q;
     isProcessingQueue := isProcessingQueue gm;
     queueProcessInterval := queueProcessInterval gm |}.

Definition with_isProcessingQueue (b : bool) (gm : GitManager) : GitManager :=
  {| githubApi := githubApi gm; activityQueue := activityQueue gm;
     isProcessingQueue := b;
     queueProcessInterval := queueProcessInterval gm |}.

Definition with_queueProcessInterval (b : bool) (gm : GitManager)
  : GitManager :=
  {| githubApi := githubApi gm; activityQueue := activityQueue gm;
     isProcessingQueue := isProcessingQueue gm;
     queueProcessInterval := b |}.

(** A call of a method of [this.githubApi]. *)
Definition call {A} (m : M GithubAPI A) : M GitManager A :=
  fun gm =>
    let '(r, api) := m (githubApi gm) in (r, with_githubApi api gm).

Definition startQueueProcessor : M GitManager unit :=
  modify (fun gm =>
    if negb (queueProcessInterval gm) then with_queueProcessInterval true gm
    else gm).

Definition stopQueueProcessor : M GitManager unit :=
  modify (fun gm =>
    if queueProcessInterval gm then with_queueProcessInterval false gm
    else gm).

Definition logActivity (activityLog : ActivityLog) : M GitManager unit :=
  try_catch
    (let projectKey := project activityLog in
     modify (fun gm =>
       if negb (JsMap.has projectKey (activityQueue gm))
       then with_activityQueue (JsMap.set projectKey [] (activityQueue gm)) gm
       else gm);;
     queue ← gets activityQueue;
     match JsMap.get projectKey queue with
     | Some activities =>
         modify (with_activityQueue
                   (JsMap.set projectKey (activities ++ [activityLog])%list queue))
     | None =>
         throw (plainError
                  "Cannot read properties of undefined (reading 'push')")
     end;;
     startQueueProcessor)
    (fun error =>
       call (record (Logged error));;
       throw (plainError ("Failed to queue activity: " +:+ errorMessage error))).

(** A run of calls of [logActivity], one after the other. *)
Definition logActivities (activities : list ActivityLog) (gm : GitManager)
  : GitManager :=
  foldl (fun gm a => (logActivity a gm).2) gm activities.

Definition logFile (project : string) : string :=
  "projects/" +:+ project +:+ "/activity-log.json".

Section WithPlatform.
Context {platform : Platform}.

(** The inner [try] of the flush, which leaves the array [logs]: the
    parsed log when there is one to read, the empty array when there is
    none or when reading or parsing throws. The [catch] looks at nothing
    of the error of [JSON.parse], so only that it is thrown is kept. *)
Definition readLogs (file : string) : M GitManager Json :=
  try_catch
    (existingContent ← call (getFileContent REPO_NAME file);
     match existingContent with
     | Some content =>
         if decide (content = "") then mret (JArray [])
         else match JSON_parse content with
              | Some logs => mret logs
              | None => throw (plainError "SyntaxError")
              end
     | None => mret (JArray [])
     end)
    (fun _ => mret (JArray [])).

(** The error of [logs.push(...activities)] when [logs] is no array:
    reading [push] of [null] throws, and of any other value that is no
    array [push] is [undefined], which is no function. *)
Definition pushError (logs : Json) : JsError :=
  match logs with
  | JNull => plainError "Cannot read properties of null (reading 'push')"
  | _ => plainError "logs.push is not a function"
  end.

(** The first loop, over the entries of the queue in insertion order.
    The loop of the source walks the live [Map]; it only ever sets the
    entry it is at, so walking the entries as they were when the loop
    began visits the same projects with the same activities. *)
Fixpoint collectUpdates (entries : list (string * list ActivityLog))
    (updates : list Update) : M GitManager (list Update) :=
  match entries with
  | [] => mret updates
  | (project, activities) :: rest =>
      if decide (length activities = 0%nat) then collectUpdates rest updates
      else
        logs ← readLogs (logFile project);
        match logs with
        | JArray items =>
            let logs := (items ++ (toJson <$> activities))%list in
            let update :=
              {| update_file := logFile project;
                 update_content := JSON_stringify (JArray logs) 2;
                 update_message :=
                   "Update activity log with "
                   +:+ pretty (length activities) +:+ " entries" |} in
            modify (fun gm =>
              with_activityQueue
                (JsMap.set project [] (activityQueue gm)) gm);;
            collectUpdates rest (updates ++ [update])%list
        | _ => throw (pushError logs)
        end
  end.

(** The second loop. *)
Fixpoint executeUpdates (updates : list Update) : M GitManager unit :=
  match updates with
  | [] => mret tt
  | update :: rest =>
      call (updateFile REPO_NAME (update_file update)
              (update_content update) (update_message update));;
      call (record (Slept 1000));;
      executeUpdates rest
  end.

Definition processActivityQueue : M GitManager unit :=
  fun gm =>
    if isProcessingQueue gm || (JsMap.size (activityQueue gm) =? 0)
    then (Ok tt, gm)
    else
      let gm := with_isProcessingQueue true gm in
      let '(_, gm) :=
        try_catch
          (updates ← collectUpdates (activityQueue gm) [];
           executeUpdates updates)
          (fun error => call (record (Logged error)))
          gm in
      (Ok tt, with_isProcessingQueue false gm).

(** *** The flush, read off the store *)

(** What the inner [try] leaves in [logs] for a log file, read off the
    script and the store. *)
Definition logs_seen (api : GithubAPI) (file : string) : Json :=
  match served_content REPO_NAME file api with
  | Ok (File content _) =>
      if decide (content = "") then JArray []
      else match JSON_parse content with
           | Some logs => logs
           | None => JArray []
           end
  | _ => JArray []
  end.

(** The client after the read of a log file. *)
Definition read_log (file : string) (api : GithubAPI) : GithubAPI :=
  after (Exchange (ReposGetContent REPO_NAME file)
           (as_answer Data (served_content REPO_NAME file api))) api.

(** The update the first loop makes for a project. *)
Definition update_for (project : string) (items : list Json)
    (activities : list ActivityLog) : Update :=
  {| update_file := logFile project;
     update_content :=
       JSON_stringify (JArray (items ++ (toJson <$> activities))%list) 2;
     update_message :=
       "Update activity log with "
       +:+ pretty (length activities) +:+ " entries" |}.

(** The updates the first loop collects, [None] when it throws because
    some log is JSON but not an array. *)
Fixpoint planned (api : GithubAPI) (entries : list (string * list ActivityLog))
  : option (list Update) :=
  match entries with
  | [] => Some []
  | (project, activities) :: rest =>
      if decide (length activities = 0%nat) then planned api rest
      else match logs_seen api (logFile project) with
           | JArray items =>
               cons (update_for project items activities)
               <$> planned (read_log (logFile project) api) rest
           | _ => None
           end
  end.

(** The client after the reads of the first loop. *)
Fixpoint reads (api : GithubAPI) (entries : list (string * list ActivityLog))
  : GithubAPI :=
  match entries with
  | [] => api
  | (project, activities) :: rest =>
      if decide (length activities = 0%nat) then reads api rest
      else reads (read_log (logFile project) api) rest
  end.

(** The queue after the first loop: every buffer that held something is
    empty. *)
Fixpoint cleared (entries : list (string * list ActivityLog))
    (queue : JsMap.t (list ActivityLog)) : JsMap.t (list ActivityLog) :=
  match entries with
  | [] => queue
  | (project, activities) :: rest =>
      if decide (length activities = 0%nat) then cleared rest queue
      else cleared rest (JsMap.set project [] queue)
  end.

(** The store after the writes of a list of updates. *)
Definition written (updates : list Update)
    (stored : gmap (string * string) Entry) : gmap (string * string) Entry :=
  foldl (fun stored u =>
           <[(REPO_NAME, update_file u)
             := File (update_content u) (blob_sha (update_content u))]> stored)
    stored updates.

(** The number of projects with something to flush. *)
Definition pending (entries : list (string * list ActivityLog)) : nat :=
  length (List.filter (fun e => negb (bool_decide (length e.2 = 0%nat))) entries).

(** A log the flush can extend: no file, or a file that is empty, is not
    JSON, or is a JSON array. *)
Definition extendable (e : option Entry) : Prop :=
  match e with
  | None => True
  | Some (File content _) =>
      content = ""
      \/ match JSON_parse content with
         | Some (JArray _) | None => True
         | Some _ => False
         end
  | Some Directory => False
  end.

(** The records of a stored log: those of the array it holds, none when
    there is no array to read. *)
Definition stored_items (e : option Entry) : list Json :=
  match e with
  | Some (File content _) =>
      if decide (content = "") then []
      else match JSON_parse content with
           | Some (JArray items) => items
           | _ => []
           end
  | _ => []
  end.

(** The manager after [console.error(error)]. *)
Definition logged (e : JsError) (gm : GitManager) : GitManager :=
  with_githubApi
    (with_trace (trace (githubApi gm) ++ [Logged e]) (githubApi gm)) gm.

(** What the first loop takes for the records of a stored log: nothing when
    the read fails on the way, the records of the stored array otherwise. *)
Definition items_seen (sc : list Transport) (e : option Entry) : list Json :=
  match sc with
  | Failed _ :: _ => []
  | _ => stored_items e
  end.

(** The updates of a flush, read off the script and the store: one for each
    project with something to flush, whose read takes the next outcome of
    the script. *)
Fixpoint expected (sc : list Transport) (stored : gmap (string * string) Entry)
    (entries : list (string * list ActivityLog)) : list Update :=
  match entries with
  | [] => []
  | (project, activities) :: rest =>
      if decide (length activities = 0%nat) then expected sc stored rest
      else update_for project
             (items_seen sc (stored !! (REPO_NAME, logFile project))) activities
           :: expected (tail sc) stored rest
  end.

(** Every log that the first loop gets to read can be extended. *)
Fixpoint readable (sc : list Transport) (stored : gmap (string * string) Entry)
    (entries : list (string * list ActivityLog)) : Prop :=
  match entries with
  | [] => True
  | (project, activities) :: rest =>
      if decide (length activities = 0%nat) then readable sc stored rest
      else match sc with
           | Failed _ :: _ => True
           | _ => extendable (stored !! (REPO_NAME, logFile project))
           end
           /\ readable (tail sc) stored rest
  end.

(** [updatedContent] is the text the template of the source yields for
    the user at the time of the call. The call of [updateFile] in the
    source has a fifth argument, [existingContent ? existingContent.sha :
    null]; [updateFile] has four parameters, so it is not looked at. *)
Definition ensureProfileReadme (updatedContent : string)
  : M GitManager unit :=
  try_catch
    (user ← gets (username ∘ githubApi);
     existingContent ← call (getFileContent user "README.md");
     let same :=
       match existingContent with
       | Some content =>
           negb (bool_decide (content = ""))
           && bool_decide (content = updatedContent)
       | None => false
       end in
     if negb same then
       call (updateFile user "README.md" updatedContent
               "Update profile README with visualizations")
     else mret tt)
    (fun error => call (record (Logged error));; throw error).
End WithPlatform.

End GitManager.

(** ** The files of a new tracker repository ([src/gitManager.js]) *)

Module RepositorySetup.
Import GithubAPI GitManager.

Record InitialFile := { file_path : string; file_content : string }.

Section WithTexts.
Context {platform : Platform}.
(** The texts that [getInitialReadme()] and [getProfileScript()] return:
    string constants of the source that nothing in the code looks into. *)
Variables getInitialReadme getProfileScript : string.

(** The array [files] of [initializeRepoStructure]. *)
Definition initialFiles : list InitialFile :=
  [ {| file_path := "README.md"; file_content := getInitialReadme |};
    {| file_path := ".github/scripts/update-profile.js";
       file_content := getProfileScript |};
    {| file_path := "projects/README.md";
       file_content :=
         "# Project Activity Logs"
         +:+ String LF
               "This directory contains activity logs for different projects." |};
    {| file_path := "visualizations/README.md";
       file_content :=
         "# Visualizations"
         +:+ String LF
               ("This directory contains automatically generated activity "
                +:+ "visualizations.") |} ].

(** The loop [for (const file of files)]. *)
Fixpoint createFiles (files : list InitialFile) : M GitManager unit :=
  match files with
  | [] => mret tt
  | file :: rest =>
      call (updateFile REPO_NAME (file_path file) (file_content file)
              ("Initialize " +:+ file_path file));;
      call (record (Slept 1000));;
      createFiles rest
  end.

Definition initializeRepoStructure : M GitManager unit :=
  try_catch (createFiles initialFiles)
    (fun error => call (record (Logged error));; throw error).

(** The store after the files of a list have been made. *)
Definition made (files : list InitialFile)
    (stored : gmap (string * string) Entry) : gmap (string * string) Entry :=
  foldl (fun stored f =>
           <[(REPO_NAME, file_path f)
             := File (file_content f) (blob_sha (file_content f))]> stored)
    stored files.
End WithTexts.

End RepositorySetup.

(** ** Counting what a flush sends *)

Module Traffic.
Import GithubAPI.

Definition isRequest (e : Event) : bool :=
  match e with Exchange _ _ => true | _ => false end.

Definition isWait (e : Event) : bool :=
  match e with Slept _ => true | _ => false end.

End Traffic.

(** ** The save handler ([src/extension.js]) *)

Module Extension.
Import ActivityTracker.

(** The variable [tracker] of the module, with the git manager the tracker
    was made with: unset as long as the activation has not got to make the
    tracker. *)
Definition Extension : Type := option (Tracker * GitManager.GitManager).

(** What [activate] leaves in [tracker] when it gets through, [api] being
    the client after the set-up: a tracker with the default settings that
    is started, and a manager with an empty queue. *)
Definition activated (api : GithubAPI.GithubAPI) : Extension :=
  Some (start (new noOptions), GitManager.new api).

(** The listener given to [onDidSaveTextDocument]. Reading [isTracking] of
    an unset [tracker] throws. *)
Definition onDidSaveTextDocument (now : Z -> string) (document : Document)
    (ext : Extension) : result unit * Extension * list Effect :=
  match ext with
  | None =>
      (Throw (plainError ("Cannot read properties of undefined "
                          +:+ "(reading 'isTracking')")),
       ext, [])
  | Some (t, gm) =>
      if isTracking t then
        let '(t', gm', effects) :=
          logFileActivity GitManager.logActivity now document t gm in
        (Ok tt, Some (t', gm'), effects)
      else (Ok tt, ext, [])
  end.

End Extension.

(** ** Runs of ticks of the scheduler *)

Module Ticks.

(** Three saves in a row that fail. *)
Definition three_in_a_row (saves : list (result unit)) : Prop :=
  exists before e1 e2 e3 behind,
    saves = (before ++ [Throw e1; Throw e2; Throw e3] ++ behind)%list.

(** Whether saves reach three failures in a row, [count] failures having
    come just before them. *)
Fixpoint trips (count : Z) (saves : list (result unit)) : bool :=
  match saves with
  | [] => false
  | Ok _ :: rest => trips 0 rest
  | Throw _ :: rest => if count + 1 >=? 3 then true else trips (count + 1) rest
  end.

End Ticks.

(** ** A platform and a manager for trials *)

Module Trial.
Import GithubAPI GitManager.

(** A printer of JSON values, compact and with bare strings. *)
Fixpoint printJson (v : Json) : string :=
  match v with
  | JNull => "null"
  | JBool b => if b then "true" else "false"
  | JNumber n => pretty n
  | JString s => s
  | JArray items =>
      "["
      +:+ (fix go (l : list Json) : string :=
             match l with
             | [] => ""
             | [x] => printJson x
             | x :: l' => printJson x +:+ "," +:+ go l'
             end) items
      +:+ "]"
  | JObject members =>
      "{"
      +:+ (fix go (l : list (string * Json)) : string :=
             match l with
             | [] => ""
             | [(k, x)] => k +:+ ":" +:+ printJson x
             | (k, x) :: l' => k +:+ ":" +:+ printJson x +:+ "," +:+ go l'
             end) members
      +:+ "}"
  end.

(** The log of the specification's example, a record [{id: 1}]. *)
Definition oldRecord : Json := JObject [("id", JNumber 1)].

(** A parser for the few texts the trials store. *)
Definition parseJson (s : string) : option Json :=
  if decide (s = "[{id:1}]") then Some (JArray [oldRecord])
  else if decide (s = "[]") then Some (JArray [])
  else if decide (s = "{}") then Some (JObject [])
  else None.

Definition platform : Platform :=
  {| JSON_parse := parseJson;
     JSON_stringify := fun v _ => printJson v;
     blob_sha := fun content => "sha of " +:+ content |}.

(** A saved document of project [P] and a clock that stands still. *)
Definition document : ActivityTracker.Document :=
  {| ActivityTracker.fileName := "/w/P/a.js";
     ActivityTracker.getText := "function a(){}";
     ActivityTracker.workspaceFolder := Some "P";
     ActivityTracker.fsPath := "/w/P/a.js" |}.

Definition clock (attempt : Z) : string := "2024-01-01T00:00:00.000Z".

(** Two records of project [P]: the one a first capture of the document
    makes, and one for another file. *)
Definition record1 : ActivityLog :=
  ActivityTracker.buildActivityLog clock document
    (ActivityTracker.trackCodeChanges document
       (ActivityTracker.new ActivityTracker.noOptions)).1
    0.

Definition record2 : ActivityLog :=
  {| ActivityTracker.file := "/w/P/b.js";
     ActivityTracker.project := "P";
     ActivityTracker.timestamp := "2024-01-01T00:00:05.000Z";
     ActivityTracker.changes := ActivityTracker.changes record1 |}.

(** The client of a user whose tracker repository holds the log of project
    [P] with the given content; [sc] is the script of the transport. *)
Definition client (content : string) (sc : list Transport) : GithubAPI :=
  {| username := "dev";
     repos := {[ REPO_NAME ]};
     files := {[ (REPO_NAME, logFile "P") := File content "sha0" ]};
     script := sc;
     trace := [] |}.

(** A manager with the two records logged. *)
Definition manager (content : string) (sc : list Transport) : GitManager :=
  logActivities [record1; record2] (new (client content sc)).

End Trial.

(** A platform that also reads back the log the first flush of the trial
    manager writes. *)
Module Replay.
Import GitManager Trial.

Definition firstLog : Json := JArray [oldRecord; toJson record1].

Definition parseJson (s : string) : option Json :=
  if decide (s = printJson firstLog) then Some firstLog
  else Trial.parseJson s.

Definition platform : Platform :=
  {| JSON_parse := parseJson;
     JSON_stringify := fun v _ => printJson v;
     blob_sha := fun content => "sha of " +:+ content |}.

End Replay.

(** ** The placing of the shapes ([src/visualization.js]) *)

Module Visualization.

(** Where [generateVisualizations] puts the cell of the heat map and the
    bar of the chart with index [i], the index [forEach] gives to its
    callback. The fills of the cells and the heights of the bars are
    floating-point numbers and are left out. *)
Definition cellSize : Z := 10.

Definition cellPadding : Z := 2.

Definition cellX (i : Z) : Z := (i mod 52) * (cellSize + cellPadding) + 20.

(** [Math.floor(i / 52)] *)
Definition cellY (i : Z) : Z := (i / 52) * (cellSize + cellPadding) + 20.

Definition barWidth : Z := 40.

Definition barGap : Z := 20.

Definition barX (i : Z) : Z := i * (barWidth + barGap) + 50.

(** The sizes the two canvases are given. *)
Definition heatmapSize : Z * Z := (800, 200).

Definition chartSize : Z * Z := (800, 300).

End Visualization.

(** * Properties *)

(** ** The insertion-ordered [Map] *)

Section JsMapFacts.
Context {V : Type}.
Implicit Types (m : JsMap.t V) (k : string) (v : V).

Lemma JsMap_size_length m : JsMap.size m = Z.of_nat (length (JsMap.keys m)).
Proof. unfold JsMap.size, JsMap.keys. by rewrite length_fmap. Qed.

Lemma JsMap_keys_set_old k v m :
  k ∈ JsMap.keys m -> JsMap.keys (JsMap.set k v m) = JsMap.keys m.
Proof.
  induction m as [|[k' v'] m IH]; simpl; intros Hin.
  - by apply elem_of_nil in Hin.
  - destruct (decide (k = k')) as [->|Hne]; [done|].
    apply elem_of_cons in Hin as [?|Hin]; [done|].
    simpl. f_equal. by apply IH.
Qed.

Lemma JsMap_keys_set_new k v m :
  k ∉ JsMap.keys m -> JsMap.keys (JsMap.set k v m) = (JsMap.keys m ++ [k])%list.
Proof.
  induction m as [|[k' v'] m IH]; simpl; intros Hin; [done|].
  apply not_elem_of_cons in Hin as [Hne Hin].
  destruct (decide (k = k')); [done|].
  simpl. f_equal. by apply IH.
Qed.

Lemma JsMap_get_set_eq k v m : JsMap.get k (JsMap.set k v m) = Some v.
Proof.
  induction m as [|[k' v'] m IH]; simpl.
  - by rewrite decide_True.
  - destruct (decide (k = k')) as [->|Hne]; simpl.
    + by rewrite decide_True.
    + by rewrite decide_False.
Qed.

Lemma JsMap_get_set_ne k k' v m :
  k ≠ k' -> JsMap.get k' (JsMap.set k v m) = JsMap.get k' m.
Proof.
  intros Hne. induction m as [|[k0 v0] m IH]; simpl.
  - by rewrite decide_False.
  - destruct (decide (k = k0)) as [->|Hne0]; simpl.
    + by rewrite !(decide_False (P := k' = k0)).
    + destruct (decide (k' = k0)); [done|]. apply IH.
Qed.

Lemma JsMap_get_None k m : JsMap.get k m = None <-> k ∉ JsMap.keys m.
Proof.
  induction m as [|[k' v'] m IH]; simpl.
  - split; [intros _; apply not_elem_of_nil|done].
  - rewrite not_elem_of_cons. destruct (decide (k = k')) as [->|Hne].
    + split; [done|]. by intros [? _].
    + rewrite IH. split; [done|]. by intros [_ ?].
Qed.

Lemma JsMap_get_Some_keys k v m : JsMap.get k m = Some v -> k ∈ JsMap.keys m.
Proof.
  intros Hget. destruct (decide (k ∈ JsMap.keys m)) as [|Hn]; [done|].
  apply JsMap_get_None in Hn. congruence.
Qed.

Lemma JsMap_wf_set k v m : JsMap.wf m -> JsMap.wf (JsMap.set k v m).
Proof.
  unfold JsMap.wf. intros Hwf.
  destruct (decide (k ∈ JsMap.keys m)) as [Hin|Hin].
  - by rewrite JsMap_keys_set_old.
  - rewrite JsMap_keys_set_new by done.
    apply NoDup_app. split_and!; [done| |apply NoDup_singleton].
    intros x Hx Hx'. apply list_elem_of_singleton in Hx' as ->. done.
Qed.

Lemma JsMap_delete_oldest_keys m :
  JsMap.keys (JsMap.delete_oldest m) = tail (JsMap.keys m).
Proof.
  destruct m as [|[k v] m]; [done|].
  unfold JsMap.delete_oldest. simpl. by rewrite decide_True.
Qed.

Lemma JsMap_wf_delete_oldest m : JsMap.wf m -> JsMap.wf (JsMap.delete_oldest m).
Proof.
  unfold JsMap.wf. rewrite JsMap_delete_oldest_keys.
  destruct (JsMap.keys m); [done|]. simpl. by intros ?%NoDup_cons_1_2.
Qed.
End JsMapFacts.

(** ** The change detector *)

Section SplitFacts.
Variable sep : ascii -> bool.

Lemma split_by_length s : length (split_by sep s) = S (occurrences sep s).
Proof.
  induction s as [|c s IH]; simpl; [done|].
  destruct (sep c); simpl; [by rewrite IH|].
  destruct (split_by sep s); simpl in *; lia.
Qed.

Lemma split_by_segments s :
  Forall (fun seg => occurrences sep seg = 0%nat) (split_by sep s).
Proof.
  induction s as [|c s IH]; simpl; [by repeat constructor|].
  destruct (sep c) eqn:Hc; [by constructor|].
  destruct (split_by sep s) as [|seg segs]; simpl.
  - repeat constructor. simpl. by rewrite Hc.
  - inversion IH; subst. constructor; [|done]. simpl. by rewrite Hc.
Qed.

Lemma split_by_join c s :
  sep c = true -> (forall c', sep c' = true -> c' = c) ->
  join c (split_by sep s) = s.
Proof.
  intros Hc Huniq. induction s as [|a s IH]; simpl; [done|].
  destruct (sep a) eqn:Ha.
  - apply Huniq in Ha as ->.
    pose proof (split_by_length s) as Hlen.
    destruct (split_by sep s) as [|seg segs]; [done|].
    simpl. simpl in IH. by rewrite IH.
  - pose proof (split_by_length s) as Hlen.
    destruct (split_by sep s) as [|seg [|seg' segs]]; [done| |];
      simpl in *; by rewrite <- IH.
Qed.
End SplitFacts.

Section LineFacts.
Import ActivityTracker.

(** A content has one more line than it has line feeds. *)
Lemma lineCount_occurrences content :
  lineCount content
  = 1 + Z.of_nat (occurrences (fun c => bool_decide (c = LF)) content).
Proof. unfold lineCount, split. rewrite split_by_length. lia. Qed.

(** The lines of a content, put together again with line feeds, are the
    content. *)
Lemma split_lines_join content : join LF (split LF content) = content.
Proof.
  apply (split_by_join (fun c => bool_decide (c = LF)));
    [by rewrite bool_decide_eq_true|].
  intros c'. by rewrite bool_decide_eq_true.
Qed.

(** C7. For all old and new contents the line statistics are
    [addedLines = newLineCount - oldLineCount],
    [modifiedLines = |newLineCount - oldLineCount|], which is [|addedLines|],
    and [totalLines = newLineCount]; the line count of a content is the
    number of segments the line feeds cut it into, so it is at least one. *)
Theorem getLineChanges_statistics oldContent newContent :
  let stats := getLineChanges oldContent newContent in
  addedLines stats = lineCount newContent - lineCount oldContent
  /\ modifiedLines stats = Z.abs (lineCount newContent - lineCount oldContent)
  /\ modifiedLines stats = Z.abs (addedLines stats)
  /\ totalLines stats = lineCount newContent
  /\ lineCount newContent = Z.of_nat (length (split LF newContent))
  /\ lineCount oldContent = Z.of_nat (length (split LF oldContent))
  /\ 1 <= lineCount newContent.
Proof.
  pose proof (lineCount_occurrences newContent) as Hnew.
  simpl. unfold lineCount in *. repeat split. lia.
Qed.
End LineFacts.

Section PatternFacts.
Import ActivityTracker.

Lemma space_not_word c : is_space c = true -> is_word c = false.
Proof. destruct c as [[] [] [] [] [] [] [] []]; by vm_compute. Qed.

Lemma word_not_space c : is_word c = true -> is_space c = false.
Proof. destruct c as [[] [] [] [] [] [] [] []]; by vm_compute. Qed.

Lemma span_sound p s a b :
  span p s = (a, b) -> s = a +:+ b /\ all_chars p a = true /\ stops p b.
Proof.
  revert a b. induction s as [|c s IH]; simpl; intros a b Hspan.
  - by inversion Hspan.
  - destruct (p c) eqn:Hc.
    + destruct (span p s) as [a' b'] eqn:Hs. inversion Hspan; subst.
      destruct (IH _ _ eq_refl) as (-> & Hall & Hstop).
      simpl. by rewrite Hc, Hall.
    + inversion Hspan; subst. simpl. by rewrite Hc.
Qed.

Lemma span_complete p a b :
  all_chars p a = true -> stops p b -> span p (a +:+ b) = (a, b).
Proof.
  intros Hall Hstop. induction a as [|c a IH]; simpl in *.
  - destruct b as [|c b]; simpl in *; [done|]. by rewrite Hstop.
  - apply andb_true_iff in Hall as [Hc Hall]. by rewrite Hc, IH.
Qed.

Lemma strip_prefix_spec p s r : strip_prefix p s = Some r <-> s = p +:+ r.
Proof.
  revert s. induction p as [|a p IH]; intros s; simpl.
  - split; [by intros [= ->]|by intros ->].
  - destruct s as [|b s]; [done|].
    destruct (decide (a = b)) as [->|Hne].
    + rewrite IH. split; [by intros ->|by intros [= ->]].
    + split; [done|]. by intros [= <- _].
Qed.

(** The matcher finds a match at the start of a string exactly when the
    pattern has one there, and then the capture and the length are the
    pattern's: there is one way at most to match. *)
Lemma match_here_spec s name len :
  match_here s = Some (name, len) <-> pattern_matches s name len.
Proof.
  unfold match_here, pattern_matches. split.
  - destruct (strip_prefix "function" s) as [r0|] eqn:Hpre; [|done].
    apply strip_prefix_spec in Hpre as ->.
    destruct (span is_space r0) as [ws r1] eqn:H1.
    destruct (span is_word r1) as [nm r2] eqn:H2.
    destruct (span is_space r2) as [ws' r3] eqn:H3.
    apply span_sound in H1 as (-> & Hws & _).
    apply span_sound in H2 as (-> & Hnm & _).
    apply span_sound in H3 as (-> & Hws' & _).
    destruct ws as [|w ws]; [done|]. destruct nm as [|n nm]; [done|].
    destruct r3 as [|c r3]; [done|].
    destruct (decide (c = "("%char)) as [->|Hne].
    + intros [= <- <-]. exists (String w ws), ws', r3. by split_and!.
    + intros Hm. exfalso. revert Hm.
      destruct c as [[] [] [] [] [] [] [] []]; done.
  - intros (ws & ws' & rest & -> & Hws0 & Hws & Hnm0 & Hnm & Hws' & ->).
    assert (strip_prefix "function"
              ("function" +:+ ws +:+ name +:+ ws' +:+ String "(" rest)
            = Some (ws +:+ name +:+ ws' +:+ String "(" rest)) as ->
      by (by apply strip_prefix_spec).
    destruct name as [|n nm]; [done|]. destruct ws as [|w ws]; [done|].
    pose proof Hnm as Hn. simpl in Hn. apply andb_true_iff in Hn as [Hn _].
    assert (stops is_space (String n nm +:+ ws' +:+ String "(" rest)) as Hs1
      by (simpl; by apply word_not_space).
    rewrite (span_complete is_space (String w ws) _ Hws Hs1).
    assert (stops is_word (ws' +:+ String "(" rest)) as Hs2.
    { destruct ws' as [|c ws']; simpl in *; [done|].
      apply andb_true_iff in Hws' as [Hc _]. by apply space_not_word. }
    rewrite (span_complete is_word (String n nm) _ Hnm Hs2).
    assert (stops is_space (String "(" rest)) as Hs3 by done.
    by rewrite (span_complete is_space ws' _ Hws' Hs3).
Qed.

Lemma scan_skip skip s : scan skip s = scan 0 (string_drop skip s).
Proof.
  revert skip. induction s as [|c s IH]; intros [|skip]; try done.
  simpl scan at 1. by rewrite IH.
Qed.

(** The names found in a content, match by match: a match at the start
    gives its capture and the search goes on behind the match; without a
    match there it goes on one character further. *)
Lemma functionNames_unfold content :
  functionNames content
  = match content with
    | EmptyString => []
    | String _ content' =>
        match match_here content with
        | Some (name, len) => name :: functionNames (string_drop len content)
        | None => functionNames content'
        end
    end.
Proof.
  unfold functionNames. destruct content as [|c content']; [done|].
  simpl scan at 1.
  destruct (match_here (String c content')) as [[name len]|] eqn:Hm; [|done].
  f_equal. rewrite scan_skip.
  assert (Hlen : exists n, len = S n).
  { apply match_here_spec in Hm as (ws & ws' & rest & _ & _ & _ & _ & _ & _ & ->).
    eexists. by rewrite (Nat.add_comm _ 1). }
  by destruct Hlen as [n ->].
Qed.

(** C5. For all old and new contents: [added] holds exactly the names the
    function pattern finds in the new content and not in the old one, in the
    order they are found; [removed] exactly those found in the old content
    and not in the new one; [modified] is empty. The contents
    [function a(){}] and the same followed by a line [function b(){}] give
    [added = [b]], [removed = []] and one added line. *)
Theorem detectFunctionChanges_spec oldContent newContent :
  let changes := detectFunctionChanges oldContent newContent in
  (forall f, f ∈ added changes
             <-> f ∈ functionNames newContent /\ f ∉ functionNames oldContent)
  /\ (forall f, f ∈ removed changes
                <-> f ∈ functionNames oldContent /\ f ∉ functionNames newContent)
  /\ added changes `sublist_of` functionNames newContent
  /\ removed changes `sublist_of` functionNames oldContent
  /\ modified changes = []
  /\ (let a := "function a(){}" in
      let ab := "function a(){}" +:+ String LF "function b(){}" in
      added (detectFunctionChanges a ab) = ["b"]
      /\ removed (detectFunctionChanges a ab) = []
      /\ modified (detectFunctionChanges a ab) = []
      /\ addedLines (getLineChanges a ab) = 1).
Proof.
  assert (Hmem : forall (f : string) l1 l2,
    f ∈ List.filter (fun f => negb (includes f l1)) l2 <-> f ∈ l2 /\ f ∉ l1).
  { intros f l1 l2. rewrite !list_elem_of_In, filter_In, <- !list_elem_of_In.
    unfold includes. rewrite negb_true_iff, bool_decide_eq_false. done. }
  assert (Hsub : forall (l1 l2 : list string),
    List.filter (fun f => negb (includes f l1)) l2 `sublist_of` l2).
  { intros l1 l2. induction l2 as [|x l2 IH]; simpl; [done|].
    destruct (negb (includes x l1)); by constructor. }
  simpl. split_and!; try done; try apply Hmem; apply Hsub.
Qed.

End PatternFacts.

(** ** The content cache *)

Section CacheFacts.
Import ActivityTracker.
Implicit Types (t : Tracker) (f c : string).

Lemma manage_unfold t f c :
  previousContent (managePreviousContent f c t)
  = JsMap.set f c
      (if JsMap.size (previousContent t) >=? maxCachedFiles t
       then JsMap.delete_oldest (previousContent t) else previousContent t).
Proof. done. Qed.

Lemma manage_maxCachedFiles t f c :
  maxCachedFiles (managePreviousContent f c t) = maxCachedFiles t.
Proof. done. Qed.

Lemma manage_wf t f c :
  JsMap.wf (previousContent t) -> JsMap.wf (previousContent (managePreviousContent f c t)).
Proof.
  intros Hwf. rewrite manage_unfold. apply JsMap_wf_set.
  destruct (_ >=? _); [by apply JsMap_wf_delete_oldest|done].
Qed.

Lemma JsMap_size_set (m : JsMap.t string) f c :
  JsMap.size (JsMap.set f c m) <= JsMap.size m + 1.
Proof.
  rewrite !JsMap_size_length.
  destruct (decide (f ∈ JsMap.keys m)) as [Hin|Hin].
  - rewrite JsMap_keys_set_old by done. lia.
  - rewrite JsMap_keys_set_new, length_app by done. simpl. lia.
Qed.

Lemma JsMap_size_delete_oldest (m : JsMap.t string) :
  0 < JsMap.size m -> JsMap.size (JsMap.delete_oldest m) = JsMap.size m - 1.
Proof.
  rewrite !JsMap_size_length, JsMap_delete_oldest_keys.
  destruct (JsMap.keys m); simpl; lia.
Qed.

Lemma manage_bound t f c :
  1 <= maxCachedFiles t -> JsMap.size (previousContent t) <= maxCachedFiles t ->
  JsMap.size (previousContent (managePreviousContent f c t)) <= maxCachedFiles t.
Proof.
  intros Hmax Hsize. rewrite manage_unfold.
  destruct (Z.geb_spec (JsMap.size (previousContent t)) (maxCachedFiles t)) as [Hge|Hlt].
  - pose proof (JsMap_size_set (JsMap.delete_oldest (previousContent t)) f c).
    rewrite JsMap_size_delete_oldest in * by lia. lia.
  - pose proof (JsMap_size_set (previousContent t) f c). lia.
Qed.

Lemma manageAll_bound writes t :
  1 <= maxCachedFiles t -> JsMap.size (previousContent t) <= maxCachedFiles t ->
  JsMap.size (previousContent (manageAll writes t)) <= maxCachedFiles t
  /\ maxCachedFiles (manageAll writes t) = maxCachedFiles t.
Proof.
  revert t. induction writes as [|[f c] writes IH]; intros t Hmax Hsize; [done|].
  unfold manageAll. simpl. fold (manageAll writes (managePreviousContent f c t)).
  destruct (IH (managePreviousContent f c t)) as [IH1 IH2].
  - by rewrite manage_maxCachedFiles.
  - rewrite manage_maxCachedFiles. by apply manage_bound.
  - by rewrite IH2, manage_maxCachedFiles in *.
Qed.

(** Below capacity, new keys line up behind the ones that are there. *)
Lemma manageAll_fresh writes t :
  NoDup (JsMap.keys (previousContent t) ++ writes.*1) ->
  JsMap.size (previousContent t) + Z.of_nat (length writes) <= maxCachedFiles t ->
  JsMap.keys (previousContent (manageAll writes t))
  = (JsMap.keys (previousContent t) ++ writes.*1)%list.
Proof.
  revert t. induction writes as [|[f c] writes IH]; intros t Hnd Hsize.
  - simpl. by rewrite app_nil_r.
  - unfold manageAll. simpl. fold (manageAll writes (managePreviousContent f c t)).
    simpl in *.
    assert (Hf : f ∉ JsMap.keys (previousContent t)).
    { apply NoDup_app in Hnd as (_ & Hdis & _). intros Hin.
      apply (Hdis f Hin). by left. }
    assert (Hk : JsMap.keys (previousContent (managePreviousContent f c t))
                 = (JsMap.keys (previousContent t) ++ [f])%list).
    { rewrite manage_unfold.
      destruct (Z.geb_spec (JsMap.size (previousContent t)) (maxCachedFiles t)); [lia|].
      by apply JsMap_keys_set_new. }
    rewrite IH.
    + by rewrite Hk, <- app_assoc.
    + by rewrite Hk, <- app_assoc.
    + rewrite manage_maxCachedFiles, JsMap_size_length, Hk, length_app.
      rewrite JsMap_size_length in Hsize. simpl. lia.
Qed.

(** A new key written at capacity takes the place of the oldest one. *)
Lemma manage_evicts t f c :
  JsMap.size (previousContent t) = maxCachedFiles t ->
  f ∉ tail (JsMap.keys (previousContent t)) ->
  JsMap.keys (previousContent (managePreviousContent f c t))
  = (tail (JsMap.keys (previousContent t)) ++ [f])%list.
Proof.
  intros Hsize Hf. rewrite manage_unfold.
  destruct (Z.geb_spec (JsMap.size (previousContent t)) (maxCachedFiles t)); [|lia].
  rewrite JsMap_keys_set_new; by rewrite JsMap_delete_oldest_keys.
Qed.

(** Re-writing a key that is cached, in all the cases there are. *)
Lemma manage_rewrite t f c :
  JsMap.wf (previousContent t) -> f ∈ JsMap.keys (previousContent t) ->
  JsMap.keys (previousContent (managePreviousContent f c t))
  = if JsMap.size (previousContent t) >=? maxCachedFiles t
    then if decide (JsMap.oldest (previousContent t) = Some f)
         then (tail (JsMap.keys (previousContent t)) ++ [f])%list
         else tail (JsMap.keys (previousContent t))
    else JsMap.keys (previousContent t).
Proof.
  intros Hwf Hin. rewrite manage_unfold.
  destruct (_ >=? _); [|by apply JsMap_keys_set_old].
  unfold JsMap.wf, JsMap.oldest in *.
  destruct (JsMap.keys (previousContent t)) as [|k ks] eqn:Hks;
    [by apply elem_of_nil in Hin|].
  apply NoDup_cons in Hwf as [Hk Hnd]. simpl.
  destruct (decide (Some k = Some f)) as [[= ->]|Hne].
  - rewrite JsMap_keys_set_new; by rewrite JsMap_delete_oldest_keys, Hks.
  - apply elem_of_cons in Hin as [->|Hin]; [done|].
    rewrite JsMap_keys_set_old; by rewrite JsMap_delete_oldest_keys, Hks.
Qed.

(** C3, as the specification states it, fails: with room for two files,
    [a] and [b] are cached in that order and [a] is written again; [a] is
    then behind [b] in the order of eviction, and caching [c] evicts [b],
    which was first inserted after [a]. Re-writing the oldest key of a full
    cache does refresh its place. *)
Lemma rewrite_refreshes_oldest_key :
  let options :=
    {| opt_maxCachedFiles := Some 2; opt_retryAttempts := None;
       opt_retryDelay := None |} in
  let full := manageAll [("a", "1"); ("b", "2")] (new options) in
  let rewritten := managePreviousContent "a" "3" full in
  JsMap.keys (previousContent full) = ["a"; "b"]
  /\ JsMap.keys (previousContent rewritten) = ["b"; "a"]
  /\ JsMap.oldest (previousContent rewritten) <> Some "a"
  /\ JsMap.keys (previousContent (managePreviousContent "c" "4" rewritten))
     = ["a"; "c"].
Proof. by vm_compute. Qed.

(** C3, amended. With a capacity of one or more, the cache never holds more
    than [maxCachedFiles] entries, whatever is written to it; the entry
    evicted is the one at the head of the insertion order, so that caching
    [maxCachedFiles + 1] distinct files in an empty cache leaves all but the
    first; re-writing a cached key keeps the order of the keys while the
    cache is below capacity; at capacity the oldest entry is evicted first,
    after which a re-written key that was not the oldest keeps its place,
    and one that was the oldest is inserted anew, behind all others. *)
Theorem cache_eviction_policy t :
  1 <= maxCachedFiles t ->
  JsMap.wf (previousContent t) ->
  JsMap.size (previousContent t) <= maxCachedFiles t ->
  (forall writes,
     JsMap.size (previousContent (manageAll writes t)) <= maxCachedFiles t)
  /\ (forall writes,
        previousContent t = [] -> NoDup writes.*1 ->
        Z.of_nat (length writes) = maxCachedFiles t + 1 ->
        JsMap.keys (previousContent (manageAll writes t)) = tail writes.*1
        /\ (forall first, head writes.*1 = Some first ->
              JsMap.get first (previousContent (manageAll writes t)) = None))
  /\ (forall f c,
        f ∈ JsMap.keys (previousContent t) ->
        JsMap.size (previousContent t) < maxCachedFiles t ->
        JsMap.keys (previousContent (managePreviousContent f c t))
        = JsMap.keys (previousContent t))
  /\ (forall f c,
        f ∈ JsMap.keys (previousContent t) ->
        JsMap.size (previousContent t) = maxCachedFiles t ->
        JsMap.oldest (previousContent t) <> Some f ->
        JsMap.keys (previousContent (managePreviousContent f c t))
        = tail (JsMap.keys (previousContent t)))
  /\ (forall f c,
        JsMap.size (previousContent t) = maxCachedFiles t ->
        JsMap.oldest (previousContent t) = Some f ->
        JsMap.keys (previousContent (managePreviousContent f c t))
        = (tail (JsMap.keys (previousContent t)) ++ [f])%list).
Proof.
  intros Hmax Hwf Hsize. split_and!.
  - intros writes. by apply manageAll_bound.
  - intros writes Hempty Hnd Hlen.
    destruct (exists_last (l := writes)) as (init & [f c] & ->).
    { intros ->. simpl in Hlen. lia. }
    rewrite length_app in Hlen. simpl in Hlen.
    rewrite fmap_app in *. simpl in *.
    assert (Hinit : JsMap.keys (previousContent (manageAll init t)) = init.*1).
    { rewrite manageAll_fresh; rewrite Hempty; simpl.
      - done.
      - by apply NoDup_app in Hnd as (? & _).
      - unfold JsMap.size. simpl. lia. }
    unfold manageAll at 1 2. rewrite foldl_app. simpl.
    fold (manageAll init t).
    assert (Hkeys : JsMap.keys (previousContent
                      (managePreviousContent f c (manageAll init t)))
                    = (tail init.*1 ++ [f])%list).
    { rewrite manage_evicts; rewrite ?Hinit; [done| |].
      - rewrite JsMap_size_length, Hinit, length_fmap.
        destruct (manageAll_bound init t Hmax Hsize) as [_ ->]. lia.
      - apply NoDup_app in Hnd as (_ & Hdis & _). intros Hin.
        apply (Hdis f); [|by left]. destruct (init.*1); [done|by right]. }
    assert (Hne : init <> []) by (intros ->; simpl in *; lia).
    destruct init as [|[f0 c0] init]; [done|]. simpl in *. split; [done|].
    intros first [= <-]. apply JsMap_get_None. rewrite Hkeys.
    apply NoDup_cons in Hnd as [Hf0 _]. done.
  - intros f c Hin Hlt. rewrite manage_rewrite by done.
    destruct (Z.geb_spec (JsMap.size (previousContent t)) (maxCachedFiles t));
      [lia|done].
  - intros f c Hin Heq Hold. rewrite manage_rewrite by done.
    destruct (Z.geb_spec (JsMap.size (previousContent t)) (maxCachedFiles t));
      [|lia].
    by rewrite decide_False.
  - intros f c Heq Hold. rewrite manage_rewrite; [| done |].
    + destruct (Z.geb_spec (JsMap.size (previousContent t)) (maxCachedFiles t));
        [|lia].
      by rewrite decide_True.
    + unfold JsMap.oldest in Hold.
      destruct (JsMap.keys (previousContent t)); [done|].
      injection Hold as ->. by left.
Qed.

(** The cache of a tracker made with a capacity of two, holding two files,
    is an instance. *)
Lemma cache_eviction_policy_witness :
  let options :=
    {| opt_maxCachedFiles := Some 2; opt_retryAttempts := None;
       opt_retryDelay := None |} in
  let t := manageAll [("a", "1"); ("b", "2")] (new options) in
  JsMap.keys (previousContent (managePreviousContent "b" "3" t)) = ["b"]
  /\ JsMap.keys (previousContent (managePreviousContent "a" "3" t)) = ["b"; "a"].
Proof.
  intros options t.
  assert (H1 : 1 <= maxCachedFiles t) by (by vm_compute).
  assert (H2 : JsMap.wf (previousContent t)).
  { unfold JsMap.wf. compute_done. }
  assert (H3 : JsMap.size (previousContent t) <= maxCachedFiles t)
    by (by vm_compute).
  destruct (cache_eviction_policy t H1 H2 H3) as (_ & _ & _ & Hother & Hold).
  split.
  - rewrite Hother; [done | compute_done | done | by vm_compute].
  - by rewrite Hold.
Defined.

(** C10. When the cache is at capacity and a file that is cached is captured
    again, the oldest entry is deleted before the snapshot is written; if
    the captured file is not the oldest one, another file loses its
    baseline and the cache is left one entry below capacity. *)
Theorem capture_at_capacity_evicts t document oldest :
  JsMap.wf (previousContent t) ->
  JsMap.size (previousContent t) = maxCachedFiles t ->
  fileName document ∈ JsMap.keys (previousContent t) ->
  JsMap.oldest (previousContent t) = Some oldest ->
  let t' := (trackCodeChanges document t).2 in
  previousContent t'
  = JsMap.set (fileName document) (getText document)
      (JsMap.delete oldest (previousContent t))
  /\ JsMap.get (fileName document) (previousContent t')
     = Some (getText document)
  /\ (fileName document <> oldest ->
      JsMap.get oldest (previousContent t') = None
      /\ oldest ∈ JsMap.keys (previousContent t)
      /\ JsMap.size (previousContent t') = maxCachedFiles t - 1
      /\ JsMap.size (previousContent t') < maxCachedFiles t').
Proof.
  intros Hwf Hsize Hin Hold t'. subst t'.
  change (trackCodeChanges document t).2
    with (managePreviousContent (fileName document) (getText document) t).
  set (f := fileName document) in *. set (c := getText document).
  assert (Hunf : previousContent (managePreviousContent f c t)
                 = JsMap.set f c (JsMap.delete oldest (previousContent t))).
  { rewrite manage_unfold.
    destruct (Z.geb_spec (JsMap.size (previousContent t)) (maxCachedFiles t));
      [|lia].
    unfold JsMap.delete_oldest. by rewrite Hold. }
  split_and!; [done|by rewrite Hunf, JsMap_get_set_eq|].
  intros Hne.
  assert (Hkeys : JsMap.keys (previousContent (managePreviousContent f c t))
                  = tail (JsMap.keys (previousContent t))).
  { rewrite manage_rewrite by done.
    destruct (Z.geb_spec (JsMap.size (previousContent t)) (maxCachedFiles t));
      [|lia].
    rewrite decide_False; [done|]. rewrite Hold. congruence. }
  unfold JsMap.oldest, JsMap.wf in *.
  rewrite manage_maxCachedFiles, JsMap_get_None, JsMap_size_length, Hkeys.
  rewrite JsMap_size_length in Hsize.
  destruct (JsMap.keys (previousContent t)) as [|k ks]; [done|].
  injection Hold as ->. apply NoDup_cons in Hwf as [Hk _].
  simpl in *. split_and!; [done|by left|lia|lia].
Qed.

(** A full cache of two files, of which the younger is captured again. *)
Lemma capture_at_capacity_evicts_witness :
  let options :=
    {| opt_maxCachedFiles := Some 2; opt_retryAttempts := None;
       opt_retryDelay := None |} in
  let t := manageAll [("a.js", "1"); ("b.js", "2")] (new options) in
  let document :=
    {| fileName := "b.js"; getText := "3"; workspaceFolder := None;
       fsPath := "/w/b.js" |} in
  JsMap.keys (previousContent (trackCodeChanges document t).2) = ["b.js"]
  /\ JsMap.size (previousContent (trackCodeChanges document t).2) = 1.
Proof.
  intros options t document.
  assert (H1 : JsMap.wf (previousContent t)).
  { unfold JsMap.wf. compute_done. }
  assert (H2 : JsMap.size (previousContent t) = maxCachedFiles t)
    by (by vm_compute).
  assert (H3 : fileName document ∈ JsMap.keys (previousContent t))
    by compute_done.
  assert (H4 : JsMap.oldest (previousContent t) = Some "a.js") by done.
  destruct (capture_at_capacity_evicts t document "a.js" H1 H2 H3 H4)
    as (Hcache & _ & Hrest).
  destruct Hrest as (_ & _ & Hsize & _); [done|].
  split; [by rewrite Hcache|by rewrite Hsize].
Defined.

End CacheFacts.

(** ** The periodic supervisor *)

Section SchedulerFacts.
Import Scheduler.

Lemma clearInterval_self id : clearInterval id [id] = [].
Proof. unfold clearInterval. simpl. by rewrite Nat.eqb_refl. Qed.

Lemma boot_consistent : consistent boot.
Proof. unfold consistent. simpl. split_and!; done. Qed.

Lemma stop_stopped h :
  consistent h ->
  isRunning (scheduler (stop h)) = false
  /\ interval (scheduler (stop h)) = None
  /\ armed (stop h) = []
  /\ consistent (stop h).
Proof.
  intros (Hmax & Hcount & Hint). unfold consistent, stop. simpl.
  destruct (interval (scheduler h)) as [id|].
  - destruct Hint as [_ ->]. rewrite clearInterval_self. split_and!; (done || lia).
  - destruct Hint as (_ & -> & _). split_and!; (done || lia).
Qed.

Lemma start_consistent h : consistent h -> consistent (startPeriodicTracking h).
Proof.
  intros Hc. pose proof Hc as (Hmax & Hcount & Hint).
  unfold startPeriodicTracking.
  destruct (isRunning (scheduler h)) eqn:Hrun; [done|].
  unfold consistent. simpl.
  destruct (interval (scheduler h)); [by destruct Hint as [? _]; congruence|].
  destruct Hint as (_ & -> & _). done.
Qed.

Lemma step_elapsed_armed h id saved :
  armed h = [id] ->
  step (Elapsed id saved) h = (Fired (onTick saved h).1, (onTick saved h).2).
Proof.
  intros Ha. simpl. rewrite Ha, bool_decide_eq_true_2 by (by left).
  by destruct (onTick saved h).
Qed.

(** A tick of the armed timer on which the save succeeds. *)
Lemma tick_success h id :
  consistent h -> interval (scheduler h) = Some id ->
  let h' := (step (Elapsed id (Ok tt)) h).2 in
  (step (Elapsed id (Ok tt)) h).1 = Fired (Ok tt)
  /\ isRunning (scheduler h') = true
  /\ retryCount (scheduler h') = 0
  /\ armed h' = [id]
  /\ consistent h'.
Proof.
  intros (Hmax & Hcount & Hint) Hid. rewrite Hid in Hint.
  destruct Hint as [Hrun Harmed].
  rewrite (step_elapsed_armed h id _ Harmed). simpl.
  unfold consistent. simpl. rewrite Hid.
  split_and!; (done || lia).
Qed.

(** A failing tick below the maximum. *)
Lemma tick_failure h id e :
  consistent h -> interval (scheduler h) = Some id ->
  retryCount (scheduler h) + 1 < maxRetries (scheduler h) ->
  let h' := (step (Elapsed id (Throw e)) h).2 in
  (step (Elapsed id (Throw e)) h).1 = Fired (Ok tt)
  /\ isRunning (scheduler h') = true
  /\ retryCount (scheduler h') = retryCount (scheduler h) + 1
  /\ armed h' = [id]
  /\ interval (scheduler h') = Some id
  /\ consistent h'.
Proof.
  intros (Hmax & Hcount & Hint) Hid Hbelow. rewrite Hid in Hint.
  destruct Hint as [Hrun Harmed].
  rewrite (step_elapsed_armed h id _ Harmed). simpl.
  unfold handleError. simpl.
  destruct (Z.geb_spec (retryCount (scheduler h) + 1) (maxRetries (scheduler h)));
    [lia|].
  unfold consistent. simpl. rewrite Hid. split_and!; (done || lia).
Qed.

(** The failing tick with which the count reaches the maximum. *)
Lemma tick_trips h id e :
  consistent h -> interval (scheduler h) = Some id ->
  retryCount (scheduler h) + 1 = maxRetries (scheduler h) ->
  let h' := (step (Elapsed id (Throw e)) h).2 in
  (step (Elapsed id (Throw e)) h).1 = Fired (Throw fatal)
  /\ isRunning (scheduler h') = false
  /\ interval (scheduler h') = None
  /\ armed h' = []
  /\ retryCount (scheduler h') = 0
  /\ consistent h'.
Proof.
  intros (Hmax & Hcount & Hint) Hid Hbelow. rewrite Hid in Hint.
  destruct Hint as [Hrun Harmed].
  rewrite (step_elapsed_armed h id _ Harmed). simpl.
  unfold handleError. simpl.
  destruct (Z.geb_spec (retryCount (scheduler h) + 1) (maxRetries (scheduler h)));
    [|lia].
  unfold consistent, stop. simpl. rewrite Hid, Harmed, clearInterval_self.
  split_and!; (done || lia).
Qed.

Lemma step_consistent e h : consistent h -> consistent (step e h).2.
Proof.
  intros Hc. destruct e as [| |id saved].
  - by apply start_consistent.
  - by apply stop_stopped.
  - pose proof Hc as (Hmax & Hcount & Hint).
    destruct (interval (scheduler h)) as [id'|] eqn:Hid.
    + destruct Hint as [_ Ha].
      destruct (decide (id = id')) as [->|Hne].
      * destruct saved as [[]|e].
        -- by apply tick_success.
        -- destruct (decide (retryCount (scheduler h) + 1
                             < maxRetries (scheduler h))).
           ++ by apply tick_failure.
           ++ apply tick_trips; [done|done|lia].
      * simpl. rewrite Ha, bool_decide_eq_false_2; [done|].
        by intros ?%list_elem_of_singleton.
    + destruct Hint as (_ & Ha & _). simpl.
      by rewrite Ha, bool_decide_eq_false_2 by apply not_elem_of_nil.
Qed.

Lemma run_cons e es h :
  run (e :: es) h = ((step e h).1 :: (run es (step e h).2).1, (run es (step e h).2).2).
Proof. simpl. destruct (step e h), (run es _). done. Qed.

Lemma run_consistent es h : consistent h -> consistent (run es h).2.
Proof.
  revert h. induction es as [|e es IH]; intros h Hc; [done|].
  rewrite run_cons. simpl. apply IH. by apply step_consistent.
Qed.

(** Without a call of [startPeriodicTracking] a stopped scheduler stays
    stopped and no tick fires. *)
Lemma stopped_stays es h :
  consistent h -> isRunning (scheduler h) = false ->
  Forall (fun e => isStart e = false) es ->
  isRunning (scheduler (run es h).2) = false
  /\ armed (run es h).2 = []
  /\ Forall (fun o => isFired o = false) (run es h).1.
Proof.
  revert h. induction es as [|e es IH]; intros h Hc Hrun Hes.
  - simpl. pose proof Hc as (_ & _ & Hint).
    destruct (interval (scheduler h)); [destruct Hint; congruence|].
    by destruct Hint as (_ & -> & _).
  - apply Forall_cons in Hes as [He Hes]. rewrite run_cons. simpl.
    assert (Hstep : isRunning (scheduler (step e h).2) = false
                    /\ isFired (step e h).1 = false).
    { destruct e as [| |id saved]; [done| |]; simpl.
      - done.
      - pose proof Hc as (_ & _ & Hint).
        destruct (interval (scheduler h)); [destruct Hint; congruence|].
        destruct Hint as (_ & -> & _).
        by rewrite bool_decide_eq_false_2 by apply not_elem_of_nil. }
    destruct Hstep as [Hrun' Hfired].
    destruct (IH (step e h).2) as (? & ? & ?);
      [by apply step_consistent|done|done|].
    split_and!; [done|done|by constructor].
Qed.

(** Three failing ticks in a row, counted from zero, stop the scheduler, and
    whatever timer elapses next runs nothing. *)
Lemma three_failures h id e1 e2 e3 id' saved :
  consistent h -> interval (scheduler h) = Some id ->
  retryCount (scheduler h) = 0 ->
  let r := run [Elapsed id (Throw e1); Elapsed id (Throw e2);
                Elapsed id (Throw e3); Elapsed id' saved] h in
  r.1 = [Fired (Ok tt); Fired (Ok tt); Fired (Throw fatal); NotFired]
  /\ isRunning (scheduler r.2) = false
  /\ interval (scheduler r.2) = None
  /\ armed r.2 = [].
Proof.
  intros Hc Hid Hzero. pose proof Hc as (Hmax & _).
  destruct (tick_failure h id e1 Hc Hid ltac:(lia))
    as (Ho1 & _ & Hn1 & _ & Hid1 & Hc1).
  set (h1 := (step (Elapsed id (Throw e1)) h).2) in *.
  pose proof Hc1 as (Hmax1 & _).
  destruct (tick_failure h1 id e2 Hc1 Hid1 ltac:(lia))
    as (Ho2 & _ & Hn2 & _ & Hid2 & Hc2).
  set (h2 := (step (Elapsed id (Throw e2)) h1).2) in *.
  pose proof Hc2 as (Hmax2 & _).
  destruct (tick_trips h2 id e3 Hc2 Hid2 ltac:(lia))
    as (Ho3 & Hrun3 & Hid3 & Ha3 & _ & Hc3).
  set (h3 := (step (Elapsed id (Throw e3)) h2).2) in *.
  assert (Hlast : step (Elapsed id' saved) h3 = (NotFired, h3)).
  { simpl. by rewrite Ha3, bool_decide_eq_false_2 by apply not_elem_of_nil. }
  intros r. subst r. rewrite !run_cons. fold h1. fold h2. fold h3.
  rewrite Ho1, Ho2, Ho3, Hlast. simpl. done.
Qed.

(** C4. In every state the scheduler can get into from its construction:
    a call of [startPeriodicTracking] on a stopped scheduler makes it
    running, with its timer armed; a tick that succeeds keeps it running
    and sets the count of failures to zero; a tick that fails adds one to
    the count and, when the count reaches [maxRetries], which is 3, clears
    the timer, leaves the scheduler stopped and throws the fatal error; so
    after three failing ticks in a row no fourth tick fires; and a stopped
    scheduler stays stopped, without any tick firing, as long as
    [startPeriodicTracking] is not called. *)
Theorem supervisor_circuit_breaker (es : list Event) :
  let h := (run es boot).2 in
  let s := scheduler h in
  maxRetries s = 3
  /\ 0 <= retryCount s < maxRetries s
  /\ (isRunning s = false ->
      let h' := startPeriodicTracking h in
      isRunning (scheduler h') = true
      /\ interval (scheduler h') = Some (nextId h)
      /\ armed h' = [nextId h])
  /\ (isRunning s = true ->
      exists id,
        interval s = Some id /\ armed h = [id]
        /\ (let r := step (Elapsed id (Ok tt)) h in
            r.1 = Fired (Ok tt)
            /\ isRunning (scheduler r.2) = true
            /\ retryCount (scheduler r.2) = 0
            /\ armed r.2 = [id])
        /\ (forall e, retryCount s + 1 < maxRetries s ->
            let r := step (Elapsed id (Throw e)) h in
            r.1 = Fired (Ok tt)
            /\ isRunning (scheduler r.2) = true
            /\ retryCount (scheduler r.2) = retryCount s + 1
            /\ armed r.2 = [id])
        /\ (forall e, retryCount s + 1 = maxRetries s ->
            let r := step (Elapsed id (Throw e)) h in
            r.1 = Fired (Throw fatal)
            /\ isRunning (scheduler r.2) = false
            /\ interval (scheduler r.2) = None
            /\ armed r.2 = [])
        /\ (forall e1 e2 e3 id' saved, retryCount s = 0 ->
            let r := run [Elapsed id (Throw e1); Elapsed id (Throw e2);
                          Elapsed id (Throw e3); Elapsed id' saved] h in
            r.1 = [Fired (Ok tt); Fired (Ok tt); Fired (Throw fatal); NotFired]
            /\ isRunning (scheduler r.2) = false
            /\ armed r.2 = []))
  /\ (isRunning s = false ->
      forall es', Forall (fun e => isStart e = false) es' ->
        isRunning (scheduler (run es' h).2) = false
        /\ armed (run es' h).2 = []
        /\ Forall (fun o => isFired o = false) (run es' h).1)
  /\ (forall e1 e2 e3 saved,
        let r := run [Start; Elapsed 1%nat (Throw e1); Elapsed 1%nat (Throw e2);
                      Elapsed 1%nat (Throw e3); Elapsed 1%nat saved] boot in
        r.1 = [Called; Fired (Ok tt); Fired (Ok tt); Fired (Throw fatal);
               NotFired]
        /\ isRunning (scheduler r.2) = false).
Proof.
  intros h s.
  assert (Hc : consistent h) by apply run_consistent, boot_consistent.
  pose proof Hc as (Hmax & Hcount & Hint). fold s in Hmax, Hcount, Hint.
  split_and!; [done|lia|lia| | | |].
  - intros Hrun. cbv zeta. unfold startPeriodicTracking.
    fold s. rewrite Hrun. simpl.
    destruct (interval s); [destruct Hint; congruence|].
    by destruct Hint as (_ & -> & _).
  - intros Hrun. destruct (interval s) as [id|] eqn:Hid;
      [|destruct Hint; congruence].
    destruct Hint as [_ Ha]. exists id. split_and!; try done.
    + destruct (tick_success h id Hc Hid) as (? & ? & ? & ? & _). done.
    + intros e Hlt.
      destruct (tick_failure h id e Hc Hid Hlt) as (? & ? & ? & ? & _). done.
    + intros e Heq.
      destruct (tick_trips h id e Hc Hid Heq) as (? & ? & ? & ? & _). done.
    + intros e1 e2 e3 id' saved Hzero.
      destruct (three_failures h id e1 e2 e3 id' saved Hc Hid Hzero)
        as (? & ? & ? & ?). done.
  - intros Hrun es' Hes. by apply stopped_stays.
  - intros e1 e2 e3 saved. rewrite run_cons.
    change (step Start boot).1 with Called.
    set (h1 := (step Start boot).2).
    assert (Hc1 : consistent h1) by apply step_consistent, boot_consistent.
    destruct (three_failures h1 1%nat e1 e2 e3 1%nat saved Hc1 eq_refl eq_refl)
      as (Hr & ? & _).
    fold h1 in Hr |- *. cbv zeta in Hr. rewrite Hr. done.
Qed.

End SchedulerFacts.

(** ** The retry loop of a capture *)

Section RetryFacts.
Import ActivityTracker.
Context {G : Type}.
Variable logActivity : ActivityLog -> G -> result unit * G.
Variable now : Z -> string.
Variable document : Document.

Lemma trackCodeChanges_settings t :
  retryAttempts (trackCodeChanges document t).2 = retryAttempts t
  /\ retryDelay (trackCodeChanges document t).2 = retryDelay t
  /\ isTracking (trackCodeChanges document t).2 = isTracking t
  /\ maxCachedFiles (trackCodeChanges document t).2 = maxCachedFiles t.
Proof. done. Qed.

(** One round of the loop that is entered. *)
Lemma retry_loop_round fuel attempt t g :
  attempt < retryAttempts t ->
  let t1 := (trackCodeChanges document t).2 in
  let a := buildActivityLog now document (trackCodeChanges document t).1
             attempt in
  retry_loop logActivity now (S fuel) document attempt t g
  = match logActivity a g with
    | (Ok _, g1) => (t1, g1, [LogActivity a None])
    | (Throw e, g1) =>
        let rest := retry_loop logActivity now fuel document (attempt + 1) t1 g1 in
        (rest.1.1, rest.1.2,
         LogActivity a (Some e)
         :: (if decide (attempt + 1 = retryAttempts t)
             then [ShowErrorMessage (retryAttempts t) e; ConsoleError e]
             else [Timeout (retryDelay t * (attempt + 1))]) ++ rest.2)
    end.
Proof.
  intros Hlt. simpl.
  destruct (Z.ltb_spec attempt (retryAttempts t)); [|lia].
  destruct (logActivity _ g) as [[[]|e] g1]; [done|].
  destruct (retry_loop _ _ fuel _ _ _ g1) as [[t2 g2] effects].
  simpl. by destruct (decide (attempt + 1 = retryAttempts t)).
Qed.

Lemma retry_loop_done fuel attempt t g :
  retryAttempts t <= attempt ->
  retry_loop logActivity now fuel document attempt t g = (t, g, []).
Proof.
  intros Hge. destruct fuel; [done|]. simpl.
  by destruct (Z.ltb_spec attempt (retryAttempts t)); [lia|].
Qed.

(** What a run of the loop from a given attempt leaves. *)
Lemma retry_loop_spec fuel attempt t g :
  0 <= attempt -> retryAttempts t - attempt <= Z.of_nat fuel ->
  let r := retry_loop logActivity now fuel document attempt t g in
  retryAttempts r.1.1 = retryAttempts t
  /\ retryDelay r.1.1 = retryDelay t
  /\ isTracking r.1.1 = isTracking t
  /\ maxCachedFiles r.1.1 = maxCachedFiles t
  /\ threads logActivity r.2 g r.1.2
  /\ ((retryAttempts t <= attempt /\ r = (t, g, []))
      \/ (exists failures a,
            attempt + Z.of_nat (length failures) < retryAttempts t
            /\ r.2 = (backoff (retryDelay t) (attempt + 1) failures
                      ++ [LogActivity a None])%list)
      \/ (exists failures a e,
            attempt + Z.of_nat (length failures) + 1 = retryAttempts t
            /\ r.2 = (backoff (retryDelay t) (attempt + 1) failures
                      ++ [LogActivity a (Some e);
                          ShowErrorMessage (retryAttempts t) e;
                          ConsoleError e])%list)).
Proof.
  revert attempt t g. induction fuel as [|fuel IH]; intros attempt t g Hpos Hfuel.
  { simpl. split_and!; try done; [constructor|]. left. split; [lia|done]. }
  destruct (decide (retryAttempts t <= attempt)) as [Hge|Hlt].
  { rewrite retry_loop_done by done. simpl.
    split_and!; try done; [constructor|]. by left. }
  rewrite retry_loop_round by lia.
  set (a := buildActivityLog _ _ _ _).
  destruct (trackCodeChanges_settings t) as (Hn & Hd & Htr & Hmx).
  set (t1 := (trackCodeChanges document t).2) in *.
  destruct (logActivity a g) as [[[]|e] g1] eqn:Hcall.
  { simpl. split_and!; try done.
    - econstructor; [done|constructor].
    - right. left. exists [], a. simpl. split; [lia|done]. }
  specialize (IH (attempt + 1) t1 g1 ltac:(lia) ltac:(rewrite Hn; lia)).
  cbv zeta in IH. destruct IH as (IHn & IHd & IHtr & IHmx & IHth & IHshape).
  rewrite Hn, Hd in *.
  set (rest := retry_loop logActivity now fuel document (attempt + 1) t1 g1) in *.
  simpl. split_and!; try done.
  - econstructor; [done|].
    destruct (decide (attempt + 1 = retryAttempts t));
      simpl; repeat (apply threads_other; [done|]); done.
  - right. destruct (decide (attempt + 1 = retryAttempts t)) as [Heq|Hne].
    + right. exists [], a, e. simpl.
      destruct IHshape as [[_ ->]|[(fs & ? & ? & _)|(fs & ? & ? & ? & _)]];
        [|lia|lia].
      split; [lia|done].
    + destruct IHshape as [[? _]|[(fs & a' & Hlen & ->)|(fs & a' & e' & Hlen & ->)]];
        [lia| |].
      * left. exists ((a, e) :: fs), a'. simpl. split; [lia|done].
      * right. exists ((a, e) :: fs), a', e'. simpl. split; [lia|done].
Qed.

(** The fuel of the loop does not matter once it covers the attempts that
    are left. *)
Lemma retry_loop_fuel fuel fuel' attempt t g :
  retryAttempts t - attempt <= Z.of_nat fuel ->
  retryAttempts t - attempt <= Z.of_nat fuel' ->
  retry_loop logActivity now fuel document attempt t g
  = retry_loop logActivity now fuel' document attempt t g.
Proof.
  revert fuel' attempt t g.
  induction fuel as [|fuel IH]; intros fuel' attempt t g H1 H2.
  { rewrite !retry_loop_done by lia. done. }
  destruct (decide (retryAttempts t <= attempt)) as [Hge|Hlt].
  { by rewrite !retry_loop_done by done. }
  destruct fuel' as [|fuel']; [lia|].
  rewrite !retry_loop_round by lia.
  destruct (logActivity _ g) as [[[]|e] g1]; [done|].
  rewrite (IH fuel'); [done| |];
    destruct (trackCodeChanges_settings t) as (-> & _); lia.
Qed.

Lemma backoff_counts delay k failures :
  List.filter isNotification (backoff delay k failures) = []
  /\ List.filter isAccepted (backoff delay k failures) = []
  /\ length (List.filter isAttempt (backoff delay k failures)) = length failures.
Proof.
  revert k. induction failures as [|[a e] failures IH]; intros k; [done|].
  simpl. destruct (IH (k + 1)) as (-> & -> & ->). done.
Qed.

(** When every listed call was rejected and a rejected call leaves the
    state behind the git manager as it was, that state has not changed. *)
Lemma threads_all_rejected effects g g' :
  threads logActivity effects g g' ->
  List.filter isAccepted effects = [] ->
  (forall a g0 e g1, logActivity a g0 = (Throw e, g1) -> g1 = g0) ->
  g' = g.
Proof.
  intros Hth Hnone Hpure.
  induction Hth as [g|a g g1 g' effects Hcall _ _
                    |a e g g1 g' effects Hcall _ IH
                    |x g g' effects Hx _ IH]; simpl in Hnone.
  - done.
  - done.
  - rewrite IH by done. by eapply Hpure.
  - apply IH. destruct x as [? []| | |]; done.
Qed.

(** The effects of a capture. While tracking is on and [retryAttempts] is
    positive (the default is 3, the default delay 1000), a capture makes at
    most [retryAttempts] tries. Either one of them succeeds: the tries before it failed, the
    failure numbered [k] was followed by a wait of [retryDelay * k], there
    is no notification and exactly one record was accepted. Or all
    [retryAttempts] tries fail: all but the last are followed by their wait,
    the last by the one notification, no record was accepted, and the
    capture ends there. The state behind the git manager changes through
    the tries only, so that nothing is kept of the record when a failed try
    keeps nothing; the tracker itself keeps its settings. While tracking is
    off a capture does nothing. *)
Lemma logFileActivity_effects t g :
  isTracking t = true -> 0 < retryAttempts t ->
  let r := logFileActivity logActivity now document t g in
  let effects := r.2 in
  Z.of_nat (length (List.filter isAttempt effects)) <= retryAttempts t
  /\ threads logActivity effects g r.1.2
  /\ (retryAttempts r.1.1 = retryAttempts t
      /\ retryDelay r.1.1 = retryDelay t
      /\ isTracking r.1.1 = true)
  /\ ((exists failures a,
         Z.of_nat (length failures) < retryAttempts t
         /\ effects = (backoff (retryDelay t) 1 failures
                       ++ [LogActivity a None])%list
         /\ List.filter isNotification effects = []
         /\ List.filter isAccepted effects = [LogActivity a None])
      \/ (exists failures a e,
            Z.of_nat (length failures) + 1 = retryAttempts t
            /\ effects = (backoff (retryDelay t) 1 failures
                          ++ [LogActivity a (Some e);
                              ShowErrorMessage (retryAttempts t) e;
                              ConsoleError e])%list
            /\ List.filter isNotification effects
               = [ShowErrorMessage (retryAttempts t) e]
            /\ List.filter isAccepted effects = []
            /\ Z.of_nat (length (List.filter isAttempt effects))
               = retryAttempts t
            /\ ((forall a0 g0 e0 g1,
                   logActivity a0 g0 = (Throw e0, g1) -> g1 = g0) ->
                r.1.2 = g)))
  /\ (retryAttempts (new noOptions) = 3 /\ retryDelay (new noOptions) = 1000)
  /\ logFileActivity logActivity now document (stop t) g = (stop t, g, []).
Proof.
  intros Htr Hpos r effects. subst effects r. unfold logFileActivity.
  rewrite Htr. simpl negb. cbv iota.
  destruct (retry_loop_spec (Z.to_nat (retryAttempts t)) 0 t g ltac:(lia)
              ltac:(lia)) as (Hn & Hd & Hon & _ & Hth & Hshape).
  set (r := retry_loop _ _ _ _ _ _ _) in *.
  assert (Hcases :
    (exists failures a,
       Z.of_nat (length failures) < retryAttempts t
       /\ r.2 = (backoff (retryDelay t) 1 failures ++ [LogActivity a None])%list)
    \/ (exists failures a e,
          Z.of_nat (length failures) + 1 = retryAttempts t
          /\ r.2 = (backoff (retryDelay t) 1 failures
                    ++ [LogActivity a (Some e);
                        ShowErrorMessage (retryAttempts t) e;
                        ConsoleError e])%list)).
  { destruct Hshape as [[? _]|[(fs & a & ? & ?)|(fs & a & e & ? & ?)]]; [lia| |].
    - left. exists fs, a. split; [lia|done].
    - right. exists fs, a, e. split; [lia|done]. }
  clear Hshape.
  assert (Hcount : forall fs tl,
    r.2 = (backoff (retryDelay t) 1 fs ++ tl)%list ->
    List.filter isNotification r.2 = List.filter isNotification tl
    /\ List.filter isAccepted r.2 = List.filter isAccepted tl
    /\ length (List.filter isAttempt r.2)
       = (length fs + length (List.filter isAttempt tl))%nat).
  { intros fs tl ->. rewrite !List.filter_app, length_app.
    by destruct (backoff_counts (retryDelay t) 1 fs) as (-> & -> & ->). }
  split_and!; try done; [|by rewrite Hon, <- Htr|].
  - destruct Hcases as [(fs & a & Hlen & Heff)|(fs & a & e & Hlen & Heff)];
      destruct (Hcount _ _ Heff) as (_ & _ & ->); simpl; lia.
  - destruct Hcases as [(fs & a & Hlen & Heff)|(fs & a & e & Hlen & Heff)];
      destruct (Hcount _ _ Heff) as (Hnot & Hacc & Hatt).
    + left. exists fs, a. by split_and!.
    + right. exists fs, a, e. split_and!; try done.
      * rewrite Hatt. simpl. lia.
      * intros Hpure. by eapply threads_all_rejected.
Qed.

End RetryFacts.

Section RetryExamples.
Import ActivityTracker.

(** The submission fails on the first two tries and succeeds on the third:
    two waits, of 1000 and 2000, no notification, one record accepted. *)
Example retry_succeeds_on_third_try :
  let t := start (new noOptions) in
  let r := logFileActivity (flaky 2) Trial.clock Trial.document t (0%nat, []) in
  List.filter (fun x => negb (isAttempt x)) r.2 = [Timeout 1000; Timeout 2000]
  /\ length (List.filter isAttempt r.2) = 3%nat
  /\ List.filter isNotification r.2 = []
  /\ length r.1.2.2 = 1%nat.
Proof. by vm_compute. Qed.

(** The submission always fails: three tries, two waits, one notification,
    and no record anywhere. *)
Example retry_exhausted :
  let t := start (new noOptions) in
  let r := logFileActivity (flaky 9) Trial.clock Trial.document t (0%nat, []) in
  List.filter (fun x => negb (isAttempt x)) r.2
  = [Timeout 1000; Timeout 2000;
     ShowErrorMessage 3 (plainError "offline");
     ConsoleError (plainError "offline")]
  /\ length (List.filter isAttempt r.2) = 3%nat
  /\ r.1.2 = (3%nat, []).
Proof. by vm_compute. Qed.

(** Every try takes the changes anew, and the first try has put the text
    into the cache: the record that is accepted on the third try compares
    the text with itself and lists no function, where the record of the
    first try listed [a]. *)
Example retried_record_has_no_changes :
  let t := start (new noOptions) in
  let r := logFileActivity (flaky 2) Trial.clock Trial.document t (0%nat, []) in
  (added ∘ log_functions ∘ changes <$> r.1.2.2) = [[]]
  /\ (head r.2
      = Some (LogActivity Trial.record1 (Some (plainError "offline"))))
  /\ added (log_functions (changes Trial.record1)) = ["a"].
Proof. by vm_compute. Qed.

End RetryExamples.

(** ** The remote store and its client *)

Ltac unfold_M :=
  unfold mbind, M_bind, mret, M_ret, try_catch, throw, modify, gets in *.

Section RemoteFacts.
Import GithubAPI.
Context {platform : Platform}.

Lemma repos_get_run repo api :
  repos_get repo api
  = (served_get repo api,
     after (Exchange (ReposGet repo)
              (as_answer (fun _ => Success) (served_get repo api))) api).
Proof.
  unfold repos_get, exchange, transport, record, served_get, after. unfold_M.
  destruct api as [u r f sc tr]. simpl.
  destruct sc as [|[|code] rest]; simpl; try done;
    destruct (bool_decide (repo ∈ r)); done.
Qed.

Lemma repos_getContent_run repo path api :
  repos_getContent repo path api
  = (served_content repo path api,
     after (Exchange (ReposGetContent repo path)
              (as_answer Data (served_content repo path api))) api).
Proof.
  unfold repos_getContent, exchange, transport, record, served_content, after.
  unfold_M. destruct api as [u r f sc tr]. simpl.
  destruct sc as [|[|code] rest]; simpl; try done;
    destruct (bool_decide (repo ∈ r)); try done;
    simpl; destruct (f !! (repo, path)); done.
Qed.

Lemma repos_write_run repo path message content sha api :
  repos_createOrUpdateFileContents repo path message content sha api
  = let r := served_write repo path sha api in
    let api' :=
      after (Exchange (CreateOrUpdateFileContents repo path message content sha)
               (as_answer (fun _ => Success) r)) api in
    (r, match r with
        | Ok _ =>
            with_files (<[(repo, path) := File content (blob_sha content)]>
                          (files api)) api'
        | Throw _ => api'
        end).
Proof.
  unfold repos_createOrUpdateFileContents, exchange, transport, record,
    served_write, after.
  unfold_M. destruct api as [u r f sc tr]. simpl.
  destruct sc as [|[|code] rest]; simpl; try done;
    destruct (bool_decide (repo ∈ r)); try done;
    simpl; destruct (f !! (repo, path)) as [[c s|]|]; destruct sha as [g|];
    try done; simpl; destruct (decide (g = s)); done.
Qed.

Lemma checkRepoExists_run repo api :
  checkRepoExists repo api
  = (match served_get repo api with
     | Ok _ => Ok true
     | Throw e => if decide (status e = Some 404) then Ok false else Throw e
     end,
     after (Exchange (ReposGet repo)
              (as_answer (fun _ => Success) (served_get repo api))) api).
Proof.
  unfold checkRepoExists. unfold_M. rewrite repos_get_run.
  destruct (served_get repo api) as [[]|e]; [done|].
  by destruct (decide (status e = Some 404)).
Qed.

Lemma getFileContent_run repo path api :
  getFileContent repo path api
  = (match served_content repo path api with
     | Ok (File content _) => Ok (Some content)
     | Ok Directory =>
         Throw (plainError "Path points to a directory, not a file")
     | Throw e => if decide (status e = Some 404) then Ok None else Throw e
     end,
     after (Exchange (ReposGetContent repo path)
              (as_answer Data (served_content repo path api))) api).
Proof.
  unfold getFileContent. unfold_M. rewrite repos_getContent_run.
  destruct (served_content repo path api) as [[c s|]|e]; [done|done|].
  by destruct (decide (status e = Some 404)).
Qed.

(** [updateFile], request by request. *)
Lemma updateFile_run repo path content message api :
  updateFile repo path content message api
  = let r1 := served_get repo api in
    let api1 :=
      after (Exchange (ReposGet repo) (as_answer (fun _ => Success) r1)) api in
    match r1 with
    | Throw e =>
        if decide (status e = Some 404)
        then failed_update
               (plainError ("Repository " +:+ repo +:+ " does not exist")) api1
        else failed_update e api1
    | Ok _ =>
        let r2 := served_content repo path api1 in
        let api2 :=
          after (Exchange (ReposGetContent repo path) (as_answer Data r2)) api1 in
        let write sha :=
          let r3 := served_write repo path sha api2 in
          let api3 :=
            after (Exchange
                     (CreateOrUpdateFileContents repo path message content sha)
                     (as_answer (fun _ => Success) r3)) api2 in
          match r3 with
          | Ok _ =>
              (Ok tt,
               with_files (<[(repo, path) := File content (blob_sha content)]>
                             (files api2)) api3)
          | Throw e => failed_update e api3
          end in
        match r2 with
        | Ok e => write (token (Some e))
        | Throw e =>
            if decide (status e = Some 404) then write None
            else failed_update e api2
        end
    end.
Proof.
  unfold updateFile, failed_update, record. unfold_M.
  rewrite checkRepoExists_run.
  destruct (served_get repo api) as [[]|e1]; simpl.
  - rewrite repos_getContent_run.
    set (api1 := after _ api).
    destruct (served_content repo path api1) as [[c s|]|e2]; simpl.
    + rewrite repos_write_run. simpl.
      by destruct (served_write _ _ _ _) as [[]|].
    + rewrite repos_write_run. simpl.
      by destruct (served_write _ _ _ _) as [[]|].
    + destruct (decide (status e2 = Some 404)); simpl; [|done].
      rewrite repos_write_run. simpl.
      by destruct (served_write _ _ _ _) as [[]|].
  - by destruct (decide (status e1 = Some 404)).
Qed.

Lemma served_content_Ok repo path api e :
  served_content repo path api = Ok e ->
  files api !! (repo, path) = Some e /\ repo ∈ repos api.
Proof.
  unfold served_content. intros Hs.
  assert (Hcore : (if bool_decide (repo ∈ repos api)
                   then match files api !! (repo, path) with
                        | Some e => Ok e
                        | None => Throw (httpError 404)
                        end
                   else Throw (httpError 404)) = Ok e).
  { by destruct (script api) as [|[|code] rest]. }
  destruct (bool_decide (repo ∈ repos api)) eqn:Hk; [|done].
  apply bool_decide_eq_true in Hk.
  destruct (files api !! (repo, path)); by simplify_eq.
Qed.

Lemma served_write_Ok repo path sha api :
  served_write repo path sha api = Ok tt ->
  sha = token (files api !! (repo, path))
  /\ files api !! (repo, path) <> Some Directory
  /\ repo ∈ repos api.
Proof.
  unfold served_write. intros Hs.
  assert (Hcore : (if bool_decide (repo ∈ repos api)
                   then match files api !! (repo, path), sha with
                        | None, None => Ok tt
                        | Some (File _ current), Some given =>
                            if decide (given = current) then Ok tt
                            else Throw (httpError 409)
                        | _, _ => Throw (httpError 422)
                        end
                   else Throw (httpError 404)) = Ok tt).
  { by destruct (script api) as [|[|code] rest]. }
  destruct (bool_decide (repo ∈ repos api)) eqn:Hk; [|done].
  apply bool_decide_eq_true in Hk.
  destruct (files api !! (repo, path)) as [[c s|]|]; destruct sha as [g|];
    try done.
  simpl. by destruct (decide (g = s)) as [->|].
Qed.

Lemma served_content_Throw_404 repo path api e :
  served_content repo path api = Throw e -> files api !! (repo, path) = None
  \/ (exists code, e = httpError code).
Proof.
  unfold served_content. intros Hs.
  destruct (script api) as [|[|code] rest]; [| |right; exists code; congruence];
    (destruct (bool_decide (repo ∈ repos api));
     [|right; exists 404; congruence];
     destruct (files api !! (repo, path)); [done|by left]).
Qed.

(** What [updateFile] does to the client and the store: nothing to the user
    and the repositories; the file is replaced when the call returns, and
    the store is as it was when it throws. *)
Lemma updateFile_store repo path content message api :
  let r := updateFile repo path content message api in
  username r.2 = username api
  /\ repos r.2 = repos api
  /\ files r.2 = match r.1 with
                 | Ok _ => <[(repo, path) := File content (blob_sha content)]>
                             (files api)
                 | Throw _ => files api
                 end.
Proof.
  rewrite updateFile_run. cbv zeta.
  destruct (served_get repo api) as [[]|e1].
  - destruct (served_content _ _ _) as [e|e2].
    + by destruct (served_write _ _ _ _) as [[]|e3].
    + destruct (decide (status e2 = Some 404)); [|done].
      by destruct (served_write _ _ _ _) as [[]|e3].
  - by destruct (decide (status e1 = Some 404)).
Qed.

(** The third request of [updateFile] and what follows it. *)
Lemma updateFile_write_events repo path content message api api2 sha read :
  files api2 = files api ->
  trace api2 = (trace api ++ [Exchange (ReposGet repo) Success;
                              Exchange (ReposGetContent repo path) read])%list ->
  answered_token read = sha ->
  (forall e, read = Data e -> files api !! (repo, path) = Some e) ->
  (files api !! (repo, path) = None -> sha = None) ->
  let r := match served_write repo path sha api2 with
           | Ok _ =>
               (Ok tt,
                with_files
                  (<[(repo, path) := File content (blob_sha content)]>
                     (files api2))
                  (after (Exchange
                            (CreateOrUpdateFileContents repo path message
                               content sha)
                            (as_answer (fun _ => Success)
                               (served_write repo path sha api2))) api2))
           | Throw e =>
               failed_update e
                 (after (Exchange
                           (CreateOrUpdateFileContents repo path message
                              content sha)
                           (as_answer (fun _ => Success)
                              (served_write repo path sha api2))) api2)
           end in
  exists events,
    trace r.2 = (trace api ++ events)%list
    /\ (length (List.filter isWrite events) <= 1)%nat
    /\ Forall (fun e => isWrite e = isWriteTo repo path e) events
    /\ writes_pass_read_token (files api) events.
Proof.
  intros Hfiles Htrace Htok Hdata Hnone r. subst r.
  destruct (served_write repo path sha api2) as [[]|e3] eqn:H3.
  - exists [Exchange (ReposGet repo) Success;
            Exchange (ReposGetContent repo path) read;
            Exchange (CreateOrUpdateFileContents repo path message content sha)
              Success].
    simpl. rewrite Htrace, <- app_assoc. simpl.
    split_and!; [done|lia| |].
    { repeat constructor. simpl. by rewrite !bool_decide_eq_true_2. }
    intros i r' p' m' c' s' a' Hi.
    destruct i as [|[|[|i]]]; simplify_eq/=.
    exists 1%nat, read. split_and!; try done.
    intros _. apply served_write_Ok in H3 as [? _]. congruence.
  - exists [Exchange (ReposGet repo) Success;
            Exchange (ReposGetContent repo path) read;
            Exchange (CreateOrUpdateFileContents repo path message content sha)
              (Refused e3);
            Logged e3].
    simpl. rewrite Htrace, <- !app_assoc. simpl.
    split_and!; [done|lia| |].
    { repeat constructor. simpl. by rewrite !bool_decide_eq_true_2. }
    intros i r' p' m' c' s' a' Hi.
    destruct i as [|[|[|[|i]]]]; simplify_eq/=.
    exists 1%nat, read. split_and!; done.
Qed.

(** The events of [updateFile]: at most one write, and that write carries
    the token of the read that precedes it. *)
Lemma updateFile_events repo path content message api :
  let r := updateFile repo path content message api in
  exists events,
    trace r.2 = (trace api ++ events)%list
    /\ (length (List.filter isWrite events) <= 1)%nat
    /\ Forall (fun e => isWrite e = isWriteTo repo path e) events
    /\ writes_pass_read_token (files api) events.
Proof.
  rewrite updateFile_run. cbv zeta.
  destruct (served_get repo api) as [[]|e1] eqn:H1.
  - destruct (served_content repo path _) as [e|e2] eqn:H2.
    + apply (updateFile_write_events _ _ _ _ api _ _ (Data e)); try done.
      * simpl. by rewrite <- app_assoc.
      * intros e' [= <-]. by apply served_content_Ok in H2 as [? _].
      * intros Hnone. apply served_content_Ok in H2 as [H2 _].
        simpl in H2. congruence.
    + destruct (decide (status e2 = Some 404)).
      * apply (updateFile_write_events _ _ _ _ api _ _ (Refused e2));
          try done. simpl. by rewrite <- app_assoc.
      * exists [Exchange (ReposGet repo) Success;
                Exchange (ReposGetContent repo path) (Refused e2);
                Logged e2].
        simpl. rewrite <- !app_assoc. simpl.
        split_and!; [done|lia|by repeat constructor|].
        intros i r' p' m' c' s' a' Hi.
        destruct i as [|[|[|i]]]; simplify_eq/=.
  - assert (Hno : forall e,
      exists events,
        trace (failed_update e
                 (after (Exchange (ReposGet repo) (Refused e1)) api)).2
        = (trace api ++ events)%list
        /\ (length (List.filter isWrite events) <= 1)%nat
        /\ Forall (fun e => isWrite e = isWriteTo repo path e) events
        /\ writes_pass_read_token (files api) events).
    { intros e. exists [Exchange (ReposGet repo) (Refused e1); Logged e].
      simpl. rewrite <- !app_assoc. simpl.
      split_and!; [done|lia|by repeat constructor|].
      intros i r' p' m' c' s' a' Hi.
      destruct i as [|[|i]]; simplify_eq/=. }
    destruct (decide (status e1 = Some 404)); apply Hno.
Qed.

(** Events that are no writes, before and after, leave the property of the
    writes as it is. *)
Lemma writes_pass_read_token_frame stored before events behind :
  Forall (fun e => isWrite e = false) before ->
  Forall (fun e => isWrite e = false) behind ->
  writes_pass_read_token stored events ->
  writes_pass_read_token stored (before ++ events ++ behind).
Proof.
  intros Hbefore Hbehind Hev i repo path message content sha answer Hi.
  destruct (decide (i < length before)%nat) as [Hlt|Hge].
  { rewrite lookup_app_l in Hi by done.
    eapply Forall_lookup_1 in Hbefore; [|done]. by simpl in Hbefore. }
  rewrite lookup_app_r in Hi by lia.
  destruct (decide (i - length before < length events)%nat) as [Hin|Hout].
  - rewrite lookup_app_l in Hi by done.
    destruct (Hev _ _ _ _ _ _ _ Hi) as (j & read & Hij & Hj & ? & ? & ? & ?).
    exists (length before + j)%nat, read. split_and!; [lia| |done..].
    rewrite lookup_app_r by lia. rewrite lookup_app_l by lia.
    by replace (length before + j - length before)%nat with j by lia.
  - rewrite lookup_app_r in Hi by lia.
    eapply Forall_lookup_1 in Hbehind; [|done]. by simpl in Hbehind.
Qed.

Lemma filter_isWrite_frame before events behind :
  Forall (fun e => isWrite e = false) before ->
  Forall (fun e => isWrite e = false) behind ->
  List.filter isWrite (before ++ events ++ behind) = List.filter isWrite events.
Proof.
  intros Hbefore Hbehind.
  assert (Hnone : forall l, Forall (fun e => isWrite e = false) l ->
                            List.filter isWrite l = []).
  { induction 1 as [|x l Hx _ IH]; simpl; [done|]. by rewrite Hx. }
  rewrite !List.filter_app, (Hnone before), (Hnone behind) by done.
  simpl. by rewrite app_nil_r.
Qed.

Lemma call_run {A} (m : M GithubAPI A) gm :
  GitManager.call m gm
  = ((m (GitManager.githubApi gm)).1,
     GitManager.with_githubApi (m (GitManager.githubApi gm)).2 gm).
Proof. unfold GitManager.call. by destruct (m _). Qed.

(** [ensureProfileReadme], step by step. *)
Lemma ensureProfileReadme_run updatedContent gm :
  GitManager.ensureProfileReadme updatedContent gm
  = let api := GitManager.githubApi gm in
    let user := username api in
    let read := served_content user "README.md" api in
    let api1 :=
      after (Exchange (ReposGetContent user "README.md") (as_answer Data read))
        api in
    let logged e api' :=
      (Throw e,
       GitManager.with_githubApi (with_trace (trace api' ++ [Logged e]) api')
         gm) in
    let update :=
      let r := updateFile user "README.md" updatedContent
                 "Update profile README with visualizations" api1 in
      match r.1 with
      | Ok _ => (Ok tt, GitManager.with_githubApi r.2 gm)
      | Throw e => logged e r.2
      end in
    match read with
    | Ok (File content _) =>
        if negb (bool_decide (content = ""))
           && bool_decide (content = updatedContent)
        then (Ok tt, GitManager.with_githubApi api1 gm)
        else update
    | Ok Directory =>
        logged (plainError "Path points to a directory, not a file") api1
    | Throw e =>
        if decide (status e = Some 404) then update else logged e api1
    end.
Proof.
  unfold GitManager.ensureProfileReadme, record. unfold_M. simpl.
  rewrite call_run, getFileContent_run. simpl.
  set (api := GitManager.githubApi gm).
  assert (Hupdate : forall api1,
    (let (r, s') :=
       GitManager.call
         (updateFile (username api) "README.md" updatedContent
            "Update profile README with visualizations")
         (GitManager.with_githubApi api1 gm) in
     match r with
     | Ok a => (Ok a, s')
     | Throw e0 =>
         (Throw e0,
          GitManager.with_githubApi
            (with_trace (trace (GitManager.githubApi s') ++ [Logged e0])
               (GitManager.githubApi s')) s')
     end)
    = match (updateFile (username api) "README.md" updatedContent
               "Update profile README with visualizations" api1).1 with
      | Ok _ =>
          (Ok tt,
           GitManager.with_githubApi
             (updateFile (username api) "README.md" updatedContent
                "Update profile README with visualizations" api1).2 gm)
      | Throw e =>
          (Throw e,
           GitManager.with_githubApi
             (with_trace
                (trace (updateFile (username api) "README.md" updatedContent
                          "Update profile README with visualizations" api1).2
                 ++ [Logged e])
                (updateFile (username api) "README.md" updatedContent
                   "Update profile README with visualizations" api1).2) gm)
      end).
  { intros api1. rewrite call_run. simpl.
    by destruct (updateFile _ _ _ _ api1) as [[[]|e] api2]. }
  destruct (served_content (username api) "README.md" api) as [[c sh|]|e];
    simpl.
  - destruct (negb (bool_decide (c = "")) && bool_decide (c = updatedContent));
      simpl; [done|]. apply Hupdate.
  - done.
  - destruct (decide (status e = Some 404)); simpl; [apply Hupdate|done].
Qed.

(** The events of [ensureProfileReadme]: the read of the profile page, then
    those of [updateFile] when the page is to be written. *)
Lemma ensureProfileReadme_events updatedContent gm :
  let r := GitManager.ensureProfileReadme updatedContent gm in
  exists events,
    trace (GitManager.githubApi r.2)
    = (trace (GitManager.githubApi gm) ++ events)%list
    /\ (length (List.filter isWrite events) <= 1)%nat
    /\ writes_pass_read_token (files (GitManager.githubApi gm)) events.
Proof.
  rewrite ensureProfileReadme_run. cbv zeta.
  set (api := GitManager.githubApi gm).
  set (user := username api).
  set (read := Exchange (ReposGetContent user "README.md") _).
  assert (Hread : Forall (fun e => isWrite e = false) [read])
    by (by constructor).
  assert (Hnone : forall behind,
    Forall (fun e => isWrite e = false) behind ->
    exists events,
      (trace api ++ [read] ++ behind)%list = (trace api ++ events)%list
      /\ (length (List.filter isWrite events) <= 1)%nat
      /\ writes_pass_read_token (files api) events).
  { intros behind Hbehind. exists ([read] ++ [] ++ behind)%list.
    rewrite filter_isWrite_frame by done.
    split_and!; [done|simpl; lia|].
    apply writes_pass_read_token_frame; [done|done|].
    intros i ? ? ? ? ? ? Hi. by rewrite lookup_nil in Hi. }
  assert (Hupdate :
    let r := updateFile user "README.md" updatedContent
               "Update profile README with visualizations" (after read api) in
    exists events,
      trace (GitManager.githubApi
               match r.1 with
               | Ok _ => (Ok tt, GitManager.with_githubApi r.2 gm)
               | Throw e =>
                   (Throw e,
                    GitManager.with_githubApi
                      (with_trace (trace r.2 ++ [Logged e]) r.2) gm)
               end.2)
      = (trace api ++ events)%list
      /\ (length (List.filter isWrite events) <= 1)%nat
      /\ writes_pass_read_token (files api) events).
  { cbv zeta.
    destruct (updateFile_events user "README.md" updatedContent
                "Update profile README with visualizations" (after read api))
      as (events & Htrace & Hone & _ & Htok).
    destruct (updateFile _ _ _ _ _) as [[[]|e] api'] eqn:Hup;
      cbn [fst snd] in *.
    - exists ([read] ++ events ++ [])%list.
      rewrite filter_isWrite_frame by done.
      split_and!; [|done|by apply writes_pass_read_token_frame].
      cbn. rewrite Htrace. cbn. by rewrite app_nil_r, <- app_assoc.
    - exists ([read] ++ events ++ [Logged e])%list.
      rewrite filter_isWrite_frame by (done || by constructor).
      split_and!;
        [|done|apply writes_pass_read_token_frame; (done || by constructor)].
      cbn. rewrite Htrace. cbn. by rewrite <- !app_assoc. }
  cbv zeta in Hupdate.
  destruct (served_content user "README.md" api) as [[c sh|]|e].
  - destruct (negb (bool_decide (c = "")) && bool_decide (c = updatedContent)).
    + destruct (Hnone []) as (events & Heq & ? & ?); [done|].
      exists events. split_and!; [|done|done].
      cbn. cbn in Heq. by rewrite <- Heq.
    + apply Hupdate.
  - destruct (Hnone [Logged (plainError "Path points to a directory, not a file")])
      as (events & Heq & ? & ?); [by constructor|].
    exists events. split_and!; [|done|done].
    cbn. cbn in Heq. by rewrite <- Heq, <- app_assoc.
  - destruct (decide (status e = Some 404)); [apply Hupdate|].
    destruct (Hnone [Logged e]) as (events & Heq & ? & ?); [by constructor|].
    exists events. split_and!; [|done|done].
    cbn. cbn in Heq. by rewrite <- Heq, <- app_assoc.
Qed.

(** C8. A write is only ever sent by [updateFile], which reads the path
    first: the write carries the token the read gave, which is the one of
    the stored file when there is a file (an update) and none when the path
    is free (a creation); a write the store accepts carried the token of
    what was stored. [updateFile] sends one write at most, and so does
    [ensureProfileReadme], whose writes are those of its call of
    [updateFile]. *)
Theorem writes_carry_the_read_token repo path content message api
    updatedContent gm :
  (let r := updateFile repo path content message api in
   exists events,
     trace r.2 = (trace api ++ events)%list
     /\ (length (List.filter isWrite events) <= 1)%nat
     /\ Forall (fun e => isWrite e = isWriteTo repo path e) events
     /\ writes_pass_read_token (files api) events)
  /\ (let r := GitManager.ensureProfileReadme updatedContent gm in
      exists events,
        trace (GitManager.githubApi r.2)
        = (trace (GitManager.githubApi gm) ++ events)%list
        /\ (length (List.filter isWrite events) <= 1)%nat
        /\ writes_pass_read_token (files (GitManager.githubApi gm)) events).
Proof.
  split; [apply updateFile_events|apply ensureProfileReadme_events].
Qed.

End RemoteFacts.

(** ** The flush of the activity queue *)

Section FlushFacts.
Import GithubAPI GitManager.
Context {platform : Platform}.

Lemma readLogs_run file gm :
  readLogs file gm
  = (Ok (logs_seen (githubApi gm) file),
     with_githubApi (read_log file (githubApi gm)) gm).
Proof.
  unfold readLogs, logs_seen, read_log. unfold_M.
  rewrite call_run, getFileContent_run. simpl.
  destruct (served_content REPO_NAME file (githubApi gm)) as [[c s|]|e];
    simpl; [|done|by destruct (decide (status e = Some 404))].
  destruct (decide (c = "")); [done|]. by destruct (JSON_parse c).
Qed.

Lemma collectUpdates_cons project activities rest updates gm :
  collectUpdates ((project, activities) :: rest) updates gm
  = if decide (length activities = 0%nat) then collectUpdates rest updates gm
    else
      let gm1 := with_githubApi (read_log (logFile project) (githubApi gm)) gm in
      match logs_seen (githubApi gm) (logFile project) with
      | JArray items =>
          collectUpdates rest
            (updates ++ [update_for project items activities])
            (with_activityQueue (JsMap.set project [] (activityQueue gm1)) gm1)
      | logs => (Throw (pushError logs), gm1)
      end.
Proof.
  simpl. destruct (decide (length activities = 0%nat)); [done|].
  unfold_M. rewrite readLogs_run.
  by destruct (logs_seen (githubApi gm) (logFile project)).
Qed.

(** The first loop, when it completes: the updates it collects and the
    state it leaves. *)
Lemma collectUpdates_planned entries updates gm us :
  planned (githubApi gm) entries = Some us ->
  collectUpdates entries updates gm
  = (Ok (updates ++ us)%list,
     with_activityQueue (cleared entries (activityQueue gm))
       (with_githubApi (reads (githubApi gm) entries) gm)).
Proof.
  revert updates gm us.
  induction entries as [|[project activities] rest IH]; intros updates gm us.
  - intros [= <-]. rewrite app_nil_r. by destruct gm.
  - rewrite collectUpdates_cons. simpl.
    destruct (decide (length activities = 0%nat)); [apply IH|].
    destruct (logs_seen (githubApi gm) (logFile project)) as [| | | |items|];
      try done.
    destruct (planned _ rest) as [us'|] eqn:Hrest; [|done].
    intros [= <-]. rewrite (IH _ _ us') by done.
    by rewrite <- app_assoc.
Qed.

(** The first loop throws exactly when some log it reads is JSON but not an
    array. *)
Lemma collectUpdates_result entries updates gm :
  match planned (githubApi gm) entries with
  | Some us => (collectUpdates entries updates gm).1 = Ok (updates ++ us)%list
  | None =>
      exists logs,
        isArray logs = false
        /\ (collectUpdates entries updates gm).1 = Throw (pushError logs)
  end.
Proof.
  revert updates gm.
  induction entries as [|[project activities] rest IH]; intros updates gm.
  - simpl. by rewrite app_nil_r.
  - rewrite collectUpdates_cons. simpl.
    destruct (decide (length activities = 0%nat)); [apply IH|].
    destruct (logs_seen (githubApi gm) (logFile project)) as [| | | |items|]
      eqn:Hseen; try (first [by exists JNull|by exists (JObject [])]).
    specialize (IH (updates ++ [update_for project items activities])%list
                  (with_activityQueue
                     (JsMap.set project []
                        (activityQueue
                           (with_githubApi
                              (read_log (logFile project) (githubApi gm)) gm)))
                     (with_githubApi
                        (read_log (logFile project) (githubApi gm)) gm))).
    simpl in IH.
    destruct (planned _ rest) as [us'|]; [|done].
    simpl. by rewrite IH, <- app_assoc.
Qed.

Lemma pending_cons project activities rest :
  pending ((project, activities) :: rest)
  = if decide (length activities = 0%nat) then pending rest
    else S (pending rest).
Proof.
  unfold pending. simpl.
  destruct (decide (length activities = 0%nat)) as [Heq|Hne].
  - by rewrite bool_decide_eq_true_2.
  - by rewrite bool_decide_eq_false_2.
Qed.

Lemma delivers_S n api :
  delivers (S n) api ->
  (forall code rest, script api <> Failed code :: rest)
  /\ forall e, delivers n (after e api).
Proof.
  unfold delivers. simpl. destruct (script api) as [|t rest]; simpl.
  - intros _. split; [done|]. intros _. by rewrite take_nil.
  - intros [-> Hrest]%Forall_cons. split; [done|]. by intros _.
Qed.

Lemma reliable_delivers n api : reliable api -> delivers n api.
Proof.
  unfold reliable, delivers. apply Forall_take.
Qed.

Lemma reliable_after e api : reliable api -> reliable (after e api).
Proof.
  unfold reliable. simpl. destruct (script api); simpl; [done|].
  by intros [_ ?]%Forall_cons.
Qed.

Lemma reads_store api entries :
  files (reads api entries) = files api
  /\ repos (reads api entries) = repos api
  /\ username (reads api entries) = username api
  /\ script (reads api entries) = drop (pending entries) (script api)
  /\ exists events,
       trace (reads api entries) = (trace api ++ events)%list
       /\ Forall (fun e => isWrite e = false) events.
Proof.
  revert api. induction entries as [|[project activities] rest IH]; intros api.
  - simpl. split_and!; try done. exists []. by rewrite app_nil_r.
  - simpl. rewrite pending_cons.
    destruct (decide (length activities = 0%nat)); [apply IH|].
    destruct (IH (read_log (logFile project) api))
      as (-> & -> & -> & -> & events & -> & Hev).
    split_and!; try done.
    + unfold read_log. simpl.
      destruct (script api); simpl; [by rewrite drop_nil|done].
    + eexists (_ :: events). unfold read_log. simpl. rewrite <- app_assoc.
      split; [done|]. by constructor.
Qed.

Lemma logs_seen_delivered api file :
  (forall code rest, script api <> Failed code :: rest) ->
  REPO_NAME ∈ repos api ->
  extendable (files api !! (REPO_NAME, file)) ->
  logs_seen api file = JArray (stored_items (files api !! (REPO_NAME, file))).
Proof.
  intros Hscript Hrepo Hext. unfold logs_seen, served_content.
  assert (Hserved :
    match script api with
    | Failed code :: _ => Throw (httpError code)
    | _ =>
        if bool_decide (REPO_NAME ∈ repos api)
        then match files api !! (REPO_NAME, file) with
             | Some e => Ok e
             | None => Throw (httpError 404)
             end
        else Throw (httpError 404)
    end
    = match files api !! (REPO_NAME, file) with
      | Some e => Ok e
      | None => Throw (httpError 404)
      end).
  { rewrite bool_decide_eq_true_2 by done.
    destruct (script api) as [|[|code] rest] eqn:Hs; try done.
    by destruct (Hscript code rest). }
  rewrite Hserved. clear Hserved.
  destruct (files api !! (REPO_NAME, file)) as [[c s|]|]; simpl in *;
    [|done|done].
  destruct (decide (c = "")); [done|].
  destruct Hext as [?|Hext]; [done|].
  by destruct (JSON_parse c) as [[]|].
Qed.

Lemma logs_seen_failed api file code rest :
  script api = Failed code :: rest -> logs_seen api file = JArray [].
Proof. intros Hs. unfold logs_seen, served_content. by rewrite Hs. Qed.

Lemma logs_seen_items api file :
  REPO_NAME ∈ repos api ->
  match script api with
  | Failed _ :: _ => True
  | _ => extendable (files api !! (REPO_NAME, file))
  end ->
  logs_seen api file
  = JArray (items_seen (script api) (files api !! (REPO_NAME, file))).
Proof.
  intros Hrepo Hext. unfold items_seen.
  destruct (script api) as [|[|code] rest] eqn:Hs.
  - apply logs_seen_delivered; [by rewrite Hs|done|done].
  - apply logs_seen_delivered; [by rewrite Hs|done|done].
  - by eapply logs_seen_failed.
Qed.

(** When every log that the first loop gets to read can be extended, the
    loop collects one update for each project with something to flush: the
    records it took for the stored ones, followed by the buffer. *)
Lemma planned_expected api entries :
  REPO_NAME ∈ repos api ->
  readable (script api) (files api) entries ->
  planned api entries = Some (expected (script api) (files api) entries).
Proof.
  revert api. induction entries as [|[project activities] rest IH];
    intros api Hrepo Hread; [done|].
  simpl in *.
  destruct (decide (length activities = 0%nat)) as [Hzero|Hsome];
    [by apply IH|].
  destruct Hread as [Hext Hread].
  rewrite logs_seen_items by done.
  by rewrite (IH (read_log (logFile project) api)).
Qed.

Lemma reliable_head api code rest :
  reliable api -> script api <> Failed code :: rest.
Proof. unfold reliable. intros Hrel Hs. rewrite Hs in Hrel. by inversion Hrel. Qed.

(** With a transport that delivers, [updateFile] succeeds on a path that
    holds a file or nothing. *)
Lemma updateFile_reliable repo path content message api :
  reliable api -> repo ∈ repos api ->
  files api !! (repo, path) <> Some Directory ->
  let r := updateFile repo path content message api in
  r.1 = Ok tt /\ reliable r.2.
Proof.
  intros Hrel Hrepo Hfile. rewrite updateFile_run. cbv zeta.
  assert (Hget : served_get repo api = Ok tt).
  { unfold served_get. rewrite bool_decide_eq_true_2 by done.
    destruct (script api) as [|[|code] rest] eqn:Hs; try done.
    by destruct (reliable_head api code rest). }
  rewrite Hget. simpl as_answer.
  set (api1 := after _ api).
  assert (Hrel1 : reliable api1) by by apply reliable_after.
  assert (Hcontent : served_content repo path api1
                     = match files api !! (repo, path) with
                       | Some e => Ok e
                       | None => Throw (httpError 404)
                       end).
  { unfold served_content. rewrite bool_decide_eq_true_2 by done.
    destruct (script api1) as [|[|code] rest] eqn:Hs; try done.
    by destruct (reliable_head api1 code rest). }
  rewrite Hcontent. clear Hcontent.
  assert (Hwrite : forall read, let api2 := after read api1 in
    served_write repo path (token (files api !! (repo, path))) api2 = Ok tt
    /\ reliable api2).
  { intros read api2.
    assert (Hrel2 : reliable api2) by by apply reliable_after.
    split; [|done]. unfold served_write.
    rewrite bool_decide_eq_true_2 by done.
    change (files api2) with (files api).
    destruct (script api2) as [|[|code] rest] eqn:Hs;
      try (by destruct (reliable_head api2 code rest));
      (destruct (files api !! (repo, path)) as [[c s|]|]; simpl;
       [by rewrite decide_True|done|done]). }
  destruct (files api !! (repo, path)) as [e|] eqn:Hlook; cbn [as_answer].
  - destruct (Hwrite (Exchange (ReposGetContent repo path) (Data e)))
      as [Hw Hrel2].
    rewrite Hw. split; [done|]. by apply reliable_after.
  - rewrite decide_True by done.
    destruct (Hwrite (Exchange (ReposGetContent repo path)
                        (Refused (httpError 404)))) as [Hw Hrel2].
    cbn [token] in Hw. rewrite Hw. split; [done|]. by apply reliable_after.
Qed.

Lemma executeUpdates_cons u rest gm :
  executeUpdates (u :: rest) gm
  = let r := updateFile REPO_NAME (update_file u) (update_content u)
               (update_message u) (githubApi gm) in
    match r.1 with
    | Ok _ =>
        executeUpdates rest
          (with_githubApi (with_trace (trace r.2 ++ [Slept 1000]) r.2) gm)
    | Throw e => (Throw e, with_githubApi r.2 gm)
    end.
Proof.
  cbn [executeUpdates]. unfold record. unfold_M. rewrite call_run.
  destruct (updateFile _ _ _ _ _) as [[[]|e] api']; [|done].
  cbn [fst snd]. by rewrite call_run.
Qed.

Lemma written_app done rest stored :
  written (done ++ rest) stored = written rest (written done stored).
Proof. unfold written. by rewrite foldl_app. Qed.

Lemma written_other updates stored path :
  path ∉ update_file <$> updates ->
  written updates stored !! (REPO_NAME, path) = stored !! (REPO_NAME, path).
Proof.
  revert stored. induction updates as [|u us IH]; intros stored Hnot; [done|].
  simpl in Hnot. apply not_elem_of_cons in Hnot as [Hne Hnot].
  change (written (u :: us) stored)
    with (written us (<[(REPO_NAME, update_file u)
                        := File (update_content u)
                             (blob_sha (update_content u))]> stored)).
  rewrite IH by done. rewrite lookup_insert_ne; [done|]. congruence.
Qed.

Lemma written_one updates stored u :
  u ∈ updates -> NoDup (update_file <$> updates) ->
  written updates stored !! (REPO_NAME, update_file u)
  = Some (File (update_content u) (blob_sha (update_content u))).
Proof.
  revert stored. induction updates as [|u' us IH]; intros stored Hin Hnd.
  { by apply elem_of_nil in Hin. }
  simpl in Hnd. apply NoDup_cons in Hnd as [Hfresh Hnd].
  change (written (u' :: us) stored)
    with (written us (<[(REPO_NAME, update_file u')
                        := File (update_content u')
                             (blob_sha (update_content u'))]> stored)).
  apply elem_of_cons in Hin as [->|Hin].
  - rewrite written_other by done. by rewrite lookup_insert_eq.
  - by apply IH.
Qed.

Lemma written_not_directory updates stored path :
  stored !! (REPO_NAME, path) <> Some Directory ->
  written updates stored !! (REPO_NAME, path) <> Some Directory.
Proof.
  revert stored. induction updates as [|u us IH]; intros stored Hnot; [done|].
  change (written (u :: us) stored)
    with (written us (<[(REPO_NAME, update_file u)
                        := File (update_content u)
                             (blob_sha (update_content u))]> stored)).
  apply IH. destruct (decide (update_file u = path)) as [->|Hne].
  - by rewrite lookup_insert_eq.
  - rewrite lookup_insert_ne; [done|]. congruence.
Qed.

(** With a transport that delivers, the second loop makes every write. *)
Lemma executeUpdates_reliable updates gm :
  reliable (githubApi gm) -> REPO_NAME ∈ repos (githubApi gm) ->
  (forall u, u ∈ updates ->
     files (githubApi gm) !! (REPO_NAME, update_file u) <> Some Directory) ->
  let r := executeUpdates updates gm in
  r.1 = Ok tt
  /\ files (githubApi r.2) = written updates (files (githubApi gm))
  /\ activityQueue r.2 = activityQueue gm
  /\ reliable (githubApi r.2).
Proof.
  revert gm. induction updates as [|u us IH]; intros gm Hrel Hrepo Hfiles.
  { by simpl. }
  rewrite executeUpdates_cons. cbv zeta.
  destruct (updateFile_reliable REPO_NAME (update_file u) (update_content u)
              (update_message u) (githubApi gm) Hrel Hrepo)
    as [Hok Hrel']; [apply Hfiles; by left|].
  destruct (updateFile_store REPO_NAME (update_file u) (update_content u)
              (update_message u) (githubApi gm)) as (_ & Hrepos & Hstore).
  rewrite Hok in Hstore |- *.
  set (r := updateFile _ _ _ _ _) in *.
  set (gm1 := with_githubApi _ gm).
  destruct (IH gm1) as (IH1 & IH2 & IH3 & IH4).
  - done.
  - simpl. by rewrite Hrepos.
  - intros u' Hu'. simpl. rewrite Hstore.
    destruct (decide (update_file u = update_file u')) as [Heq|Hne].
    + by rewrite Heq, lookup_insert_eq.
    + rewrite lookup_insert_ne by congruence. apply Hfiles. by right.
  - split_and!; try done. rewrite IH2. simpl. by rewrite Hstore.
Qed.

Lemma writes_to_own_path repo path events :
  Forall (fun e => isWrite e = isWriteTo repo path e) events ->
  List.filter isWrite events = List.filter (isWriteTo repo path) events.
Proof.
  induction 1 as [|e events He _ IH]; [done|]. simpl. by rewrite He, IH.
Qed.

Lemma writes_to_other_path repo path path' events :
  Forall (fun e => isWrite e = isWriteTo repo path e) events ->
  path <> path' ->
  List.filter (isWriteTo repo path') events = [].
Proof.
  intros Hto Hne. induction Hto as [|e events He _ IH]; [done|].
  simpl. rewrite IH.
  assert (Hfalse : isWriteTo repo path' e = false); [|by rewrite Hfalse].
  destruct e as [[| |r p m c s] a| |]; try done. simpl in *.
  destruct (bool_decide (r = repo)); [|done]. simpl in *.
  symmetry in He. apply bool_decide_eq_true in He as ->.
  by apply bool_decide_eq_false.
Qed.

(** The second loop, whatever the transport does: it writes the updates in
    order up to the first failure and stops there; it never touches the
    queue; it sends no more writes to a path than there are updates of that
    path. *)
Lemma executeUpdates_any updates gm :
  let r := executeUpdates updates gm in
  activityQueue r.2 = activityQueue gm
  /\ isProcessingQueue r.2 = isProcessingQueue gm
  /\ queueProcessInterval r.2 = queueProcessInterval gm
  /\ (exists done rest,
        updates = (done ++ rest)%list
        /\ files (githubApi r.2) = written done (files (githubApi gm))
        /\ match r.1 with Ok _ => rest = [] | Throw _ => rest <> [] end)
  /\ (exists events,
        trace (githubApi r.2) = (trace (githubApi gm) ++ events)%list
        /\ forall path,
             (length (List.filter (isWriteTo REPO_NAME path) events)
              <= length (List.filter
                           (fun u => bool_decide (update_file u = path))
                           updates))%nat).
Proof.
  revert gm. induction updates as [|u us IH]; intros gm.
  { simpl. split_and!; try done.
    - by exists [], [].
    - exists []. rewrite app_nil_r. split; [done|]. intros path. simpl. lia. }
  rewrite executeUpdates_cons. cbv zeta.
  destruct (updateFile_store REPO_NAME (update_file u) (update_content u)
              (update_message u) (githubApi gm)) as (_ & _ & Hstore).
  destruct (updateFile_events REPO_NAME (update_file u) (update_content u)
              (update_message u) (githubApi gm))
    as (evs & Htrace & Hone & Hto & _).
  assert (Hcount : forall path,
    (length (List.filter (isWriteTo REPO_NAME path) evs)
     <= if bool_decide (update_file u = path) then 1 else 0)%nat).
  { intros path. case_bool_decide as Hp.
    - subst path. by rewrite <- (writes_to_own_path _ _ _ Hto).
    - by rewrite (writes_to_other_path _ _ _ _ Hto). }
  set (r := updateFile _ _ _ _ _) in *.
  destruct (r.1) as [[]|e] eqn:Hr.
  - set (gm1 := with_githubApi _ gm).
    destruct (IH gm1) as (IH1 & IH2 & IH3 & (done & rest & -> & IH4 & IH5)
                          & (events & IH6 & IH7)).
    split_and!; try done.
    + exists (u :: done), rest. split_and!; [done| |done].
      rewrite IH4. simpl. by rewrite Hstore.
    + exists (evs ++ Slept 1000 :: events)%list. split.
      * rewrite IH6. simpl. rewrite Htrace. by rewrite <- !app_assoc.
      * intros path. rewrite List.filter_app, length_app. simpl.
        specialize (Hcount path). specialize (IH7 path).
        destruct (bool_decide (update_file u = path)); simpl; lia.
  - simpl. split_and!; try done.
    + exists [], (u :: us). by split_and!.
    + exists evs. split; [done|]. intros path. specialize (Hcount path).
      simpl. destruct (bool_decide (update_file u = path)); simpl; lia.
Qed.

(** The flush, loop by loop. *)
Lemma processActivityQueue_run gm :
  processActivityQueue gm
  = if isProcessingQueue gm || (JsMap.size (activityQueue gm) =? 0)
    then (Ok tt, gm)
    else
      let r1 := collectUpdates (activityQueue gm) []
                  (with_isProcessingQueue true gm) in
      match r1.1 with
      | Ok updates =>
          let r2 := executeUpdates updates r1.2 in
          (Ok tt,
           with_isProcessingQueue false
             match r2.1 with
             | Ok _ => r2.2
             | Throw e => logged e r2.2
             end)
      | Throw e => (Ok tt, with_isProcessingQueue false (logged e r1.2))
      end.
Proof.
  unfold processActivityQueue, logged, record, call. unfold_M.
  destruct (isProcessingQueue gm || _); [done|]. simpl.
  destruct (collectUpdates _ _ _) as [[updates|e] gm1]; simpl; [|done].
  by destruct (executeUpdates updates gm1) as [[[]|e] gm2].
Qed.

Lemma string_length_app (s1 s2 : string) :
  String.length (s1 +:+ s2) = (String.length s1 + String.length s2)%nat.
Proof. induction s1 as [|a s1 IH]; simpl; [done|]. by rewrite IH. Qed.

Lemma string_app_inj_suffix (s1 s2 suffix : string) :
  s1 +:+ suffix = s2 +:+ suffix -> s1 = s2.
Proof.
  revert s2. induction s1 as [|a s1 IH]; intros [|b s2] Heq; simpl in *.
  - done.
  - apply (f_equal String.length) in Heq.
    rewrite ?string_length_app in Heq. simpl in Heq.
    rewrite ?string_length_app in Heq. lia.
  - apply (f_equal String.length) in Heq.
    rewrite ?string_length_app in Heq. simpl in Heq.
    rewrite ?string_length_app in Heq. lia.
  - injection Heq as -> Heq. f_equal. by apply IH.
Qed.

(** Projects have log files of their own. *)
Lemma logFile_inj p q : logFile p = logFile q -> p = q.
Proof.
  unfold logFile. intros Heq. apply String.app_inj in Heq.
  by apply string_app_inj_suffix in Heq.
Qed.

Lemma JsMap_get_elem_of {V} (m : JsMap.t V) k v :
  JsMap.wf m -> JsMap.get k m = Some v <-> (k, v) ∈ m.
Proof.
  unfold JsMap.wf. induction m as [|[k' v'] m IH]; simpl; intros Hwf.
  - split; [done|]. by intros ?%elem_of_nil.
  - apply NoDup_cons in Hwf as [Hfresh Hwf].
    destruct (decide (k = k')) as [->|Hne].
    + split.
      * intros [= ->]. by left.
      * intros [[= ->]|Hin]%elem_of_cons; [done|].
        destruct Hfresh. apply list_elem_of_fmap. by exists (k', v).
    + rewrite IH by done. split; [by right|].
      intros [[= -> ->]|Hin]%elem_of_cons; done.
Qed.

Lemma cleared_keeps_empty entries queue p :
  JsMap.get p queue = Some [] -> JsMap.get p (cleared entries queue) = Some [].
Proof.
  revert queue. induction entries as [|[q acts] rest IH]; intros queue Hget;
    [done|]. simpl.
  destruct (decide (length acts = 0%nat)); [by apply IH|].
  apply IH. destruct (decide (q = p)) as [->|Hne].
  - by rewrite JsMap_get_set_eq.
  - by rewrite JsMap_get_set_ne.
Qed.

(** After the first loop every buffer that held something is empty. *)
Lemma cleared_pending entries queue p acts :
  (p, acts) ∈ entries -> acts <> [] ->
  JsMap.get p (cleared entries queue) = Some [].
Proof.
  revert queue. induction entries as [|[q acts'] rest IH]; intros queue Hin Hne.
  { by apply elem_of_nil in Hin. }
  simpl. apply elem_of_cons in Hin as [[= <- <-]|Hin].
  - destruct (decide (length acts = 0%nat)) as [Hzero|_].
    { by destruct acts. }
    apply cleared_keeps_empty. by rewrite JsMap_get_set_eq.
  - destruct (decide (length acts' = 0%nat)); by apply IH.
Qed.

Lemma expected_files sc stored entries :
  update_file <$> expected sc stored entries
  = logFile <$> (List.filter (fun e => negb (bool_decide (length e.2 = 0%nat)))
                   entries).*1.
Proof.
  revert sc. induction entries as [|[q acts] rest IH]; intros sc; [done|].
  simpl. destruct (decide (length acts = 0%nat)) as [Hzero|Hsome].
  - rewrite bool_decide_eq_true_2 by done. apply IH.
  - rewrite bool_decide_eq_false_2 by done. simpl. f_equal. apply IH.
Qed.

Lemma expected_NoDup sc stored entries :
  NoDup entries.*1 -> NoDup (update_file <$> expected sc stored entries).
Proof.
  intros Hnd. rewrite expected_files.
  assert (Hinj : Inj (=) (=) logFile) by (intros ? ?; apply logFile_inj).
  apply (NoDup_fmap_2 logFile).
  induction entries as [|e rest IH]; simpl in *; [done|].
  apply NoDup_cons in Hnd as [Hfresh Hnd].
  destruct (negb _); [|by apply IH].
  simpl. apply NoDup_cons. split; [|by apply IH].
  intros Hin. apply Hfresh.
  apply list_elem_of_fmap in Hin as (e' & -> & Hin).
  apply list_elem_of_fmap. exists e'. split; [done|].
  apply list_elem_of_In, filter_In in Hin as [Hin _].
  by apply list_elem_of_In.
Qed.

(** The update of a project whose read is delivered holds the stored
    records followed by the buffer. *)
Lemma expected_delivered sc stored entries p acts :
  Forall (fun t => t = Delivered) sc ->
  (p, acts) ∈ entries -> acts <> [] ->
  update_for p (stored_items (stored !! (REPO_NAME, logFile p))) acts
  ∈ expected sc stored entries.
Proof.
  revert sc. induction entries as [|[q acts'] rest IH]; intros sc Hsc Hin Hne.
  { by apply elem_of_nil in Hin. }
  simpl. apply elem_of_cons in Hin as [[= <- <-]|Hin].
  - destruct (decide (length acts = 0%nat)); [by destruct acts|].
    replace (items_seen sc (stored !! (REPO_NAME, logFile p)))
      with (stored_items (stored !! (REPO_NAME, logFile p))); [by left|].
    unfold items_seen. by destruct Hsc as [|? ? ->].
  - destruct (decide (length acts' = 0%nat)); [by apply IH|].
    right. apply IH; [|done|done]. destruct Hsc; [done|]. done.
Qed.

(** The update of a project whose read fails holds the buffer alone. *)
Lemma expected_failed stored before p acts behind code rest :
  acts <> [] ->
  update_for p [] acts
  ∈ expected (replicate (pending before) Delivered ++ Failed code :: rest)
      stored (before ++ (p, acts) :: behind).
Proof.
  intros Hne. induction before as [|[q acts'] before IH]; simpl.
  - destruct (decide (length acts = 0%nat)); [by destruct acts|]. by left.
  - rewrite pending_cons.
    destruct (decide (length acts' = 0%nat)); [done|]. by right.
Qed.

Lemma expected_inv sc stored entries u :
  u ∈ expected sc stored entries ->
  exists p acts, (p, acts) ∈ entries /\ acts <> []
                 /\ update_file u = logFile p.
Proof.
  revert sc. induction entries as [|[q acts] rest IH]; intros sc Hin.
  { by apply elem_of_nil in Hin. }
  simpl in Hin. destruct (decide (length acts = 0%nat)) as [Hzero|Hsome].
  - destruct (IH _ Hin) as (p & acts0 & ? & ? & ?).
    exists p, acts0. split_and!; [by right|done|done].
  - apply elem_of_cons in Hin as [->|Hin].
    + exists q, acts. split_and!; [by left|by intros ->|done].
    + destruct (IH _ Hin) as (p & acts0 & ? & ? & ?).
      exists p, acts0. split_and!; [by right|done|done].
Qed.

Lemma readable_delivered sc stored entries :
  Forall (fun t => t = Delivered) sc ->
  (forall q acts, (q, acts) ∈ entries -> acts <> [] ->
                  extendable (stored !! (REPO_NAME, logFile q))) ->
  readable sc stored entries.
Proof.
  revert sc. induction entries as [|[q acts] rest IH]; intros sc Hsc Hext;
    [done|].
  simpl. destruct (decide (length acts = 0%nat)) as [Hzero|Hsome].
  - apply IH; [done|]. intros q' acts' Hin. apply Hext. by right.
  - split.
    + assert (Hq : extendable (stored !! (REPO_NAME, logFile q))).
      { apply (Hext q acts); [by left|by intros ->]. }
      by destruct Hsc as [|? ? ->].
    + apply IH; [by destruct Hsc|].
      intros q' acts' Hin. apply Hext. by right.
Qed.

Lemma readable_failed stored before p acts behind code rest :
  acts <> [] ->
  Forall (fun t => t = Delivered) rest ->
  (forall q acts', (q, acts') ∈ (before ++ behind)%list -> acts' <> [] ->
                   extendable (stored !! (REPO_NAME, logFile q))) ->
  readable (replicate (pending before) Delivered ++ Failed code :: rest)
    stored (before ++ (p, acts) :: behind).
Proof.
  intros Hne Hrest Hext. induction before as [|[q acts'] before IH]; simpl.
  - destruct (decide (length acts = 0%nat)); [by destruct acts|].
    split; [done|]. by apply readable_delivered.
  - rewrite pending_cons.
    destruct (decide (length acts' = 0%nat)) as [Hzero|Hsome].
    + apply IH. intros q' a' Hin. apply Hext. by right.
    + simpl. split.
      * destruct (pending before); simpl;
          (apply (Hext q acts'); [by left|by intros ->]).
      * apply IH. intros q' a' Hin. apply Hext. by right.
Qed.

(** A flush whose first loop completes and whose writes are all delivered:
    every update is written and every buffer that held something is empty. *)
Lemma flush_completes gm :
  isProcessingQueue gm = false ->
  activityQueue gm <> [] ->
  JsMap.wf (activityQueue gm) ->
  REPO_NAME ∈ repos (githubApi gm) ->
  readable (script (githubApi gm)) (files (githubApi gm)) (activityQueue gm) ->
  Forall (fun t => t = Delivered)
    (drop (pending (activityQueue gm)) (script (githubApi gm))) ->
  (forall q acts, (q, acts) ∈ activityQueue gm -> acts <> [] ->
     files (githubApi gm) !! (REPO_NAME, logFile q) <> Some Directory) ->
  let updates :=
    expected (script (githubApi gm)) (files (githubApi gm)) (activityQueue gm) in
  let gm' := (processActivityQueue gm).2 in
  files (githubApi gm') = written updates (files (githubApi gm))
  /\ activityQueue gm' = cleared (activityQueue gm) (activityQueue gm)
  /\ isProcessingQueue gm' = false.
Proof.
  intros Hidle Hsome Hwf Hrepo Hread Hrel Hfiles updates gm'.
  subst gm'. rewrite processActivityQueue_run. rewrite Hidle. simpl orb.
  assert (Hsize : (JsMap.size (activityQueue gm) =? 0) = false).
  { apply Z.eqb_neq. unfold JsMap.size.
    destruct (activityQueue gm); [done|]. simpl. lia. }
  rewrite Hsize. cbv zeta.
  set (gm0 := with_isProcessingQueue true gm).
  assert (Hplan : planned (githubApi gm0) (activityQueue gm) = Some updates)
    by by apply planned_expected.
  rewrite (collectUpdates_planned _ _ _ _ Hplan). cbn [fst snd app].
  set (gm1 := with_activityQueue _ _).
  destruct (reads_store (githubApi gm) (activityQueue gm))
    as (Hf & Hr & _ & Hs & _).
  destruct (executeUpdates_reliable updates gm1) as (Hok & Hwritten & Hq & _).
  - unfold reliable. simpl. by rewrite Hs.
  - simpl. by rewrite Hr.
  - intros u Hu. simpl. rewrite Hf.
    apply expected_inv in Hu as (q & acts & Hin & Hne & ->).
    by eapply Hfiles.
  - rewrite Hok. split_and!; [|done..].
    simpl. rewrite Hwritten. simpl. by rewrite Hf.
Qed.

(** [logActivity] puts a record behind the ones its project has in the
    queue, and never throws. *)
Lemma logActivity_run a gm :
  let r := logActivity a gm in
  r.1 = Ok tt
  /\ JsMap.get (project a) (activityQueue r.2)
     = Some (default [] (JsMap.get (project a) (activityQueue gm)) ++ [a])%list
  /\ (forall q, q <> project a ->
        JsMap.get q (activityQueue r.2) = JsMap.get q (activityQueue gm))
  /\ githubApi r.2 = githubApi gm
  /\ isProcessingQueue r.2 = isProcessingQueue gm
  /\ queueProcessInterval r.2 = true
  /\ (JsMap.wf (activityQueue gm) -> JsMap.wf (activityQueue r.2)).
Proof.
  unfold logActivity, startQueueProcessor, JsMap.has. unfold_M. simpl.
  destruct (JsMap.get (project a) (activityQueue gm)) as [acts|] eqn:Hget;
    simpl; rewrite ?Hget, ?JsMap_get_set_eq; simpl;
    destruct (queueProcessInterval gm) eqn:Hint; simpl;
    (split_and!;
     [done
     |by rewrite ?JsMap_get_set_eq
     |intros q Hq; by rewrite ?JsMap_get_set_ne
     |done|done|done
     |intros Hwf; by repeat apply JsMap_wf_set]).
Qed.

(** Records logged one after the other are in the buffer of their project
    in that order. *)
Lemma logActivities_order activities gm p :
  (forall a, a ∈ activities -> project a = p) ->
  activities <> [] ->
  JsMap.get p (activityQueue (logActivities activities gm))
  = Some (default [] (JsMap.get p (activityQueue gm)) ++ activities)%list.
Proof.
  revert gm. induction activities as [|a rest IH]; intros gm Hp Hne; [done|].
  unfold logActivities. simpl. fold (logActivities rest (logActivity a gm).2).
  destruct (logActivity_run a gm) as (_ & Hget & _).
  rewrite (Hp a) in Hget by by left.
  destruct rest as [|b rest]; [done|].
  rewrite IH; [|intros a' Ha'; apply Hp; by right|done].
  rewrite Hget. simpl. by rewrite <- app_assoc.
Qed.

(** C1. A flush that goes through (the manager is not flushing already, the
    transport delivers, the tracker's repository exists, and every log of a
    project with something to flush can be extended: it is absent, empty,
    not JSON, or a JSON array) rewrites the log of every project that has
    records [rs] in its buffer: to [L] followed by [rs] when the log held
    the JSON array [L], to [rs] when there was no log; the buffer is empty
    afterwards. Records logged one after the other for a project are in its
    buffer in that order. *)
Theorem flush_appends_to_log gm p rs :
  isProcessingQueue gm = false ->
  JsMap.wf (activityQueue gm) ->
  reliable (githubApi gm) ->
  REPO_NAME ∈ repos (githubApi gm) ->
  (forall q acts, (q, acts) ∈ activityQueue gm -> acts <> [] ->
     extendable (files (githubApi gm) !! (REPO_NAME, logFile q))) ->
  JsMap.get p (activityQueue gm) = Some rs -> rs <> [] ->
  let stored := files (githubApi gm) !! (REPO_NAME, logFile p) in
  let gm' := (processActivityQueue gm).2 in
  let log items :=
    JSON_stringify (JArray (items ++ (toJson <$> rs))%list) 2 in
  (forall content sha L,
     stored = Some (File content sha) -> content <> "" ->
     JSON_parse content = Some (JArray L) ->
     files (githubApi gm') !! (REPO_NAME, logFile p)
     = Some (File (log L) (blob_sha (log L))))
  /\ (stored = None ->
      files (githubApi gm') !! (REPO_NAME, logFile p)
      = Some (File (log []) (blob_sha (log []))))
  /\ JsMap.get p (activityQueue gm') = Some []
  /\ (forall gm0,
        (forall a, a ∈ rs -> project a = p) ->
        JsMap.get p (activityQueue gm0) = None
        \/ JsMap.get p (activityQueue gm0) = Some [] ->
        JsMap.get p (activityQueue (logActivities rs gm0)) = Some rs).
Proof.
  intros Hidle Hwf Hrel Hrepo Hext Hget Hne stored gm' log.
  apply JsMap_get_elem_of in Hget; [|done].
  destruct (flush_completes gm) as (Hfiles & Hqueue & _); try done.
  - intros Hnil. rewrite Hnil in Hget. by apply elem_of_nil in Hget.
  - by apply readable_delivered.
  - by apply Forall_drop.
  - intros q acts Hin Hacts Hdir. specialize (Hext q acts Hin Hacts).
    by rewrite Hdir in Hext.
  - fold gm' in Hfiles, Hqueue.
    assert (Hlog : files (githubApi gm') !! (REPO_NAME, logFile p)
                   = Some (File (log (stored_items stored))
                             (blob_sha (log (stored_items stored))))).
    { rewrite Hfiles.
      apply (written_one _ _ (update_for p (stored_items stored) rs)).
      - by apply expected_delivered.
      - by apply expected_NoDup. }
    split_and!.
    + intros content sha L Hstored Hcontent Hparse. rewrite Hlog.
      unfold stored_items. rewrite Hstored, decide_False, Hparse by done.
      done.
    + intros Hstored. rewrite Hlog. by rewrite Hstored.
    + rewrite Hqueue. by eapply cleared_pending.
    + intros gm0 Hp Hold. rewrite logActivities_order by done.
      by destruct Hold as [->| ->].
Qed.

Lemma pending_app before behind :
  pending (before ++ behind) = (pending before + pending behind)%nat.
Proof. unfold pending. by rewrite List.filter_app, length_app. Qed.

(** C9. When the read of a project's log fails on the way (with any status
    whatsoever, so also with one that is not 404), the reads and writes of
    the flush are otherwise delivered, and the logs of the other projects
    can be extended, the flush goes on as if the project had no log: it
    writes the buffered records alone, and that write replaces the stored
    log, whatever it held. *)
Theorem flush_overwrites_unread_log gm before p rs behind code rest content
    sha :
  isProcessingQueue gm = false ->
  JsMap.wf (activityQueue gm) ->
  REPO_NAME ∈ repos (githubApi gm) ->
  activityQueue gm = (before ++ (p, rs) :: behind)%list ->
  rs <> [] ->
  script (githubApi gm)
  = (replicate (pending before) Delivered ++ Failed code :: rest)%list ->
  Forall (fun t => t = Delivered) rest ->
  (forall q acts, (q, acts) ∈ (before ++ behind)%list -> acts <> [] ->
     extendable (files (githubApi gm) !! (REPO_NAME, logFile q))) ->
  files (githubApi gm) !! (REPO_NAME, logFile p) = Some (File content sha) ->
  let gm' := (processActivityQueue gm).2 in
  let log := JSON_stringify (JArray (toJson <$> rs)) 2 in
  served_content REPO_NAME (logFile p) (reads (githubApi gm) before)
  = Throw (httpError code)
  /\ logs_seen (reads (githubApi gm) before) (logFile p) = JArray []
  /\ files (githubApi gm') !! (REPO_NAME, logFile p)
     = Some (File log (blob_sha log))
  /\ JsMap.get p (activityQueue gm') = Some [].
Proof.
  intros Hidle Hwf Hrepo Hqueue Hne Hscript Hrest Hext Hstored gm' log.
  assert (Hturn : script (reads (githubApi gm) before) = Failed code :: rest).
  { destruct (reads_store (githubApi gm) before) as (_ & _ & _ & -> & _).
    rewrite Hscript.
    rewrite (drop_app_length' _ _ (pending before)); [done|].
    by rewrite length_replicate. }
  destruct (flush_completes gm) as (Hfiles & Hq & _); try done.
  - rewrite Hqueue. by destruct before.
  - rewrite Hqueue, Hscript. by apply readable_failed.
  - rewrite Hqueue, Hscript, pending_app, pending_cons.
    destruct (decide (length rs = 0%nat)); [by destruct rs|].
    rewrite (drop_app_add' _ _ (pending before)) by by rewrite length_replicate.
    simpl. by apply Forall_drop.
  - intros q acts Hin Hacts Hdir. rewrite Hqueue in Hin.
    apply elem_of_app in Hin as [Hin|Hin].
    + specialize (Hext q acts). rewrite Hdir in Hext. apply Hext; [|done].
      apply elem_of_app. by left.
    + apply elem_of_cons in Hin as [[= -> ->]|Hin]; [congruence|].
      specialize (Hext q acts). rewrite Hdir in Hext. apply Hext; [|done].
      apply elem_of_app. by right.
  - fold gm' in Hfiles, Hq. split_and!.
    + unfold served_content. by rewrite Hturn.
    + by eapply logs_seen_failed.
    + rewrite Hfiles, Hqueue, Hscript.
      apply (written_one _ _ (update_for p [] rs)).
      * by apply expected_failed.
      * apply expected_NoDup. by rewrite <- Hqueue.
    + rewrite Hq. eapply cleared_pending; [|done].
      rewrite Hqueue. apply elem_of_app. right. by left.
Qed.

(** The first loop only reads: it leaves the store as it is and sends no
    write, whether it completes or throws. *)
Lemma collectUpdates_reads_only entries updates gm :
  let r := collectUpdates entries updates gm in
  files (githubApi r.2) = files (githubApi gm)
  /\ exists events,
       trace (githubApi r.2) = (trace (githubApi gm) ++ events)%list
       /\ Forall (fun e => isWrite e = false) events.
Proof.
  revert updates gm.
  induction entries as [|[project activities] rest IH]; intros updates gm.
  { simpl. split; [done|]. exists []. by rewrite app_nil_r. }
  rewrite collectUpdates_cons. cbv zeta.
  destruct (decide (length activities = 0%nat)); [apply IH|].
  destruct (logs_seen (githubApi gm) (logFile project)) as [| | | |items|];
    try (split; [done|]; eexists [_]; unfold read_log; simpl;
         split; [done|by repeat constructor]).
  set (gm2 := with_activityQueue _ _).
  destruct (IH (updates ++ [update_for project items activities])%list gm2)
    as (-> & events & -> & Hev).
  split; [done|]. eexists (_ :: events). unfold gm2, read_log. simpl.
  rewrite <- app_assoc. split; [done|]. by constructor.
Qed.

Lemma planned_files api entries us :
  planned api entries = Some us ->
  update_file <$> us
  = logFile <$> (List.filter (fun e => negb (bool_decide (length e.2 = 0%nat)))
                   entries).*1.
Proof.
  revert api us. induction entries as [|[q acts] rest IH]; intros api us.
  { by intros [= <-]. }
  simpl. destruct (decide (length acts = 0%nat)) as [Hzero|Hsome].
  - rewrite bool_decide_eq_true_2 by done. apply IH.
  - rewrite bool_decide_eq_false_2 by done.
    destruct (logs_seen api (logFile q)) as [| | | |items|]; try done.
    destruct (planned _ rest) as [us'|] eqn:Hrest; [|done].
    intros [= <-]. simpl. f_equal. by eapply IH.
Qed.

Lemma pending_projects (entries : list (string * list ActivityLog)) file :
  file ∈ logFile <$> (List.filter
                        (fun e => negb (bool_decide (length e.2 = 0%nat)))
                        entries).*1 ->
  exists q (acts : list ActivityLog),
    (q, acts) ∈ entries /\ acts <> [] /\ file = logFile q.
Proof.
  intros (q & -> & ([q' acts] & -> & Hin)%list_elem_of_fmap)%list_elem_of_fmap.
  apply list_elem_of_In, filter_In in Hin as [Hin Hacts].
  exists q', acts. split_and!; [by apply list_elem_of_In| |done].
  intros ->. by rewrite bool_decide_eq_true_2 in Hacts.
Qed.

Lemma pending_files_NoDup (entries : list (string * list ActivityLog)) :
  NoDup entries.*1 ->
  NoDup (logFile <$> (List.filter
                        (fun e => negb (bool_decide (length e.2 = 0%nat)))
                        entries).*1).
Proof.
  intros Hnd.
  rewrite <- (expected_files (@nil Transport)
                (∅ : gmap (string * string) Entry) entries).
  by apply expected_NoDup.
Qed.

Lemma count_NoDup {A} (f : A -> string) (l : list A) y :
  NoDup (f <$> l) ->
  (length (List.filter (fun x => bool_decide (f x = y)) l) <= 1)%nat.
Proof.
  induction l as [|x l IH]; simpl; [lia|].
  intros [Hfresh Hnd]%NoDup_cons. specialize (IH Hnd).
  case_bool_decide as Hx; [|done]. simpl.
  assert (Hnone : List.filter (fun x => bool_decide (f x = y)) l = []);
    [|by rewrite Hnone].
  clear IH Hnd. induction l as [|x' l IHl]; simpl; [done|].
  apply not_elem_of_cons in Hfresh as [Hne Hfresh].
  rewrite bool_decide_eq_false_2 by congruence. by apply IHl.
Qed.

(** The two loops of a flush. The first loop empties the buffer of every
    project it is about to write for, and sends no write; whatever happens to the
    writes of the second loop, nothing is put back into the queue, and no
    log file is sent more than one write. The updates are written in order
    up to the first that fails; the failure is logged, and the logs of the
    updates from there on stay as they were: the records are in no buffer
    and in no log. *)
Lemma flush_two_loops gm :
  isProcessingQueue gm = false ->
  JsMap.wf (activityQueue gm) ->
  let r1 := collectUpdates (activityQueue gm) []
              (with_isProcessingQueue true gm) in
  let gm' := (processActivityQueue gm).2 in
  files (githubApi r1.2) = files (githubApi gm)
  /\ (exists events,
        trace (githubApi r1.2) = (trace (githubApi gm) ++ events)%list
        /\ Forall (fun e => isWrite e = false) events)
  /\ (forall updates u,
        r1.1 = Ok updates -> u ∈ updates ->
        exists q acts,
          (q, acts) ∈ activityQueue gm /\ acts <> []
          /\ update_file u = logFile q
          /\ JsMap.get q (activityQueue r1.2) = Some [])
  /\ activityQueue gm' = activityQueue r1.2
  /\ (exists events,
        trace (githubApi gm') = (trace (githubApi gm) ++ events)%list
        /\ forall path,
             (length (List.filter (isWriteTo REPO_NAME path) events) <= 1)%nat)
  /\ (forall updates,
        r1.1 = Ok updates ->
        exists done rest,
          updates = (done ++ rest)%list
          /\ files (githubApi gm') = written done (files (githubApi gm))
          /\ (forall u, u ∈ rest ->
                files (githubApi gm') !! (REPO_NAME, update_file u)
                = files (githubApi gm) !! (REPO_NAME, update_file u))
          /\ (rest <> [] ->
              exists e, last (trace (githubApi gm')) = Some (Logged e))).
Proof.
  intros Hidle Hwf r1 gm'.
  set (gm0 := with_isProcessingQueue true gm) in *.
  destruct (collectUpdates_reads_only (activityQueue gm) [] gm0)
    as (Hfiles1 & events1 & Htrace1 & Hev1).
  fold r1 in Hfiles1, Htrace1.
  pose proof (collectUpdates_result (activityQueue gm) [] gm0) as Hres.
  fold r1 in Hres.
  assert (Hplanned : forall updates,
    r1.1 = Ok updates ->
    planned (githubApi gm) (activityQueue gm) = Some updates
    /\ r1.2 = with_activityQueue (cleared (activityQueue gm) (activityQueue gm))
                (with_githubApi (reads (githubApi gm) (activityQueue gm)) gm0)).
  { intros updates Hok. rewrite Hok in Hres.
    change (githubApi gm0) with (githubApi gm) in Hres.
    destruct (planned (githubApi gm) (activityQueue gm)) as [us|] eqn:Hplan;
      [|by destruct Hres as (logs & _ & Hres)].
    injection Hres as ->. split; [done|].
    unfold r1. by rewrite (collectUpdates_planned _ _ _ us). }
  assert (Hgm' :
    gm' = if (JsMap.size (activityQueue gm) =? 0) then gm
          else match r1.1 with
               | Ok updates =>
                   with_isProcessingQueue false
                     match (executeUpdates updates r1.2).1 with
                     | Ok _ => (executeUpdates updates r1.2).2
                     | Throw e => logged e (executeUpdates updates r1.2).2
                     end
               | Throw e => with_isProcessingQueue false (logged e r1.2)
               end).
  { unfold gm'. rewrite processActivityQueue_run, Hidle. simpl orb.
    destruct (_ =? 0); [done|]. cbv zeta. fold gm0. fold r1.
    by destruct (r1.1). }
  assert (Hempty : (JsMap.size (activityQueue gm) =? 0) = true ->
                   activityQueue gm = []).
  { intros Hz%Z.eqb_eq. unfold JsMap.size in Hz.
    destruct (activityQueue gm); [done|]. simpl in Hz. lia. }
  assert (Hnowrite : forall path,
    List.filter (isWriteTo REPO_NAME path) events1 = []).
  { intros path. clear -Hev1. induction Hev1 as [|e evs He _ IH]; [done|].
    simpl. rewrite IH.
    destruct e as [[| |r q m c s] a| |]; simpl in *; done. }
  split_and!; [done|by exists events1| | | |].
  - intros updates u Hok Hu.
    destruct (Hplanned _ Hok) as [Hplan ->].
    assert (Hfile : update_file u ∈ update_file <$> updates)
      by (apply list_elem_of_fmap; by exists u).
    rewrite (planned_files _ _ _ Hplan) in Hfile.
    apply pending_projects in Hfile as (q & acts & Hin & Hne & Hfile).
    exists q, acts. split_and!; try done. simpl. by eapply cleared_pending.
  - rewrite Hgm'. destruct (_ =? 0) eqn:Hsize.
    { pose proof (Hempty eq_refl) as Hnil. unfold r1, gm0.
      rewrite Hnil. simpl. by rewrite Hnil. }
    destruct (r1.1) as [updates|e]; [|done].
    destruct (executeUpdates_any updates r1.2) as (Hq & _).
    by destruct (executeUpdates updates r1.2).1.
  - rewrite Hgm'. destruct (_ =? 0) eqn:Hsize.
    { exists []. rewrite app_nil_r. split; [done|]. intros path. simpl. lia. }
    destruct (r1.1) as [updates|e] eqn:Hr1.
    + destruct (Hplanned _ eq_refl) as [Hplan _].
      destruct (executeUpdates_any updates r1.2)
        as (_ & _ & _ & _ & events2 & Htrace2 & Hcount).
      assert (Hone : forall path,
        (length (List.filter (isWriteTo REPO_NAME path) events2) <= 1)%nat).
      { intros path. etrans; [apply Hcount|]. apply count_NoDup.
        rewrite (planned_files _ _ _ Hplan). by apply pending_files_NoDup. }
      destruct (executeUpdates updates r1.2).1 as [[]|e].
      * exists (events1 ++ events2)%list. split.
        -- simpl. by rewrite Htrace2, Htrace1, <- app_assoc.
        -- intros path. rewrite List.filter_app, Hnowrite. apply Hone.
      * exists (events1 ++ events2 ++ [Logged e])%list. split.
        -- simpl. by rewrite Htrace2, Htrace1, <- !app_assoc.
        -- intros path. rewrite !List.filter_app, Hnowrite. simpl.
           rewrite app_nil_r. apply Hone.
    + exists (events1 ++ [Logged e])%list. split.
      * simpl. by rewrite Htrace1, <- app_assoc.
      * intros path. rewrite List.filter_app, Hnowrite. simpl. lia.
  - intros updates Hok. rewrite Hgm'.
    destruct (Hplanned _ Hok) as [Hplan _].
    destruct (_ =? 0) eqn:Hsize.
    { exists [], []. pose proof (Hempty eq_refl) as Hnil.
      rewrite Hnil in Hplan. injection Hplan as <-. by split_and!. }
    rewrite Hok.
    destruct (executeUpdates_any updates r1.2)
      as (_ & _ & _ & (done & rest & -> & Hwritten & Hrest) & _).
    exists done, rest.
    assert (Hnd : NoDup (update_file <$> (done ++ rest)%list)).
    { rewrite (planned_files _ _ _ Hplan). by apply pending_files_NoDup. }
    assert (Hfiles' :
      files (githubApi
               (with_isProcessingQueue false
                  match (executeUpdates (done ++ rest) r1.2).1 with
                  | Ok _ => (executeUpdates (done ++ rest) r1.2).2
                  | Throw e => logged e (executeUpdates (done ++ rest) r1.2).2
                  end))
      = written done (files (githubApi gm))).
    { change (files (githubApi gm)) with (files (githubApi gm0)).
      rewrite <- Hfiles1, <- Hwritten.
      by destruct (executeUpdates (done ++ rest) r1.2).1. }
    split_and!; [done|done| |].
    + intros u Hu. rewrite Hfiles'. apply written_other.
      rewrite fmap_app in Hnd. apply NoDup_app in Hnd as (_ & Hdis & _).
      intros Hin. apply (Hdis _ Hin). apply list_elem_of_fmap. by exists u.
    + intros Hne.
      destruct (executeUpdates (done ++ rest) r1.2).1 as [[]|e]; [done|].
      exists e. simpl. by rewrite last_snoc.
Qed.

End FlushFacts.

(** ** The flush on the trial manager *)

Section FlushTrials.
Import GithubAPI GitManager Trial.

(** The example of the specification: the log of project [P] holds one
    record, two records are logged and flushed; the log then holds the old
    record followed by the two new ones. *)
Lemma flush_appends_to_log_witness :
  let gm := manager "[{id:1}]" [] in
  let log := printJson (JArray [oldRecord; toJson record1; toJson record2]) in
  files (githubApi (processActivityQueue (platform := platform) gm).2)
    !! (REPO_NAME, logFile "P")
  = Some (File log ("sha of " +:+ log)).
Proof.
  intros gm log.
  assert (H1 : isProcessingQueue gm = false) by reflexivity.
  assert (H2 : JsMap.wf (activityQueue gm)) by (unfold JsMap.wf; compute_done).
  assert (H3 : reliable (githubApi gm)) by constructor.
  assert (H4 : REPO_NAME ∈ repos (githubApi gm)) by (by vm_compute).
  assert (H5 : forall q acts, (q, acts) ∈ activityQueue gm -> acts <> [] ->
                 extendable (platform := platform)
                   (files (githubApi gm) !! (REPO_NAME, logFile q))).
  { intros q acts Hin _. apply list_elem_of_singleton in Hin as [= -> _].
    vm_compute. by right. }
  assert (H6 : JsMap.get "P" (activityQueue gm) = Some [record1; record2])
    by reflexivity.
  assert (H7 : [record1; record2] <> []) by done.
  destruct (flush_appends_to_log (platform := platform) gm "P"
              [record1; record2] H1 H2 H3 H4 H5 H6 H7) as (Hlog & _).
  apply (Hlog "[{id:1}]" "sha0" [oldRecord]); [by vm_compute|done|reflexivity].
Defined.

(** The read of the log fails with status 500; the stored log, which is not
    even an array, is replaced by the two new records. *)
Lemma flush_overwrites_unread_log_witness :
  let gm := manager "{}" [Failed 500] in
  let log := printJson (JArray [toJson record1; toJson record2]) in
  files (githubApi (processActivityQueue (platform := platform) gm).2)
    !! (REPO_NAME, logFile "P")
  = Some (File log ("sha of " +:+ log)).
Proof.
  intros gm log.
  assert (H1 : isProcessingQueue gm = false) by reflexivity.
  assert (H2 : JsMap.wf (activityQueue gm)) by (unfold JsMap.wf; compute_done).
  assert (H3 : REPO_NAME ∈ repos (githubApi gm)) by (by vm_compute).
  assert (H4 : activityQueue gm = ([] ++ ("P", [record1; record2]) :: [])%list)
    by reflexivity.
  assert (H5 : [record1; record2] <> []) by done.
  assert (H6 : script (githubApi gm)
               = (replicate (pending []) Delivered ++ Failed 500 :: [])%list)
    by reflexivity.
  assert (H7 : Forall (fun t => t = Delivered) (@nil Transport)) by constructor.
  assert (H8 : forall (q : string) (acts : list ActivityLog),
                 (q, acts) ∈ (@nil (string * list ActivityLog) ++ [])%list ->
                 acts <> [] ->
                 extendable (platform := platform)
                   (files (githubApi gm) !! (REPO_NAME, logFile q))).
  { intros q acts Hin. by apply elem_of_nil in Hin. }
  assert (H9 : files (githubApi gm) !! (REPO_NAME, logFile "P")
               = Some (File "{}" "sha0")) by (by vm_compute).
  destruct (flush_overwrites_unread_log (platform := platform) gm [] "P"
              [record1; record2] [] 500 [] "{}" "sha0"
              H1 H2 H3 H4 H5 H6 H7 H8 H9) as (_ & _ & Hlog & _).
  exact Hlog.
Defined.

(** The same failed flush, run: the buffer of [P] is empty, the stored log
    is the old one, and the last thing that happened is the line of
    [console.error]; a second flush sends nothing. *)
Example failed_flush_loses_records :
  let gm := manager "[{id:1}]" [Delivered; Delivered; Delivered; Failed 502] in
  let gm' := (processActivityQueue (platform := platform) gm).2 in
  let gm'' := (processActivityQueue (platform := platform) gm').2 in
  JsMap.get "P" (activityQueue gm) = Some [record1; record2]
  /\ JsMap.get "P" (activityQueue gm') = Some []
  /\ files (githubApi gm') !! (REPO_NAME, logFile "P")
     = Some (File "[{id:1}]" "sha0")
  /\ last (trace (githubApi gm'))
     = Some (Logged (plainError "Failed to update file: HttpError"))
  /\ trace (githubApi gm'') = trace (githubApi gm').
Proof. by vm_compute. Qed.

End FlushTrials.

(** ** What a capture reports *)

Section CaptureFacts.
Import ActivityTracker Capture.
Implicit Types (t : Tracker) (document : Document).

(** What a capture compares the text with: the snapshot of the file, and
    the empty text when there is none or an empty one. *)
Lemma trackCodeChanges_unfold document t :
  let previous :=
    default "" (JsMap.get (fileName document) (previousContent t)) in
  trackCodeChanges document t
  = ({| functions := detectFunctionChanges previous (getText document);
        classes := noChanges;
        imports := noChanges;
        lineChanges := getLineChanges previous (getText document) |},
     managePreviousContent (fileName document) (getText document) t).
Proof.
  unfold trackCodeChanges.
  destruct (JsMap.get (fileName document) (previousContent t)) as [c|]; [|done].
  simpl. by destruct (decide (c = "")) as [->|].
Qed.

(** A capture leaves the text as the snapshot of the file, whatever the
    capacity of the cache. *)
Lemma trackCodeChanges_snapshot document t :
  captured document (trackCodeChanges document t).2.
Proof.
  unfold captured. rewrite trackCodeChanges_unfold. cbn [snd].
  rewrite manage_unfold. apply JsMap_get_set_eq.
Qed.

Lemma filter_includes_self (names : list string) :
  List.filter (fun f => negb (includes f names)) names = [].
Proof.
  assert (H : forall l : list string, l ⊆ names ->
                List.filter (fun f => negb (includes f names)) l = []).
  { induction l as [|x l IH]; intros Hsub; [done|]. cbn [List.filter].
    assert (Hx : includes x names = true).
    { apply bool_decide_eq_true. apply Hsub. by left. }
    rewrite Hx. apply IH. intros y Hy. apply Hsub. by right. }
  by apply H.
Qed.

Lemma filter_includes_nil (names : list string) :
  List.filter (fun f => negb (includes f [])) names = names.
Proof.
  induction names as [|x l IH]; [done|]. cbn [List.filter].
  assert (Hx : includes x [] = false).
  { apply bool_decide_eq_false, not_elem_of_nil. }
  rewrite Hx. cbn [negb]. by rewrite IH.
Qed.

Lemma detectFunctionChanges_same content :
  detectFunctionChanges content content = noChanges.
Proof.
  unfold detectFunctionChanges, noChanges. by rewrite filter_includes_self.
Qed.

Lemma detectFunctionChanges_first content :
  detectFunctionChanges "" content
  = {| added := functionNames content; modified := []; removed := [] |}.
Proof.
  unfold detectFunctionChanges. change (functionNames "") with (@nil string).
  by rewrite filter_includes_nil.
Qed.

Lemma getLineChanges_first content :
  getLineChanges "" content
  = {| addedLines := lineCount content - 1;
       modifiedLines := lineCount content - 1;
       totalLines := lineCount content |}.
Proof.
  pose proof (lineCount_occurrences content).
  unfold getLineChanges, lineCount in *. simpl. f_equal; lia.
Qed.

(** X1. When a file is captured and then captured again (nothing else
    being captured in between), the second capture reports the differences
    between the two texts: the functions and the line statistics of
    [detectFunctionChanges] and [getLineChanges] on the first and the second
    text, and no classes or imports; it leaves the second text as the
    snapshot. When the two texts are the same it reports no function, no
    added or modified line and no change type. This holds whatever the
    capacity of the cache. *)
Theorem capture_compares_with_previous_save t first second :
  fileName second = fileName first ->
  let r := trackCodeChanges second (trackCodeChanges first t).2 in
  functions r.1 = detectFunctionChanges (getText first) (getText second)
  /\ lineChanges r.1 = getLineChanges (getText first) (getText second)
  /\ classes r.1 = noChanges
  /\ imports r.1 = noChanges
  /\ JsMap.get (fileName second) (previousContent r.2) = Some (getText second)
  /\ (getText second = getText first ->
      functions r.1 = noChanges
      /\ addedLines (lineChanges r.1) = 0
      /\ modifiedLines (lineChanges r.1) = 0
      /\ determineChangeType r.1 = []).
Proof.
  intros Hname r. subst r.
  assert (Hprev : default "" (JsMap.get (fileName second)
                     (previousContent (trackCodeChanges first t).2))
                  = getText first).
  { rewrite Hname. by rewrite (trackCodeChanges_snapshot first t). }
  pose proof (trackCodeChanges_snapshot second (trackCodeChanges first t).2)
    as Hsnap.
  unfold captured in Hsnap.
  rewrite trackCodeChanges_unfold in Hsnap |- *. cbv zeta in *.
  cbn [fst snd functions classes imports lineChanges] in *. rewrite Hprev.
  split_and!; try done.
  intros ->. rewrite detectFunctionChanges_same.
  unfold getLineChanges, determineChangeType. simpl.
  rewrite Z.sub_diag. done.
Qed.

(** X2. The first capture of a file (the cache holds no snapshot of it, or
    an empty one) reports every function name found in the text as added,
    in the order found and with repetitions, and nothing as removed or
    modified; the line statistics compare with the empty text, which has
    one line, so that [addedLines] is one less than the number of lines.
    The record has no change type exactly when the text has no function and
    a single line. *)
Theorem first_capture_reports_all_added t document :
  JsMap.get (fileName document) (previousContent t) = None
  \/ JsMap.get (fileName document) (previousContent t) = Some "" ->
  let changes := (trackCodeChanges document t).1 in
  let n := lineCount (getText document) in
  added (functions changes) = functionNames (getText document)
  /\ removed (functions changes) = []
  /\ modified (functions changes) = []
  /\ totalLines (lineChanges changes) = n
  /\ addedLines (lineChanges changes) = n - 1
  /\ modifiedLines (lineChanges changes) = n - 1
  /\ (determineChangeType changes = []
      <-> functionNames (getText document) = [] /\ n = 1).
Proof.
  intros Hnew changes n. subst changes n.
  rewrite trackCodeChanges_unfold. cbv zeta. cbn [fst].
  assert (Hprev : default "" (JsMap.get (fileName document) (previousContent t))
                  = "") by (by destruct Hnew as [-> | ->]).
  rewrite Hprev, detectFunctionChanges_first, getLineChanges_first.
  cbn [functions lineChanges added removed modified addedLines modifiedLines
       totalLines].
  split_and!; try done.
  pose proof (lineCount_occurrences (getText document)) as Hn.
  unfold determineChangeType, add_type, nonEmpty. simpl.
  destruct (functionNames (getText document)) as [|f fs]; simpl.
  - destruct (Z.ltb_spec 0 (lineCount (getText document) - 1)); simpl.
    + split; [done|]. intros [_ ?]. lia.
    + split; [|done]. intros _. split; [done|lia].
  - destruct (0 <? _); simpl; split; try done; by intros [? _].
Qed.

(** X3. [stop] turns tracking off and clears the cache, and [start] turns
    tracking on again without bringing anything back: the settings are
    kept, and the capture of any file after [stop] and [start] is a first
    capture, which reports all the functions of the text as added. *)
Theorem stop_forgets_snapshots t document :
  let t' := start (stop t) in
  isTracking (stop t) = false
  /\ previousContent (stop t) = []
  /\ isTracking t' = true
  /\ (maxCachedFiles t' = maxCachedFiles t
      /\ retryAttempts t' = retryAttempts t
      /\ retryDelay t' = retryDelay t)
  /\ added (functions (trackCodeChanges document t').1)
     = functionNames (getText document)
  /\ addedLines (lineChanges (trackCodeChanges document t').1)
     = lineCount (getText document) - 1.
Proof.
  intros t'. subst t'. rewrite trackCodeChanges_unfold. cbv zeta. cbn [fst].
  change (previousContent (start (stop t))) with (@nil (string * string)).
  cbn [JsMap.get default].
  rewrite detectFunctionChanges_first, getLineChanges_first. done.
Qed.

Lemma determineChangeType_order (changes : Changes) :
  determineChangeType changes
  `sublist_of` [FUNCTION_ADDED; FUNCTION_MODIFIED; FUNCTION_REMOVED;
                CLASS_ADDED; CLASS_MODIFIED; IMPORT_ADDED; CODE_MODIFIED].
Proof.
  unfold determineChangeType, add_type.
  destruct (nonEmpty (added (functions changes))),
    (nonEmpty (modified (functions changes))),
    (nonEmpty (removed (functions changes))),
    (nonEmpty (added (classes changes))),
    (nonEmpty (modified (classes changes))),
    (nonEmpty (added (imports changes))),
    (0 <? modifiedLines (lineChanges changes)); simpl;
    auto 20 using sublist_nil, sublist_cons, sublist_skip.
Qed.

(** X4. The change types of a capture are among [FUNCTION_ADDED],
    [FUNCTION_REMOVED] and [CODE_MODIFIED], in that order and each at most
    once: a capture never reports a modified function, a class or an
    import. [FUNCTION_ADDED] is there exactly when a function was added,
    [FUNCTION_REMOVED] exactly when one was removed, and [CODE_MODIFIED]
    exactly when the number of lines has changed, so that an edit that
    keeps the number of lines and the function names has no type. Whatever
    the changes, [determineChangeType] lists the types in the order the
    source tests them, without repetition. *)
Theorem capture_change_types t document :
  let changes := (trackCodeChanges document t).1 in
  let types := determineChangeType changes in
  types `sublist_of` [FUNCTION_ADDED; FUNCTION_REMOVED; CODE_MODIFIED]
  /\ (FUNCTION_ADDED ∈ types <-> added (functions changes) <> [])
  /\ (FUNCTION_REMOVED ∈ types <-> removed (functions changes) <> [])
  /\ (CODE_MODIFIED ∈ types <-> addedLines (lineChanges changes) <> 0)
  /\ (forall any : Changes,
        determineChangeType any
        `sublist_of` [FUNCTION_ADDED; FUNCTION_MODIFIED; FUNCTION_REMOVED;
                      CLASS_ADDED; CLASS_MODIFIED; IMPORT_ADDED; CODE_MODIFIED]).
Proof.
  intros changes types. subst types changes.
  rewrite trackCodeChanges_unfold. cbv zeta. cbn [fst].
  set (previous := default "" _).
  unfold determineChangeType, add_type, nonEmpty, detectFunctionChanges,
    getLineChanges.
  cbn [functions classes imports lineChanges added removed modified noChanges
       addedLines modifiedLines totalLines].
  set (a := List.filter _ (functionNames (getText document))).
  set (r := List.filter _ (functionNames previous)).
  set (d := Z.of_nat _ - Z.of_nat _).
  assert (Hd : (0 <? Z.abs d) = true <-> d <> 0) by (rewrite Z.ltb_lt; lia).
  split_and!.
  - destruct a, r, (0 <? Z.abs d); simpl;
      auto 10 using sublist_nil, sublist_cons, sublist_skip.
  - destruct a, r, (0 <? Z.abs d); simpl;
      rewrite ?elem_of_cons, ?elem_of_nil; intuition congruence.
  - destruct a, r, (0 <? Z.abs d); simpl;
      rewrite ?elem_of_cons, ?elem_of_nil; intuition congruence.
  - rewrite <- Hd. destruct a, r, (0 <? Z.abs d); simpl;
      rewrite ?elem_of_cons, ?elem_of_nil; intuition congruence.
  - apply determineChangeType_order.
Qed.
End CaptureFacts.

Section RetryRecords.
Import ActivityTracker Capture.
Context {G : Type}.
Variable logActivity : ActivityLog -> G -> result unit * G.
Variable now : Z -> string.
Variable document : Document.

(** The record of a capture of a file whose snapshot is the text. *)
Lemma trackCodeChanges_captured t attempt :
  captured document t ->
  unchanged (buildActivityLog now document (trackCodeChanges document t).1
               attempt).
Proof.
  intros Hcap. unfold unchanged, captured in *.
  rewrite trackCodeChanges_unfold. cbv zeta. rewrite Hcap. cbn [default fst].
  unfold buildActivityLog.
  cbn [changes log_functions lineStats type functions lineChanges].
  rewrite detectFunctionChanges_same.
  unfold determineChangeType, getLineChanges. simpl. by rewrite Z.sub_diag.
Qed.

(** The tries of the loop from a tracker that has the text as snapshot. *)
Lemma retry_loop_captured fuel attempt t g :
  captured document t ->
  let r := retry_loop logActivity now fuel document attempt t g in
  captured document r.1.1
  /\ forall a o, LogActivity a o ∈ r.2 -> unchanged a.
Proof.
  revert attempt t g. induction fuel as [|fuel IH]; intros attempt t g Hcap.
  { simpl. split; [done|]. by intros a o ?%elem_of_nil. }
  destruct (decide (retryAttempts t <= attempt)) as [Hge|Hlt].
  { rewrite retry_loop_done by done. simpl. split; [done|].
    by intros a o ?%elem_of_nil. }
  rewrite retry_loop_round by lia.
  pose proof (trackCodeChanges_snapshot document t) as Hcap1.
  pose proof (trackCodeChanges_captured t attempt Hcap) as Hun.
  set (a0 := buildActivityLog _ _ _ _) in *.
  set (t1 := (trackCodeChanges document t).2) in *.
  destruct (logActivity a0 g) as [[[]|e] g1].
  { simpl. split; [done|].
    by intros a o [[= <- _]|?%elem_of_nil]%elem_of_cons. }
  destruct (IH (attempt + 1) t1 g1 Hcap1) as [IH1 IH2].
  cbn [fst snd]. split; [done|].
  intros a o [[= <- _]|Hin]%elem_of_cons; [done|].
  apply elem_of_app in Hin as [Hin|Hin]; [|by eapply IH2].
  destruct (decide (attempt + 1 = retryAttempts t));
    repeat (apply elem_of_cons in Hin as [Hin|Hin]; [done|]);
    by apply elem_of_nil in Hin.
Qed.

(** X5. While tracking is on and [retryAttempts] is positive, the first try
    of a capture submits the record of the changes of the save, and it
    already moves the snapshot of the file to the new text; every later try
    takes the changes anew, against that snapshot, and so submits a record
    that tells of no change (no function, no added or modified line, no
    type). Whether a try is accepted or all of them fail, the new text is
    the snapshot afterwards: the changes of a save whose first try fails
    are reported by no record. *)
Theorem retried_records_tell_of_no_change t g :
  isTracking t = true -> 0 < retryAttempts t ->
  let r := logFileActivity logActivity now document t g in
  let first :=
    buildActivityLog now document (trackCodeChanges document t).1 0 in
  captured document r.1.1
  /\ exists o retries,
       r.2 = LogActivity first o :: retries
       /\ forall a o', LogActivity a o' ∈ retries -> unchanged a.
Proof.
  intros Htr Hpos r first. subst r. unfold logFileActivity.
  rewrite Htr. simpl negb. cbv iota.
  destruct (Z.to_nat (retryAttempts t)) as [|fuel] eqn:Hfuel; [lia|].
  rewrite retry_loop_round by done. fold first.
  pose proof (trackCodeChanges_snapshot document t) as Hcap1.
  set (t1 := (trackCodeChanges document t).2) in *.
  destruct (logActivity first g) as [[[]|e] g1].
  { simpl. split; [done|]. exists None, []. split; [done|].
    by intros a o ?%elem_of_nil. }
  destruct (retry_loop_captured fuel (0 + 1) t1 g1 Hcap1) as [IH1 IH2].
  cbn [fst snd]. split; [done|].
  eexists (Some e), _. split; [done|].
  intros a o Hin. apply elem_of_app in Hin as [Hin|Hin]; [|by eapply IH2].
  destruct (decide (0 + 1 = retryAttempts t));
    repeat (apply elem_of_cons in Hin as [Hin|Hin]; [done|]);
    by apply elem_of_nil in Hin.
Qed.
End RetryRecords.

(** ** The records of the tries *)

Section RetryPolicy.
Import ActivityTracker Capture.
Context {G : Type}.
Variable logActivity : ActivityLog -> G -> result unit * G.
Variable now : Z -> string.
Variable document : Document.

(** A capture of a file whose snapshot is the text reports the changes of
    the text against itself. *)
Lemma trackCodeChanges_again t :
  captured document t -> (trackCodeChanges document t).1 = again document.
Proof.
  intros Hcap. unfold captured in Hcap.
  rewrite trackCodeChanges_unfold. cbv zeta. rewrite Hcap. cbn [default fst].
  unfold again. rewrite detectFunctionChanges_same.
  unfold getLineChanges, lineCount. cbv zeta.
  by rewrite Z.sub_diag.
Qed.

Lemma tries_app effects1 effects2 :
  tries (effects1 ++ effects2) = (tries effects1 ++ tries effects2)%list.
Proof. apply omap_app. Qed.

Lemma tries_backoff delay k failures :
  tries (backoff delay k failures) = failures.*1.
Proof.
  revert k. induction failures as [|[a e] rest IH]; intros k; [done|].
  simpl. unfold tries in *. simpl. by rewrite IH.
Qed.

(** The records of the tries of the loop from a tracker that has the text
    as snapshot. *)
Lemma retry_loop_tries fuel attempt t g :
  captured document t ->
  forall (k : nat) a,
    tries (retry_loop logActivity now fuel document attempt t g).2 !! k = Some a ->
    a = buildActivityLog now document (again document) (attempt + Z.of_nat k).
Proof.
  revert attempt t g. induction fuel as [|fuel IH]; intros attempt t g Hcap k a.
  { by simpl. }
  destruct (decide (retryAttempts t <= attempt)) as [Hge|Hlt].
  { by rewrite retry_loop_done by done. }
  rewrite retry_loop_round by lia.
  rewrite (trackCodeChanges_again t Hcap).
  pose proof (trackCodeChanges_snapshot document t) as Hcap1.
  set (a0 := buildActivityLog _ _ _ _).
  set (t1 := (trackCodeChanges document t).2) in *.
  destruct (logActivity a0 g) as [[[]|e] g1].
  { cbn [snd]. destruct k as [|k]; [|done].
    intros [= <-]. unfold a0. by rewrite Z.add_0_r. }
  cbn [fst snd].
  change (LogActivity a0 (Some e) :: ?l) with ([LogActivity a0 (Some e)] ++ l)%list.
  rewrite !tries_app.
  assert (Hmid : tries (if decide (attempt + 1 = retryAttempts t)
                        then [ShowErrorMessage (retryAttempts t) e; ConsoleError e]
                        else [Timeout (retryDelay t * (attempt + 1))]) = []).
  { by destruct (decide _). }
  rewrite Hmid. simpl.
  destruct k as [|k].
  { intros [= <-]. unfold a0. by rewrite Z.add_0_r. }
  simpl. intros Hk. rewrite (IH (attempt + 1) t1 g1 Hcap1 k a Hk).
  f_equal. lia.
Qed.

(** The records of the tries of a capture: the first holds the changes of
    the save, the later ones the changes of the text against itself. *)
Lemma logFileActivity_tries t g :
  isTracking t = true -> 0 < retryAttempts t ->
  forall (k : nat) a,
    tries (logFileActivity logActivity now document t g).2 !! k = Some a ->
    a = buildActivityLog now document
          (if decide (k = 0%nat) then (trackCodeChanges document t).1
           else again document)
          (Z.of_nat k).
Proof.
  intros Htr Hpos k a. unfold logFileActivity. rewrite Htr. simpl negb. cbv iota.
  destruct (Z.to_nat (retryAttempts t)) as [|fuel] eqn:Hfuel; [lia|].
  rewrite retry_loop_round by done.
  pose proof (trackCodeChanges_snapshot document t) as Hcap1.
  set (a0 := buildActivityLog _ _ _ _).
  set (t1 := (trackCodeChanges document t).2) in *.
  destruct (logActivity a0 g) as [[[]|e] g1].
  { cbn [snd]. destruct k as [|k]; [|done]. by intros [= <-]. }
  cbn [fst snd].
  change (LogActivity a0 (Some e) :: ?l) with ([LogActivity a0 (Some e)] ++ l)%list.
  rewrite !tries_app.
  assert (Hmid : tries (if decide (0 + 1 = retryAttempts t)
                        then [ShowErrorMessage (retryAttempts t) e; ConsoleError e]
                        else [Timeout (retryDelay t * (0 + 1))]) = []).
  { by destruct (decide _). }
  rewrite Hmid. simpl.
  destruct k as [|k]; [by intros [= <-]|].
  simpl. intros Hk.
  rewrite (retry_loop_tries fuel (0 + 1) t1 g1 Hcap1 k a Hk).
  f_equal. lia.
Qed.

(** C2, amended. While tracking is on and [retryAttempts] is positive (the
    default is 3, the default delay 1000), a capture makes at most
    [retryAttempts] tries, and every try captures the document anew and
    submits the record it builds: the try numbered [k] (from 0) submits
    [record k], for the file and the project of the document, which holds
    the changes of the save when [k = 0] and the changes of the text
    against itself, which are none, from then on. Either one try succeeds:
    the tries before it failed, the failure numbered [k] was followed by a
    wait of [retryDelay * k], there is no notification and exactly one
    record was accepted, the one of the successful try. Or all
    [retryAttempts] tries fail: all but the last are followed by their
    wait, the last by the one notification, no record was accepted, and the
    capture ends there. The state behind the git manager changes through
    the tries only, so that nothing is kept of a record when a failed try
    keeps nothing; the tracker itself keeps its settings. While tracking is
    off a capture does nothing. *)
Theorem logFileActivity_retry_policy t g :
  isTracking t = true -> 0 < retryAttempts t ->
  let r := logFileActivity logActivity now document t g in
  let effects := r.2 in
  let record (k : nat) :=
    buildActivityLog now document
      (if decide (k = 0%nat) then (trackCodeChanges document t).1
       else again document)
      (Z.of_nat k) in
  Z.of_nat (length (List.filter isAttempt effects)) <= retryAttempts t
  /\ threads logActivity effects g r.1.2
  /\ (retryAttempts r.1.1 = retryAttempts t
      /\ retryDelay r.1.1 = retryDelay t
      /\ isTracking r.1.1 = true)
  /\ (forall (k : nat) a, tries effects !! k = Some a -> a = record k)
  /\ (forall k : nat,
        file (record k) = fileName document
        /\ project (record k) = getProjectName document
        /\ timestamp (record k) = now (Z.of_nat k)
        /\ (k <> 0%nat -> unchanged (record k)))
  /\ ((exists failures,
         let a := record (length failures) in
         Z.of_nat (length failures) < retryAttempts t
         /\ effects = (backoff (retryDelay t) 1 failures
                       ++ [LogActivity a None])%list
         /\ (forall (k : nat) f, failures !! k = Some f -> f.1 = record k)
         /\ List.filter isNotification effects = []
         /\ List.filter isAccepted effects = [LogActivity a None])
      \/ (exists failures e,
            let a := record (length failures) in
            Z.of_nat (length failures) + 1 = retryAttempts t
            /\ effects = (backoff (retryDelay t) 1 failures
                          ++ [LogActivity a (Some e);
                              ShowErrorMessage (retryAttempts t) e;
                              ConsoleError e])%list
            /\ (forall (k : nat) f, failures !! k = Some f -> f.1 = record k)
            /\ List.filter isNotification effects
               = [ShowErrorMessage (retryAttempts t) e]
            /\ List.filter isAccepted effects = []
            /\ Z.of_nat (length (List.filter isAttempt effects))
               = retryAttempts t
            /\ ((forall a0 g0 e0 g1,
                   logActivity a0 g0 = (Throw e0, g1) -> g1 = g0) ->
                r.1.2 = g)))
  /\ (retryAttempts (new noOptions) = 3 /\ retryDelay (new noOptions) = 1000)
  /\ logFileActivity logActivity now document (stop t) g = (stop t, g, []).
Proof.
  intros Htr Hpos r effects record.
  destruct (logFileActivity_effects logActivity now document t g Htr Hpos)
    as (H1 & H2 & H3 & H4 & H5 & H6).
  fold r in H1, H2, H3, H4. fold effects in H1, H2, H4.
  pose proof (logFileActivity_tries t g Htr Hpos) as Htries.
  fold r in Htries. fold effects in Htries.
  assert (Hsplit : forall fs a tl,
    effects = (backoff (retryDelay t) 1 fs ++ LogActivity a tl.1 :: tl.2)%list ->
    a = record (length fs)
    /\ forall (k : nat) f, fs !! k = Some f -> f.1 = record k).
  { intros fs a tl Heff.
    assert (Hall : tries effects = (fs.*1 ++ a :: tries tl.2)%list).
    { rewrite Heff, tries_app, tries_backoff. done. }
    split.
    - apply Htries. rewrite Hall.
      rewrite lookup_app_r by (by rewrite length_fmap).
      by rewrite length_fmap, Nat.sub_diag.
    - intros k f Hk. apply Htries. rewrite Hall.
      rewrite lookup_app_l by (rewrite length_fmap; by eapply lookup_lt_Some).
      by rewrite list_lookup_fmap, Hk. }
  split_and!; try done; try apply H3.
  - intros k. split_and!; try done. intros Hk. unfold record.
    rewrite decide_False by done. unfold unchanged. by split_and!.
  - destruct H4 as [(fs & a & Hlen & Heff & Hnot & Hacc)
                   |(fs & a & e & Hlen & Heff & Hnot & Hacc & Hatt & Hpure)].
    + destruct (Hsplit fs a (None, []) Heff) as [-> Hfs].
      left. exists fs. by split_and!.
    + destruct (Hsplit fs a (Some e, [ShowErrorMessage (retryAttempts t) e;
                                      ConsoleError e]) Heff) as [-> Hfs].
      right. exists fs, e. by split_and!.
Qed.
End RetryPolicy.

Section RetryTrials.
Import ActivityTracker Capture.

(** A tracker with the default settings, started, and a git manager that
    rejects the first two calls: the record accepted is the one of the
    third try. *)
Lemma logFileActivity_retry_policy_witness :
  let t := start (new noOptions) in
  let r := logFileActivity (flaky 2) Trial.clock Trial.document t (0%nat, []) in
  Z.of_nat (length (List.filter isAttempt r.2)) <= 3
  /\ threads (flaky 2) r.2 (0%nat, []) r.1.2
  /\ forall (k : nat) a,
       tries r.2 !! k = Some a ->
       a = buildActivityLog Trial.clock Trial.document
             (if decide (k = 0%nat) then (trackCodeChanges Trial.document t).1
              else again Trial.document)
             (Z.of_nat k).
Proof.
  intros t r.
  destruct (logFileActivity_retry_policy (flaky 2) Trial.clock Trial.document
              t (0%nat, []) eq_refl ltac:(by vm_compute))
    as (H1 & H2 & _ & H3 & _).
  split_and!; [exact H1|exact H2|exact H3].
Defined.

(** C2, as the specification states it, fails: the submission is rejected
    on the first two tries and accepted on the third. No notification is
    shown and one record is accepted, but it is not the record that was
    captured: that one, which lists the function [a] as added, was
    submitted on the first try and rejected, and is submitted no more;
    the record that is accepted was built on the third try and lists no
    change. *)
Lemma accepted_record_is_not_the_captured_one :
  let t := start (new noOptions) in
  let captured :=
    buildActivityLog Trial.clock Trial.document
      (trackCodeChanges Trial.document t).1 0 in
  let r := logFileActivity (flaky 2) Trial.clock Trial.document t (0%nat, []) in
  List.filter isNotification r.2 = []
  /\ length (List.filter isAccepted r.2) = 1%nat
  /\ head (tries r.2) = Some captured
  /\ added (log_functions (changes captured)) = ["a"]
  /\ List.filter isAccepted r.2
     = [LogActivity
          (buildActivityLog Trial.clock Trial.document (again Trial.document) 2)
          None]
  /\ r.1.2.2
     = [buildActivityLog Trial.clock Trial.document (again Trial.document) 2]
  /\ captured
     <> buildActivityLog Trial.clock Trial.document (again Trial.document) 2.
Proof.
  intros t captured r. split_and!; by vm_compute.
Qed.
End RetryTrials.

(** ** Project names, small caches, the pattern *)

Section LastSegment.
Variable sep : ascii -> bool.

Lemma split_by_nonempty s : split_by sep s <> [].
Proof.
  intros Hnil. pose proof (split_by_length sep s) as Hlen.
  by rewrite Hnil in Hlen.
Qed.

Lemma last_cons_nonempty {A} (x d : A) l :
  l <> [] -> List.last (x :: l) d = List.last l d.
Proof. by destruct l. Qed.

(** The last segment holds no separator; it is the whole string when the
    string holds none, and else what stands behind the last of them. *)
Lemma split_by_last s :
  exists r,
    List.last (split_by sep s) "" = r
    /\ occurrences sep r = 0%nat
    /\ ((split_by sep s = [r] /\ s = r)
        \/ (exists pre c, sep c = true /\ s = pre +:+ String c r
                          /\ (2 <= length (split_by sep s))%nat)).
Proof.
  induction s as [|c s IH].
  - exists "". split_and!; [done|done|]. by left.
  - destruct IH as (r & Hlast & Hocc & Hform). simpl.
    destruct (sep c) eqn:Hc.
    + exists r. rewrite last_cons_nonempty by apply split_by_nonempty.
      split_and!; [done|done|]. right.
      pose proof (split_by_length sep s) as Hlen.
      destruct Hform as [[_ ->]|(pre & c' & Hc' & -> & _)].
      * exists "", c. split_and!; [done|done|simpl; lia].
      * exists (String c pre), c'. split_and!; [done|done|simpl; lia].
    + destruct (split_by sep s) as [|seg segs] eqn:Hs.
      { by destruct (split_by_nonempty s). }
      destruct Hform as [[[= -> ->] ->]|(pre & c' & Hc' & -> & Hlen)].
      * exists (String c r). simpl. rewrite Hc.
        split_and!; [done|done|]. by left.
      * exists r. destruct segs as [|seg' segs]; [simpl in Hlen; lia|].
        split_and!; [done|done|]. right.
        exists (String c pre), c'. split_and!; [done|done|simpl; lia].
Qed.

Lemma split_by_whole s : occurrences sep s = 0%nat -> split_by sep s = [s].
Proof.
  induction s as [|c s IH]; simpl; [done|].
  destruct (sep c); [done|]. intros Hocc. by rewrite IH.
Qed.

Lemma split_by_behind pre c r :
  sep c = true -> occurrences sep r = 0%nat ->
  List.last (split_by sep (pre +:+ String c r)) "" = r.
Proof.
  intros Hc Hocc. induction pre as [|a pre IH]; simpl.
  - rewrite Hc, split_by_whole by done. done.
  - destruct (sep a).
    + by rewrite last_cons_nonempty by apply split_by_nonempty.
    + destruct (split_by sep (pre +:+ String c r)) as [|seg segs] eqn:Hs.
      { by destruct (split_by_nonempty (pre +:+ String c r)). }
      destruct segs as [|seg' segs]; [|done].
      pose proof (split_by_length sep (pre +:+ String c r)) as Hlen.
      rewrite Hs in Hlen. simpl in Hlen.
      assert (Hone : (1 <= occurrences sep (pre +:+ String c r))%nat).
      { clear -Hc. induction pre as [|b pre IH]; simpl; [rewrite Hc; lia|].
        destruct (sep b); lia. }
      lia.
Qed.
End LastSegment.

Section ProjectNameFacts.
Import ActivityTracker.

(** X6. The project of a document is the name of its workspace folder
    when it lies in one. Otherwise it is the last segment of the file
    system path, cut at slashes and backslashes: it holds no separator,
    and it is the whole path when that holds none, and else what stands
    behind the last separator (the empty name when the path ends with
    one). *)
Theorem getProjectName_spec document :
  (forall name, workspaceFolder document = Some name ->
                getProjectName document = name)
  /\ (workspaceFolder document = None ->
      let name := getProjectName document in
      occurrences is_path_separator name = 0%nat
      /\ (fsPath document = name
          \/ exists folder c,
               is_path_separator c = true
               /\ fsPath document = folder +:+ String c name))
  /\ (forall folder c name,
        workspaceFolder document = None ->
        is_path_separator c = true ->
        occurrences is_path_separator name = 0%nat ->
        fsPath document = folder +:+ String c name ->
        getProjectName document = name).
Proof.
  unfold getProjectName. split_and!.
  - by intros name ->.
  - intros ->. cbv zeta.
    destruct (split_by_last is_path_separator (fsPath document))
      as (r & -> & Hocc & Hform).
    split; [done|].
    destruct Hform as [[_ ?]|(pre & c & Hc & Hs & _)]; [by left|].
    right. by exists pre, c.
  - intros folder c name -> Hc Hocc ->. by apply split_by_behind.
Qed.
End ProjectNameFacts.

Section SmallCache.
Import ActivityTracker.

Lemma manage_small t f c :
  maxCachedFiles t <= 1 -> JsMap.size (previousContent t) <= 1 ->
  previousContent (managePreviousContent f c t) = [(f, c)].
Proof.
  intros Hmax Hsize. rewrite manage_unfold.
  destruct (previousContent t) as [|[k v] [|e m]].
  - by destruct (_ >=? _).
  - destruct (Z.geb_spec (JsMap.size [(k, v)]) (maxCachedFiles t)) as [_|Hlt].
    + unfold JsMap.delete_oldest. simpl. by rewrite decide_True.
    + unfold JsMap.size in Hlt. simpl in Hlt. lia.
  - unfold JsMap.size in Hsize. simpl in Hsize. lia.
Qed.

(** X7. A cache whose capacity is one or less holds, after any writes,
    exactly the file written last: every write deletes the entry that is
    there before it sets its own. So such a tracker compares a save with
    the previous save only when no other file was saved in between. The
    constructor takes any capacity but zero as it is given, also a negative
    one, and makes the cache empty; a capacity of zero is replaced by
    100. *)
Theorem small_capacity_keeps_last_file t writes f c :
  maxCachedFiles t <= 1 -> JsMap.size (previousContent t) <= 1 ->
  previousContent (manageAll (writes ++ [(f, c)]) t) = [(f, c)]
  /\ (forall options v,
        opt_maxCachedFiles options = Some v -> v <> 0 ->
        maxCachedFiles (new options) = v /\ previousContent (new options) = [])
  /\ (forall options,
        opt_maxCachedFiles options = Some 0 ->
        maxCachedFiles (new options) = 100).
Proof.
  intros Hmax Hsize. split_and!.
  - revert t Hmax Hsize.
    induction writes as [|[f' c'] writes IH]; intros t Hmax Hsize.
    + by apply manage_small.
    + change (manageAll (((f', c') :: writes) ++ [(f, c)]) t)
        with (manageAll (writes ++ [(f, c)]) (managePreviousContent f' c' t)).
      apply IH; [done|]. by rewrite manage_small.
  - intros options v Hopt Hv. unfold new. simpl. rewrite Hopt. simpl.
    by rewrite decide_False.
  - intros options Hopt. unfold new. simpl. by rewrite Hopt.
Qed.
End SmallCache.

Section MatchAllFacts.
Import ActivityTracker.

Lemma string_drop_length n s :
  String.length (string_drop n s) = (String.length s - n)%nat.
Proof. revert s. induction n as [|n IH]; intros [|c s]; simpl; done. Qed.

Lemma string_drop_suffix n s : exists p, s = p +:+ string_drop n s.
Proof.
  revert s. induction n as [|n IH]; intros s.
  - by exists "".
  - destruct s as [|c s]; [by exists ""|].
    destruct (IH s) as [p Hp]. exists (String c p).
    change (String c s = String c (p +:+ string_drop n s)). by rewrite <- Hp.
Qed.

Lemma string_app_assoc (s1 s2 s3 : string) :
  (s1 +:+ s2) +:+ s3 = s1 +:+ (s2 +:+ s3).
Proof.
  induction s1 as [|a s1 IH]; [done|].
  change (String a ((s1 +:+ s2) +:+ s3) = String a (s1 +:+ (s2 +:+ s3))).
  by rewrite IH.
Qed.

Lemma pattern_matches_length s name len :
  pattern_matches s name len ->
  (11 <= len <= String.length s)%nat
  /\ name <> "" /\ all_chars is_word name = true.
Proof.
  intros (ws & ws' & rest & -> & Hws0 & _ & Hnm0 & Hnm & _ & ->).
  split_and!; [| |done|done].
  - destruct ws; [done|]. destruct name; [done|]. simpl. lia.
  - rewrite !string_length_app. simpl. lia.
Qed.

Lemma functionNames_matches n content :
  (String.length content <= n)%nat ->
  (forall name, name ∈ functionNames content ->
     exists before rest len,
       content = before +:+ rest /\ pattern_matches rest name len)
  /\ (11 * length (functionNames content) <= String.length content)%nat.
Proof.
  revert content. induction n as [|n IH]; intros content Hlen.
  { destruct content; [|simpl in Hlen; lia].
    split; [|simpl; lia]. by intros name ?%elem_of_nil. }
  rewrite functionNames_unfold.
  destruct content as [|c content'];
    [split; [|simpl; lia]; by intros name ?%elem_of_nil|].
  destruct (match_here (String c content')) as [[nm len]|] eqn:Hm.
  - pose proof Hm as Hp. apply match_here_spec in Hp.
    destruct (pattern_matches_length _ _ _ Hp) as ([Hlo Hhi] & _).
    pose proof (string_drop_length len (String c content')) as Hdrop.
    destruct (IH (string_drop len (String c content'))) as [IH1 IH2]; [lia|].
    split.
    + intros name [->|Hin]%elem_of_cons.
      * by exists "", (String c content'), len.
      * destruct (IH1 name Hin) as (before & rest & len' & Heq & Hpm).
        destruct (string_drop_suffix len (String c content')) as [p Hp'].
        exists (p +:+ before), rest, len'. split; [|done].
        rewrite Hp' at 1. rewrite Heq. by rewrite string_app_assoc.
    + cbn [length]. lia.
  - destruct (IH content') as [IH1 IH2]; [simpl in Hlen; lia|]. split.
    + intros name Hin.
      destruct (IH1 name Hin) as (before & rest & len' & -> & Hpm).
      by exists (String c before), rest, len'.
    + simpl. lia.
Qed.

(** X8. Every name that [functionNames] finds is a match of the pattern
    [function\s+(\w+)\s*\(] somewhere in the text: it is not empty, made of
    word characters, and the text holds, at some place, the word
    [function], white space, the name, optional white space and an opening
    parenthesis. Matches do not overlap and none is shorter than eleven
    characters, so a text has at most an eleventh of its length in names.
    And the first match is found: when a text begins with characters among
    which there is no [f] and a match of the pattern follows, the names of
    the text are the name of that match and then those of what is behind
    the match. *)
Theorem functionNames_sound content :
  (forall name, name ∈ functionNames content ->
     name <> "" /\ all_chars is_word name = true
     /\ exists before rest len,
          content = before +:+ rest /\ pattern_matches rest name len)
  /\ (11 * length (functionNames content) <= String.length content)%nat
  /\ (forall before rest name len,
        content = before +:+ rest ->
        occurrences (fun c => bool_decide (c = "f"%char)) before = 0%nat ->
        pattern_matches rest name len ->
        functionNames content = name :: functionNames (string_drop len rest)).
Proof.
  destruct (functionNames_matches (String.length content) content)
    as [Hsound Hbound]; [done|].
  split_and!; [|done|].
  - intros name Hin.
    destruct (Hsound name Hin) as (before & rest & len & -> & Hpm).
    destruct (pattern_matches_length _ _ _ Hpm) as (_ & ? & ?).
    split_and!; [done|done|]. by exists before, rest, len.
  - intros before rest name len -> Hnof Hpm. clear Hsound Hbound.
    induction before as [|c before IH].
    + change ("" +:+ rest) with rest. rewrite functionNames_unfold.
      apply match_here_spec in Hpm as Hm.
      destruct rest as [|c rest]; [done|]. by rewrite Hm.
    + simpl in Hnof. case_bool_decide as Hc; [done|].
      change (String c before +:+ rest) with (String c (before +:+ rest)).
      rewrite functionNames_unfold.
      assert (Hnone : match_here (String c (before +:+ rest)) = None).
      { unfold match_here. simpl. by rewrite decide_False by congruence. }
      rewrite Hnone. by apply IH.
Qed.
End MatchAllFacts.

(** ** The client of the remote store *)

Section ClientFacts.
Import GithubAPI.
Context {platform : Platform}.

(** X9. [checkRepoExists] sends one request and changes nothing in the
    store. When the request is delivered it tells whether the repository
    is there; when the request fails on the way with status 404 it says
    the repository is missing, whether it is or not; with any other status
    it throws the error of the request. *)
Theorem checkRepoExists_contract repo api :
  let r := checkRepoExists repo api in
  files r.2 = files api
  /\ repos r.2 = repos api
  /\ script r.2 = tail (script api)
  /\ (exists answer,
        trace r.2 = (trace api ++ [Exchange (ReposGet repo) answer])%list)
  /\ r.1 = match script api with
           | Failed code :: _ =>
               if decide (code = 404) then Ok false else Throw (httpError code)
           | _ => Ok (bool_decide (repo ∈ repos api))
           end.
Proof.
  rewrite checkRepoExists_run. cbv zeta. cbn [fst snd].
  split_and!; [done|done|done|by eexists|].
  unfold served_get.
  destruct (script api) as [|[|code] rest]; simpl;
    try (by destruct (bool_decide (repo ∈ repos api))).
  destruct (decide (Some code = Some 404)) as [[= ->]|Hne].
  - by rewrite decide_True.
  - rewrite decide_False; [done|congruence].
Qed.

(** X10. [getFileContent] sends one request and changes nothing in the
    store. When the request is delivered it returns the content of the
    file at the path (also when that is the empty text), [null] when the
    path or the repository is missing, and it throws an error without
    status when the path is a directory. When the request fails on the way
    it returns [null] for status 404 and throws the error of the request
    for any other status. *)
Theorem getFileContent_contract repo path api :
  let r := getFileContent repo path api in
  files r.2 = files api
  /\ repos r.2 = repos api
  /\ script r.2 = tail (script api)
  /\ (exists answer,
        trace r.2
        = (trace api ++ [Exchange (ReposGetContent repo path) answer])%list)
  /\ r.1 = match script api with
           | Failed code :: _ =>
               if decide (code = 404) then Ok None else Throw (httpError code)
           | _ =>
               if bool_decide (repo ∈ repos api) then
                 match files api !! (repo, path) with
                 | Some (File content _) => Ok (Some content)
                 | Some Directory =>
                     Throw (plainError "Path points to a directory, not a file")
                 | None => Ok None
                 end
               else Ok None
           end.
Proof.
  rewrite getFileContent_run. cbv zeta. cbn [fst snd].
  split_and!; [done|done|done|by eexists|].
  unfold served_content.
  destruct (script api) as [|[|code] rest]; simpl;
    try (destruct (bool_decide (repo ∈ repos api)); [|done];
         by destruct (files api !! (repo, path)) as [[]|]).
  destruct (decide (Some code = Some 404)) as [[= ->]|Hne].
  - by rewrite decide_True.
  - rewrite decide_False; [done|congruence].
Qed.

(** A call of [updateFile] that returns has had its three requests
    answered, the write with the token of what the path held. *)
Lemma updateFile_Ok repo path content message api :
  (updateFile repo path content message api).1 = Ok tt ->
  repo ∈ repos api
  /\ files api !! (repo, path) <> Some Directory
  /\ exists read,
       trace (updateFile repo path content message api).2
       = (trace api
          ++ [Exchange (ReposGet repo) Success;
              Exchange (ReposGetContent repo path) read;
              Exchange (CreateOrUpdateFileContents repo path message content
                          (token (files api !! (repo, path)))) Success])%list.
Proof.
  rewrite updateFile_run. cbv zeta.
  destruct (served_get repo api) as [[]|e1] eqn:H1; cbn [as_answer];
    [|by destruct (decide (status e1 = Some 404))].
  set (api1 := after _ api).
  destruct (served_content repo path api1) as [e|e2] eqn:H2; cbn [as_answer].
  - set (api2 := after _ api1).
    destruct (served_write repo path (token (Some e)) api2) as [[]|e3] eqn:H3;
      [|done].
    intros _. apply served_write_Ok in H3 as (Htok & Hdir & Hrepo).
    apply served_content_Ok in H2 as [Hfile _].
    change (files api1) with (files api) in Hfile.
    change (files api2) with (files api) in Hdir.
    split_and!; [done|done|].
    exists (Data e). rewrite Hfile. simpl. by rewrite <- !app_assoc.
  - destruct (decide (status e2 = Some 404)); [|done].
    set (api2 := after _ api1).
    destruct (served_write repo path None api2) as [[]|e3] eqn:H3; [|done].
    intros _. apply served_write_Ok in H3 as (Htok & Hdir & Hrepo).
    change (files api2) with (files api) in Htok, Hdir.
    split_and!; [done|done|].
    exists (Refused e2). rewrite <- Htok. simpl. by rewrite <- !app_assoc.
Qed.

Lemma getFileContent_stored repo path api content sha :
  (forall code rest, script api <> Failed code :: rest) ->
  repo ∈ repos api ->
  files api !! (repo, path) = Some (File content sha) ->
  (getFileContent repo path api).1 = Ok (Some content).
Proof.
  intros Hscript Hrepo Hfile. rewrite getFileContent_run. cbn [fst].
  unfold served_content. rewrite bool_decide_eq_true_2, Hfile by done.
  destruct (script api) as [|[|code] rest] eqn:Hs; try done.
  by destruct (Hscript code rest).
Qed.

(** X11. When [updateFile] returns, the path holds the content given, with
    the token of that content; nothing else in the store has changed; the
    call sent three requests, the existence check, the read of the path
    and the write, and the write carried the token of what the path held
    before; and a [getFileContent] of the path that is delivered next
    returns the content. *)
Theorem updateFile_then_getFileContent repo path content message api :
  let r := updateFile repo path content message api in
  r.1 = Ok tt ->
  files r.2 = <[(repo, path) := File content (blob_sha content)]> (files api)
  /\ repos r.2 = repos api
  /\ (exists read,
        trace r.2
        = (trace api
           ++ [Exchange (ReposGet repo) Success;
               Exchange (ReposGetContent repo path) read;
               Exchange (CreateOrUpdateFileContents repo path message content
                           (token (files api !! (repo, path)))) Success])%list)
  /\ ((forall code rest, script r.2 <> Failed code :: rest) ->
      (getFileContent repo path r.2).1 = Ok (Some content)).
Proof.
  intros r Hok. subst r.
  destruct (updateFile_store repo path content message api)
    as (_ & Hrepos & Hfiles).
  destruct (updateFile_Ok _ _ _ _ _ Hok) as (Hrepo & _ & Htrace).
  rewrite Hok in Hfiles. split_and!; [done|done|done|].
  intros Hscript.
  apply (getFileContent_stored _ _ _ content (blob_sha content)); [done| |].
  - by rewrite Hrepos.
  - by rewrite Hfiles, lookup_insert_eq.
Qed.

(** X12. When [updateFile] throws, the store is as it was before the call.
    The error thrown carries no status and its message is that of the
    cause behind [Failed to update file: ]; the cause is the last thing
    written to the error console. *)
Theorem updateFile_failure_keeps_store repo path content message api e :
  let r := updateFile repo path content message api in
  r.1 = Throw e ->
  files r.2 = files api
  /\ repos r.2 = repos api
  /\ status e = None
  /\ exists cause,
       e = plainError ("Failed to update file: " +:+ errorMessage cause)
       /\ last (trace r.2) = Some (Logged cause).
Proof.
  intros r Hthrow. subst r.
  destruct (updateFile_store repo path content message api)
    as (_ & Hrepos & Hfiles).
  rewrite Hthrow in Hfiles. split_and!; [done|done| |].
  - revert Hthrow. rewrite updateFile_run. cbv zeta. unfold failed_update.
    destruct (served_get repo api) as [[]|e1].
    + destruct (served_content _ _ _) as [e0|e2].
      * destruct (served_write _ _ _ _) as [[]|e3]; [done|]. by intros [= <-].
      * destruct (decide (status e2 = Some 404)); [|by intros [= <-]].
        destruct (served_write _ _ _ _) as [[]|e3]; [done|]. by intros [= <-].
    + destruct (decide (status e1 = Some 404)); by intros [= <-].
  - revert Hthrow. rewrite updateFile_run. cbv zeta. unfold failed_update.
    destruct (served_get repo api) as [[]|e1].
    + destruct (served_content _ _ _) as [e0|e2].
      * destruct (served_write _ _ _ _) as [[]|e3]; [done|].
        intros [= <-]. exists e3. cbn [snd trace with_trace].
        by rewrite last_snoc.
      * destruct (decide (status e2 = Some 404)).
        -- destruct (served_write _ _ _ _) as [[]|e3]; [done|].
           intros [= <-]. exists e3. cbn [snd trace with_trace].
           by rewrite last_snoc.
        -- intros [= <-]. exists e2. cbn [snd trace with_trace].
           by rewrite last_snoc.
    + destruct (decide (status e1 = Some 404)); intros [= <-].
      * exists (plainError ("Repository " +:+ repo +:+ " does not exist")).
        cbn [snd trace with_trace]. by rewrite last_snoc.
      * exists e1. cbn [snd trace with_trace]. by rewrite last_snoc.
Qed.

(** [updateFile] on a repository that is missing: the existence check is
    refused and nothing else is sent. *)
Lemma updateFile_no_repository repo path content message api :
  repo ∉ repos api ->
  let r := updateFile repo path content message api in
  exists refusal cause,
    trace r.2
    = (trace api ++ [Exchange (ReposGet repo) (Refused refusal); Logged cause])%list
    /\ r.1 = Throw (plainError ("Failed to update file: " +:+ errorMessage cause))
    /\ files r.2 = files api
    /\ (status refusal = Some 404 ->
        cause = plainError ("Repository " +:+ repo +:+ " does not exist"))
    /\ refusal = match script api with
                 | Failed code :: _ => httpError code
                 | _ => httpError 404
                 end.
Proof.
  intros Hrepo r. subst r. rewrite updateFile_run. cbv zeta.
  unfold served_get. rewrite bool_decide_eq_false_2 by done.
  set (e1 := match script api with
             | Failed code :: _ => httpError code
             | _ => httpError 404
             end).
  assert (Hget : match script api with
                 | Failed code :: _ => Throw (httpError code)
                 | _ => Throw (httpError 404)
                 end = @Throw unit e1).
  { unfold e1. by destruct (script api) as [|[|code] rest]. }
  rewrite Hget. cbn [as_answer]. exists e1. unfold failed_update.
  destruct (decide (status e1 = Some 404)).
  - eexists. simpl. rewrite <- app_assoc. by split_and!.
  - exists e1. simpl. rewrite <- app_assoc. by split_and!.
Qed.

(** X13. [updateFile] on a repository that is missing sends the existence
    check and nothing else, neither the read of the path nor a write, and
    leaves the store as it was; it throws, and when the check is delivered
    (or fails with status 404) the error says that the repository does not
    exist. *)
Theorem updateFile_missing_repository repo path content message api :
  repo ∉ repos api ->
  let r := updateFile repo path content message api in
  exists refusal cause,
    trace r.2
    = (trace api ++ [Exchange (ReposGet repo) (Refused refusal); Logged cause])%list
    /\ r.1 = Throw (plainError ("Failed to update file: " +:+ errorMessage cause))
    /\ files r.2 = files api
    /\ ((forall code rest, script api = Failed code :: rest -> code = 404) ->
        r.1 = Throw (plainError ("Failed to update file: Repository "
                                 +:+ repo +:+ " does not exist"))).
Proof.
  intros Hrepo r. subst r.
  destruct (updateFile_no_repository repo path content message api Hrepo)
    as (refusal & cause & Htrace & Hthrow & Hfiles & Hcause & Hrefusal).
  exists refusal, cause. split_and!; [done|done|done|].
  intros H404. rewrite Hthrow, Hcause; [done|]. rewrite Hrefusal.
  destruct (script api) as [|[|code] rest] eqn:Hs; try done.
  by rewrite (H404 code rest).
Qed.

(** X14. Two calls of [updateFile] for the same path, one after the other
    on a transport that delivers, both return: the second reads the token
    the first write left and passes it on, so it is not refused as stale,
    and the path holds the content of the second call. *)
Theorem updateFile_twice repo path content1 message1 content2 message2 api :
  reliable api -> repo ∈ repos api ->
  files api !! (repo, path) <> Some Directory ->
  let r1 := updateFile repo path content1 message1 api in
  let r2 := updateFile repo path content2 message2 r1.2 in
  r1.1 = Ok tt /\ r2.1 = Ok tt
  /\ files r2.2 = <[(repo, path) := File content2 (blob_sha content2)]> (files api)
  /\ last (trace r2.2)
     = Some (Exchange (CreateOrUpdateFileContents repo path message2 content2
                         (Some (blob_sha content1))) Success).
Proof.
  intros Hrel Hrepo Hdir r1 r2. subst r2 r1.
  destruct (updateFile_reliable repo path content1 message1 api Hrel Hrepo Hdir)
    as [Hok1 Hrel1].
  destruct (updateFile_store repo path content1 message1 api)
    as (_ & Hrepos1 & Hfiles1).
  rewrite Hok1 in Hfiles1.
  set (api1 := (updateFile repo path content1 message1 api).2) in *.
  assert (Hfile1 : files api1 !! (repo, path)
                   = Some (File content1 (blob_sha content1)))
    by (by rewrite Hfiles1, lookup_insert_eq).
  destruct (updateFile_reliable repo path content2 message2 api1) as [Hok2 _];
    [done|by rewrite Hrepos1|by rewrite Hfile1|].
  destruct (updateFile_store repo path content2 message2 api1)
    as (_ & _ & Hfiles2).
  rewrite Hok2 in Hfiles2.
  destruct (updateFile_Ok _ _ _ _ _ Hok2) as (_ & _ & read & Htrace).
  split_and!; [done|done| |].
  - by rewrite Hfiles2, Hfiles1, insert_insert_eq.
  - rewrite Htrace, Hfile1. cbn [token]. by rewrite last_app.
Qed.
End ClientFacts.

(** ** The queue and its flush *)

Section QueueFacts.
Import GithubAPI GitManager.
Context {platform : Platform}.

Lemma JsMap_has_keys {V} k (m : JsMap.t V) :
  JsMap.has k m = bool_decide (k ∈ JsMap.keys m).
Proof.
  unfold JsMap.has. destruct (JsMap.get k m) as [v|] eqn:Hget.
  - symmetry. apply bool_decide_eq_true. by eapply JsMap_get_Some_keys.
  - symmetry. apply bool_decide_eq_false. by apply JsMap_get_None.
Qed.

Lemma JsMap_elem_keys {V} (m : JsMap.t V) e : e ∈ m -> e.1 ∈ JsMap.keys m.
Proof. intros He. apply list_elem_of_fmap. by exists e. Qed.

(** The queue after [logActivity]. *)
Lemma logActivity_queue a gm :
  activityQueue (logActivity a gm).2
  = JsMap.set (project a)
      (default [] (JsMap.get (project a) (activityQueue gm)) ++ [a])%list
      (if JsMap.has (project a) (activityQueue gm) then activityQueue gm
       else JsMap.set (project a) [] (activityQueue gm)).
Proof.
  unfold logActivity, startQueueProcessor, JsMap.has. unfold_M. simpl.
  destruct (JsMap.get (project a) (activityQueue gm)) as [acts|] eqn:Hget;
    simpl; rewrite ?Hget, ?JsMap_get_set_eq; simpl;
    by destruct (queueProcessInterval gm).
Qed.

(** X15. [logActivity] never throws. It puts the record at the end of the
    buffer of its project and leaves the other buffers as they are; a
    project that is new to the queue goes behind the projects that are
    there, which keep their order; the flush timer is set afterwards; no
    request is sent and nothing is written to the console. *)
Theorem logActivity_contract a gm :
  let r := logActivity a gm in
  let p := project a in
  r.1 = Ok tt
  /\ JsMap.get p (activityQueue r.2)
     = Some (default [] (JsMap.get p (activityQueue gm)) ++ [a])%list
  /\ (forall q, q <> p ->
        JsMap.get q (activityQueue r.2) = JsMap.get q (activityQueue gm))
  /\ JsMap.keys (activityQueue r.2)
     = (if JsMap.has p (activityQueue gm) then JsMap.keys (activityQueue gm)
        else JsMap.keys (activityQueue gm) ++ [p])%list
  /\ githubApi r.2 = githubApi gm
  /\ isProcessingQueue r.2 = isProcessingQueue gm
  /\ queueProcessInterval r.2 = true.
Proof.
  intros r p. subst r p.
  destruct (logActivity_run a gm) as (H1 & H2 & H3 & H4 & H5 & H6 & _).
  split_and!; try done.
  rewrite logActivity_queue, JsMap_has_keys.
  case_bool_decide as Hin.
  - by apply JsMap_keys_set_old.
  - rewrite JsMap_keys_set_old.
    + by apply JsMap_keys_set_new.
    + rewrite JsMap_keys_set_new by done. apply elem_of_app. right. by left.
Qed.

(** The first loop keeps the projects of the queue and only ever empties
    buffers. *)
Lemma collectUpdates_queue entries updates gm :
  (forall e, e ∈ entries -> e.1 ∈ JsMap.keys (activityQueue gm)) ->
  let r := collectUpdates entries updates gm in
  JsMap.keys (activityQueue r.2) = JsMap.keys (activityQueue gm)
  /\ (forall p, JsMap.get p (activityQueue r.2) = JsMap.get p (activityQueue gm)
                \/ JsMap.get p (activityQueue r.2) = Some [])
  /\ isProcessingQueue r.2 = isProcessingQueue gm
  /\ queueProcessInterval r.2 = queueProcessInterval gm
  /\ repos (githubApi r.2) = repos (githubApi gm)
  /\ username (githubApi r.2) = username (githubApi gm).
Proof.
  revert updates gm.
  induction entries as [|[project activities] rest IH]; intros updates gm Hkeys.
  { simpl. split_and!; try done. by left. }
  rewrite collectUpdates_cons. cbv zeta.
  assert (Hrest : forall e, e ∈ rest -> e.1 ∈ JsMap.keys (activityQueue gm)).
  { intros e He. apply Hkeys. by right. }
  destruct (decide (length activities = 0%nat)); [by apply IH|].
  destruct (logs_seen (githubApi gm) (logFile project)) as [| | | |items|];
    try (simpl; split_and!; try done; by left).
  set (gm1 := with_githubApi _ gm).
  set (gm2 := with_activityQueue _ gm1).
  assert (Hk2 : JsMap.keys (activityQueue gm2) = JsMap.keys (activityQueue gm)).
  { simpl. apply JsMap_keys_set_old. apply (Hkeys (project, activities)).
    by left. }
  destruct (IH (updates ++ [update_for project items activities])%list gm2)
    as (IH1 & IH2 & IH3 & IH4 & IH5 & IH6).
  { intros e He. rewrite Hk2. by apply Hrest. }
  split_and!; try done.
  - by rewrite IH1.
  - intros p. destruct (IH2 p) as [Hp|Hp]; [|by right].
    rewrite Hp. simpl. destruct (decide (project = p)) as [->|Hne].
    + right. by rewrite JsMap_get_set_eq.
    + left. by rewrite JsMap_get_set_ne.
Qed.

Lemma executeUpdates_repos updates gm :
  repos (githubApi (executeUpdates updates gm).2) = repos (githubApi gm)
  /\ username (githubApi (executeUpdates updates gm).2)
     = username (githubApi gm).
Proof.
  revert gm. induction updates as [|u us IH]; intros gm; [done|].
  rewrite executeUpdates_cons. cbv zeta.
  destruct (updateFile_store REPO_NAME (update_file u) (update_content u)
              (update_message u) (githubApi gm)) as (Huser & Hrepos & _).
  set (r := updateFile _ _ _ _ _) in *.
  destruct (r.1) as [[]|e]; [|done].
  destruct (IH (with_githubApi (with_trace (trace r.2 ++ [Slept 1000]) r.2) gm))
    as [-> ->]. done.
Qed.

(** X16. A flush never throws, and whatever the transport and the store do
    it keeps the projects of the queue, in their order: no project is ever
    removed. A buffer is either left as it was or emptied; nothing is put
    into one. The flag [isProcessingQueue] is afterwards what it was
    before, the flush timer is left as it is, and no repository is made or
    removed. *)
Theorem flush_keeps_projects gm :
  let r := processActivityQueue gm in
  r.1 = Ok tt
  /\ JsMap.keys (activityQueue r.2) = JsMap.keys (activityQueue gm)
  /\ (forall p, JsMap.get p (activityQueue r.2) = JsMap.get p (activityQueue gm)
                \/ JsMap.get p (activityQueue r.2) = Some [])
  /\ isProcessingQueue r.2 = isProcessingQueue gm
  /\ queueProcessInterval r.2 = queueProcessInterval gm
  /\ repos (githubApi r.2) = repos (githubApi gm)
  /\ username (githubApi r.2) = username (githubApi gm).
Proof.
  intros r. subst r. rewrite processActivityQueue_run.
  destruct (isProcessingQueue gm) eqn:Hbusy; simpl orb; cbv iota.
  { split_and!; try done. by left. }
  destruct (JsMap.size (activityQueue gm) =? 0).
  { split_and!; try done. by left. }
  cbv zeta. set (gm0 := with_isProcessingQueue true gm).
  destruct (collectUpdates_queue (activityQueue gm) [] gm0)
    as (H1 & H2 & H3 & H4 & H5 & H6).
  { intros e He. by apply JsMap_elem_keys. }
  set (r1 := collectUpdates (activityQueue gm) [] gm0) in *.
  destruct (r1.1) as [updates|e]; [|by split_and!].
  destruct (executeUpdates_any updates r1.2) as (E1 & _ & E3 & _).
  destruct (executeUpdates_repos updates r1.2) as [E4 E5].
  destruct (executeUpdates updates r1.2).1 as [[]|e]; simpl;
    rewrite ?E1, ?E3, ?E4, ?E5; by split_and!.
Qed.

(** A flush leaves the repositories as they are. *)
Lemma processActivityQueue_repos gm :
  repos (githubApi (processActivityQueue gm).2) = repos (githubApi gm).
Proof.
  rewrite processActivityQueue_run.
  destruct (_ || _); [done|]. cbv zeta.
  destruct (collectUpdates_queue (activityQueue gm) []
              (with_isProcessingQueue true gm))
    as (_ & _ & _ & _ & H5 & _).
  { intros e He. by apply JsMap_elem_keys. }
  set (r1 := collectUpdates _ _ _) in *.
  destruct (r1.1) as [updates|e]; [|done].
  destruct (executeUpdates_repos updates r1.2) as [E4 _].
  destruct (executeUpdates updates r1.2).1 as [[]|e]; simpl; by rewrite E4.
Qed.

Lemma collectUpdates_idle entries updates gm :
  Forall (fun e => e.2 = []) entries ->
  collectUpdates entries updates gm = (Ok updates, gm).
Proof.
  induction 1 as [|[p acts] rest Hp _ IH]; [done|].
  rewrite collectUpdates_cons. simpl in Hp. subst acts.
  by rewrite decide_True.
Qed.

(** A flush of a queue without records. *)
Lemma processActivityQueue_idle gm :
  isProcessingQueue gm = false ->
  Forall (fun e => e.2 = []) (activityQueue gm) ->
  processActivityQueue gm = (Ok tt, gm).
Proof.
  intros Hbusy Hempty. rewrite processActivityQueue_run, Hbusy. simpl orb.
  destruct (_ =? 0); [done|]. cbv zeta.
  rewrite collectUpdates_idle by done. cbn [fst snd executeUpdates].
  destruct gm. simpl in *. by subst.
Qed.

(** X17. A flush that finds another flush under way, or no record in any
    buffer (the state every completed flush leaves), returns at once: it
    sends no request, waits for nothing and leaves the manager exactly as
    it was. *)
Theorem idle_flush_does_nothing gm :
  isProcessingQueue gm = true
  \/ Forall (fun e => e.2 = []) (activityQueue gm) ->
  processActivityQueue gm = (Ok tt, gm).
Proof.
  intros Hidle. destruct (isProcessingQueue gm) eqn:Hbusy.
  - rewrite processActivityQueue_run. by rewrite Hbusy.
  - destruct Hidle as [?|Hempty]; [done|]. by apply processActivityQueue_idle.
Qed.

Lemma cleared_keys entries (queue : JsMap.t (list ActivityLog)) :
  (forall e, e ∈ entries -> e.1 ∈ JsMap.keys queue) ->
  JsMap.keys (cleared entries queue) = JsMap.keys queue.
Proof.
  revert queue. induction entries as [|[p acts] rest IH]; intros queue Hkeys;
    [done|].
  simpl.
  assert (Hp : p ∈ JsMap.keys queue) by (apply (Hkeys (p, acts)); by left).
  destruct (decide (length acts = 0%nat)) as [Hzero|Hsome].
  - apply IH. intros e He. apply Hkeys. by right.
  - rewrite IH.
    + by apply JsMap_keys_set_old.
    + intros e He. rewrite JsMap_keys_set_old by done. apply Hkeys. by right.
Qed.

(** After the first loop no buffer holds a record. *)
Lemma cleared_all_empty (queue : JsMap.t (list ActivityLog)) :
  JsMap.wf queue -> Forall (fun e => e.2 = []) (cleared queue queue).
Proof.
  intros Hwf.
  assert (Hkeys : JsMap.keys (cleared queue queue) = JsMap.keys queue).
  { apply cleared_keys. intros e He. by apply JsMap_elem_keys. }
  assert (Hwf' : JsMap.wf (cleared queue queue)).
  { unfold JsMap.wf. by rewrite Hkeys. }
  apply Forall_forall. intros [p acts] Hin. simpl.
  apply (JsMap_get_elem_of _ _ _ Hwf') in Hin as Hget.
  assert (Hp : p ∈ JsMap.keys queue).
  { rewrite <- Hkeys. by apply (JsMap_elem_keys _ (p, acts)). }
  apply list_elem_of_fmap in Hp as ([p' acts0] & -> & Hin0). simpl in *.
  destruct acts0 as [|a acts0].
  - rewrite (cleared_keeps_empty queue queue p') in Hget; [congruence|].
    by apply JsMap_get_elem_of.
  - rewrite (cleared_pending queue queue p' (a :: acts0)) in Hget by done.
    congruence.
Qed.

(** X18. When the first loop of a flush completes (no log it reads is JSON
    without being an array), every buffer is empty after the flush, whether
    the writes of the second loop went through or not; and the next flush
    then does nothing. A record whose write failed is therefore never sent
    again. *)
Theorem flushed_records_are_not_retried gm :
  isProcessingQueue gm = false ->
  JsMap.wf (activityQueue gm) ->
  is_Some (planned (githubApi gm) (activityQueue gm)) ->
  let gm' := (processActivityQueue gm).2 in
  Forall (fun e => e.2 = []) (activityQueue gm')
  /\ isProcessingQueue gm' = false
  /\ processActivityQueue gm' = (Ok tt, gm').
Proof.
  intros Hidle Hwf [us Hplan] gm'.
  assert (Hstate : Forall (fun e => e.2 = []) (activityQueue gm')
                   /\ isProcessingQueue gm' = false).
  { subst gm'. rewrite processActivityQueue_run, Hidle. simpl orb.
    destruct (JsMap.size (activityQueue gm) =? 0) eqn:Hsize.
    { apply Z.eqb_eq in Hsize. unfold JsMap.size in Hsize. simpl.
      split; [|done].
      destruct (activityQueue gm); [constructor|simpl in Hsize; lia]. }
    cbv zeta.
    rewrite (collectUpdates_planned _ _ (with_isProcessingQueue true gm) us)
      by done.
    cbn [fst snd].
    set (gm1 := with_activityQueue _ _).
    set (r2 := executeUpdates ([] ++ us) gm1).
    destruct (executeUpdates_any ([] ++ us) gm1) as (Hq & _). fold r2 in Hq.
    assert (Hq1 : activityQueue gm1
                  = cleared (activityQueue gm) (activityQueue gm)) by done.
    assert (Hq2 : activityQueue
                    (with_isProcessingQueue false
                       match r2.1 with
                       | Ok _ => r2.2
                       | Throw e => logged e r2.2
                       end)
                  = activityQueue r2.2) by (by destruct (r2.1)).
    rewrite Hq2, Hq, Hq1. split; [by apply cleared_all_empty|done]. }
  destruct Hstate as [Hempty Hidle'].
  split_and!; [done|done|]. by apply processActivityQueue_idle.
Qed.

(** The first loop over a part of the queue whose logs can all be
    extended, and then over the rest. *)
Lemma collectUpdates_app before rest updates gm us :
  planned (githubApi gm) before = Some us ->
  collectUpdates (before ++ rest) updates gm
  = collectUpdates rest (updates ++ us)
      (with_activityQueue (cleared before (activityQueue gm))
         (with_githubApi (reads (githubApi gm) before) gm)).
Proof.
  revert updates gm us.
  induction before as [|[project activities] before IH]; intros updates gm us.
  - intros [= <-]. rewrite app_nil_r. by destruct gm.
  - change (((project, activities) :: before) ++ rest)%list
      with ((project, activities) :: (before ++ rest))%list.
    rewrite collectUpdates_cons. simpl.
    destruct (decide (length activities = 0%nat)); [apply IH|].
    destruct (logs_seen (githubApi gm) (logFile project)) as [| | | |items|];
      try done.
    destruct (planned _ before) as [us'|] eqn:Hrest; [|done].
    intros [= <-]. rewrite (IH _ _ us') by done.
    by rewrite <- app_assoc.
Qed.

Lemma cleared_other entries (queue : JsMap.t (list ActivityLog)) p :
  p ∉ entries.*1 ->
  JsMap.get p (cleared entries queue) = JsMap.get p queue.
Proof.
  revert queue. induction entries as [|[q acts] rest IH]; intros queue Hp;
    [done|].
  simpl in *. apply not_elem_of_cons in Hp as [Hne Hp].
  destruct (decide (length acts = 0%nat)); [by apply IH|].
  rewrite IH by done. by apply JsMap_get_set_ne.
Qed.

Lemma logs_seen_stored api file content sha v :
  (forall code rest, script api <> Failed code :: rest) ->
  REPO_NAME ∈ repos api ->
  files api !! (REPO_NAME, file) = Some (File content sha) ->
  content <> "" -> JSON_parse content = Some v ->
  logs_seen api file = v.
Proof.
  intros Hscript Hrepo Hfile Hcontent Hparse. unfold logs_seen, served_content.
  rewrite bool_decide_eq_true_2, Hfile by done.
  destruct (script api) as [|[|code] rest] eqn:Hs;
    try (by destruct (Hscript code rest));
    by rewrite decide_False, Hparse by done.
Qed.

(** X19. When the stored log of a project is JSON but no array, the call
    [logs.push] throws ([Cannot read properties of null (reading 'push')]
    for a stored [null], [logs.push is not a function] for anything else)
    and the flush stops when it gets to that project: it sends no write at
    all and leaves the store as it was, and the error is the last thing
    written to the error console. The projects before it in the queue had
    their buffers emptied already, so their records are in no buffer and in
    no log; the project itself and the projects behind it keep their
    buffers. *)
Theorem first_loop_stops_at_a_log_that_is_no_array gm before p rs behind content
    sha v :
  isProcessingQueue gm = false ->
  JsMap.wf (activityQueue gm) ->
  reliable (githubApi gm) ->
  REPO_NAME ∈ repos (githubApi gm) ->
  activityQueue gm = (before ++ (p, rs) :: behind)%list ->
  rs <> [] ->
  (forall q acts, (q, acts) ∈ before -> acts <> [] ->
     extendable (files (githubApi gm) !! (REPO_NAME, logFile q))) ->
  files (githubApi gm) !! (REPO_NAME, logFile p) = Some (File content sha) ->
  content <> "" ->
  JSON_parse content = Some v ->
  isArray v = false ->
  let gm' := (processActivityQueue gm).2 in
  files (githubApi gm') = files (githubApi gm)
  /\ (exists events,
        trace (githubApi gm')
        = (trace (githubApi gm) ++ events ++ [Logged (pushError v)])%list
        /\ Forall (fun e => isWrite e = false) events)
  /\ message (pushError v)
     = match v with
       | JNull => "Cannot read properties of null (reading 'push')"
       | _ => "logs.push is not a function"
       end
  /\ (forall q acts, (q, acts) ∈ before -> acts <> [] ->
        JsMap.get q (activityQueue gm') = Some [])
  /\ JsMap.get p (activityQueue gm') = Some rs
  /\ (forall q acts, (q, acts) ∈ behind ->
        JsMap.get q (activityQueue gm') = Some acts)
  /\ isProcessingQueue gm' = false.
Proof.
  intros Hidle Hwf Hrel Hrepo Hqueue Hrs Hext Hstored Hcontent Hparse Hv gm'.
  set (gm0 := with_isProcessingQueue true gm).
  set (us := expected (script (githubApi gm)) (files (githubApi gm)) before).
  assert (Hplan : planned (githubApi gm0) before = Some us).
  { apply planned_expected; [done|]. by apply readable_delivered. }
  destruct (reads_store (githubApi gm) before) as (Hf & Hr & _ & Hs & _).
  set (api1 := reads (githubApi gm) before) in *.
  assert (Hseen : logs_seen api1 (logFile p) = v).
  { apply (logs_seen_stored _ _ content sha); try done.
    - intros code rest Hhead. unfold reliable in Hrel.
      apply (Forall_drop _ (pending before)) in Hrel.
      rewrite <- Hs, Hhead in Hrel. by inversion Hrel.
    - by rewrite Hr.
    - by rewrite Hf. }
  set (gm1 := with_activityQueue (cleared before (activityQueue gm0))
                (with_githubApi api1 gm0)).
  assert (Hr1 : collectUpdates (activityQueue gm) [] gm0
                = (Throw (pushError v),
                   with_githubApi (read_log (logFile p) api1) gm1)).
  { rewrite Hqueue at 1. rewrite (collectUpdates_app _ _ _ _ us Hplan).
    change (githubApi gm0) with (githubApi gm). fold api1. fold gm1.
    rewrite collectUpdates_cons.
    rewrite decide_False by (by destruct rs).
    cbv zeta. change (githubApi gm1) with api1. rewrite Hseen.
    by destruct v. }
  assert (Hgm' :
    gm' = with_isProcessingQueue false
            (logged (pushError v)
               (with_githubApi (read_log (logFile p) api1) gm1))).
  { unfold gm'. rewrite processActivityQueue_run, Hidle. simpl orb.
    assert (Hsize : (JsMap.size (activityQueue gm) =? 0) = false).
    { apply Z.eqb_neq. unfold JsMap.size. rewrite Hqueue, length_app.
      simpl. lia. }
    rewrite Hsize. cbv zeta. fold gm0. by rewrite Hr1. }
  assert (Hnd : NoDup (before.*1 ++ p :: behind.*1)).
  { unfold JsMap.wf, JsMap.keys in Hwf. rewrite Hqueue, fmap_app in Hwf.
    done. }
  apply NoDup_app in Hnd as (Hnd1 & Hdis & Hnd2).
  apply NoDup_cons in Hnd2 as [Hp2 Hnd2].
  rewrite Hgm'. split_and!; [simpl; by rewrite Hf| |by destruct v| | | |done].
  - destruct (reads_store (githubApi gm) before)
      as (_ & _ & _ & _ & events & Htr & Hev).
    fold api1 in Htr.
    exists (events
            ++ [Exchange (ReposGetContent REPO_NAME (logFile p))
                  (as_answer Data
                     (served_content REPO_NAME (logFile p) api1))])%list.
    split.
    + simpl. rewrite Htr. by rewrite <- !app_assoc.
    + apply Forall_app. split; [done|]. by repeat constructor.
  - intros q acts Hin Hacts.
    change (JsMap.get q (cleared before (activityQueue gm)) = Some []).
    by eapply cleared_pending.
  - change (JsMap.get p (cleared before (activityQueue gm)) = Some rs).
    rewrite cleared_other.
    + apply JsMap_get_elem_of; [done|]. rewrite Hqueue.
      apply elem_of_app. right. by left.
    + intros Hin. apply (Hdis p Hin). by left.
  - intros q acts Hin.
    change (JsMap.get q (cleared before (activityQueue gm)) = Some acts).
    rewrite cleared_other.
    + apply JsMap_get_elem_of; [done|]. rewrite Hqueue.
      apply elem_of_app. right. by right.
    + intros Hin'. apply (Hdis q Hin'). right.
      apply list_elem_of_fmap. by exists (q, acts).
Qed.

Lemma stored_items_unreadable content sha :
  content = "" \/ JSON_parse content = None ->
  stored_items (Some (File content sha)) = [].
Proof.
  intros [->|Hparse]; simpl; [done|].
  destruct (decide (content = "")); [done|]. by rewrite Hparse.
Qed.

(** X20. A stored log that is empty or is not JSON is taken for no log: a
    flush that goes through (as for C1) replaces it by the buffered records
    alone, and what the file held is gone. *)
Theorem flush_overwrites_unparsable_log gm p rs content sha :
  isProcessingQueue gm = false ->
  JsMap.wf (activityQueue gm) ->
  reliable (githubApi gm) ->
  REPO_NAME ∈ repos (githubApi gm) ->
  (forall q acts, (q, acts) ∈ activityQueue gm -> acts <> [] ->
     extendable (files (githubApi gm) !! (REPO_NAME, logFile q))) ->
  JsMap.get p (activityQueue gm) = Some rs -> rs <> [] ->
  files (githubApi gm) !! (REPO_NAME, logFile p) = Some (File content sha) ->
  content = "" \/ JSON_parse content = None ->
  let gm' := (processActivityQueue gm).2 in
  let log := JSON_stringify (JArray (toJson <$> rs)) 2 in
  files (githubApi gm') !! (REPO_NAME, logFile p) = Some (File log (blob_sha log))
  /\ JsMap.get p (activityQueue gm') = Some [].
Proof.
  intros Hidle Hwf Hrel Hrepo Hext Hget Hne Hstored Hbad gm' log.
  apply JsMap_get_elem_of in Hget; [|done].
  destruct (flush_completes gm) as (Hfiles & Hqueue & _); try done.
  - intros Hnil. rewrite Hnil in Hget. by apply elem_of_nil in Hget.
  - by apply readable_delivered.
  - by apply Forall_drop.
  - intros q acts Hin Hacts Hdir. specialize (Hext q acts Hin Hacts).
    by rewrite Hdir in Hext.
  - fold gm' in Hfiles, Hqueue. split.
    + rewrite Hfiles.
      pose proof (stored_items_unreadable content sha Hbad) as Hitems.
      rewrite <- Hstored in Hitems.
      apply (written_one _ _ (update_for p [] rs)).
      * rewrite <- Hitems. by apply expected_delivered.
      * by apply expected_NoDup.
    + rewrite Hqueue. by eapply cleared_pending.
Qed.

Lemma logs_seen_no_repository api file :
  REPO_NAME ∉ repos api -> logs_seen api file = JArray [].
Proof.
  intros Hrepo. unfold logs_seen, served_content.
  rewrite bool_decide_eq_false_2 by done.
  by destruct (script api) as [|[|code] rest].
Qed.

Lemma planned_no_repository api entries :
  REPO_NAME ∉ repos api -> is_Some (planned api entries).
Proof.
  revert api. induction entries as [|[q acts] rest IH]; intros api Hrepo;
    [by eexists|].
  simpl. destruct (decide (length acts = 0%nat)); [by apply IH|].
  rewrite logs_seen_no_repository by done.
  destruct (IH (read_log (logFile q) api)) as [us ->]; [done|]. by eexists.
Qed.

Lemma planned_length api entries us :
  planned api entries = Some us -> length us = pending entries.
Proof.
  intros Hplan. apply planned_files in Hplan.
  apply (f_equal length) in Hplan. rewrite !length_fmap in Hplan.
  by rewrite Hplan.
Qed.

Lemma filter_none {A} (f : A -> bool) l :
  Forall (fun x => f x = false) l -> List.filter f l = [].
Proof. induction 1 as [|x l Hx _ IH]; simpl; [done|]. by rewrite Hx. Qed.

Lemma filter_all {A} (f : A -> bool) l :
  Forall (fun x => f x = true) l -> List.filter f l = l.
Proof. induction 1 as [|x l Hx _ IH]; simpl; [done|]. by rewrite Hx, IH. Qed.

(** X21. A flush while the tracker repository is missing loses every
    buffered record: each read of a log is answered with 404, which is
    taken for a log that is not there yet; the buffers are emptied; the
    first [updateFile] then finds no repository and throws, which ends the
    flush. No write is sent, the store is as it was, and the last line on
    the console is the error of [updateFile]. *)
Theorem flush_without_repository gm :
  isProcessingQueue gm = false ->
  JsMap.wf (activityQueue gm) ->
  REPO_NAME ∉ repos (githubApi gm) ->
  (0 < pending (activityQueue gm))%nat ->
  let gm' := (processActivityQueue gm).2 in
  Forall (fun e => e.2 = []) (activityQueue gm')
  /\ files (githubApi gm') = files (githubApi gm)
  /\ List.filter isWrite (trace (githubApi gm'))
     = List.filter isWrite (trace (githubApi gm))
  /\ exists cause,
       last (trace (githubApi gm'))
       = Some (Logged (plainError ("Failed to update file: "
                                   +:+ errorMessage cause)))
       /\ ((forall code, Failed code ∈ script (githubApi gm) -> code = 404) ->
           cause
           = plainError ("Repository " +:+ REPO_NAME +:+ " does not exist")).
Proof.
  intros Hidle Hwf Hrepo Hpending gm'. subst gm'.
  rewrite processActivityQueue_run, Hidle. simpl orb.
  assert (Hsize : (JsMap.size (activityQueue gm) =? 0) = false).
  { apply Z.eqb_neq. unfold JsMap.size.
    destruct (activityQueue gm); [|simpl; lia].
    unfold pending in Hpending. simpl in Hpending. lia. }
  rewrite Hsize. cbv zeta. set (gm0 := with_isProcessingQueue true gm).
  destruct (planned_no_repository (githubApi gm0) (activityQueue gm) Hrepo)
    as [us Hplan].
  pose proof (planned_length _ _ _ Hplan) as Hlen.
  rewrite (collectUpdates_planned _ _ _ _ Hplan). cbn [fst snd app].
  set (gm1 := with_activityQueue _ _).
  destruct us as [|u us]; [simpl in Hlen; lia|].
  rewrite executeUpdates_cons. cbv zeta.
  destruct (reads_store (githubApi gm) (activityQueue gm))
    as (Hf & Hr & _ & Hs & events1 & Htrace1 & Hev1).
  assert (Hrepo1 : REPO_NAME ∉ repos (githubApi gm1)) by (simpl; by rewrite Hr).
  destruct (updateFile_no_repository REPO_NAME (update_file u) (update_content u)
              (update_message u) (githubApi gm1) Hrepo1)
    as (refusal & cause & Htrace & Hthrow & Hfiles & Hcause & Hrefusal).
  rewrite Hthrow. cbn [fst snd].
  set (up := updateFile _ _ _ _ _) in *.
  split_and!.
  - simpl. by apply cleared_all_empty.
  - simpl. by rewrite Hfiles.
  - simpl. rewrite Htrace. simpl. rewrite Htrace1.
    rewrite !List.filter_app. simpl.
    rewrite (filter_none isWrite events1) by done. by rewrite !app_nil_r.
  - exists cause. split; [simpl; by rewrite last_snoc|].
    intros H404. apply Hcause. rewrite Hrefusal.
    destruct (script (githubApi gm1)) as [|[|code] rest] eqn:Hhead; try done.
    rewrite (H404 code); [done|].
    simpl in Hhead. rewrite Hs in Hhead.
    assert (Hin : Failed code ∈ drop (pending (activityQueue gm))
                                   (script (githubApi gm)))
      by (rewrite Hhead; by left).
    eapply elem_of_sublist; [done|apply sublist_drop].
Qed.
End QueueFacts.

(** ** What a flush does with the buffers *)

Section FlushPolicy.
Import GithubAPI GitManager.
Context {platform : Platform}.

(** A log that can be extended is taken over as an array, whatever the
    transport does to the read. *)
Lemma logs_seen_extendable api file :
  extendable (files api !! (REPO_NAME, file)) ->
  isArray (logs_seen api file) = true.
Proof.
  unfold logs_seen, served_content, extendable.
  destruct (script api) as [|[|code] rest]; try done;
    (destruct (bool_decide _); [|done]);
    (destruct (files api !! (REPO_NAME, file)) as [[content sha|]|]; try done);
    (destruct (decide (content = "")) as [|Hne]; [done|]);
    (intros [?|Hparse]; [done|]);
    by destruct (JSON_parse content) as [[]|].
Qed.

(** The first loop completes when every log it is to read can be extended. *)
Lemma planned_extendable api entries :
  (forall q acts, (q, acts) ∈ entries -> acts <> [] ->
     extendable (files api !! (REPO_NAME, logFile q))) ->
  is_Some (planned api entries).
Proof.
  revert api. induction entries as [|[q acts] rest IH]; intros api Hext.
  { by eexists. }
  assert (Hrest : forall api', files api' = files api ->
            is_Some (planned api' rest)).
  { intros api' Hfiles. apply IH. intros q' acts' Hin Hne. rewrite Hfiles.
    apply (Hext q' acts'); [by right|done]. }
  simpl. destruct (decide (length acts = 0%nat)) as [|Hlen]; [by apply Hrest|].
  assert (Harr : isArray (logs_seen api (logFile q)) = true).
  { apply logs_seen_extendable. apply (Hext q acts); [by left|].
    by destruct acts. }
  destruct (logs_seen api (logFile q)) as [| | | |items|]; try done.
  destruct (Hrest (read_log (logFile q) api) eq_refl) as [us ->]. by eexists.
Qed.

(** C6, amended. A flush that is not skipped because another one is under
    way works in two loops. The first loop sends no write, and when every
    log it reads can be taken over (which is so when the stored log of
    every project with records is absent, empty, not JSON or a JSON array),
    it leaves every buffer empty: that is before any write is sent, let
    alone confirmed. Whatever happens to the writes of the second loop,
    nothing is put back into the queue, and no log file is sent more than
    one write. The updates are written in order up to the first that fails;
    the failure is logged, and the logs of the updates from there on stay
    as they were: the records are in no buffer and in no log, and the next
    flush sends nothing. *)
Theorem flush_discards_on_failure gm :
  isProcessingQueue gm = false ->
  JsMap.wf (activityQueue gm) ->
  let r1 := collectUpdates (activityQueue gm) []
              (with_isProcessingQueue true gm) in
  let gm' := (processActivityQueue gm).2 in
  files (githubApi r1.2) = files (githubApi gm)
  /\ (exists events,
        trace (githubApi r1.2) = (trace (githubApi gm) ++ events)%list
        /\ Forall (fun e => isWrite e = false) events)
  /\ (forall updates u,
        r1.1 = Ok updates -> u ∈ updates ->
        exists q acts,
          (q, acts) ∈ activityQueue gm /\ acts <> []
          /\ update_file u = logFile q
          /\ JsMap.get q (activityQueue r1.2) = Some [])
  /\ activityQueue gm' = activityQueue r1.2
  /\ (exists events,
        trace (githubApi gm') = (trace (githubApi gm) ++ events)%list
        /\ forall path,
             (length (List.filter (isWriteTo REPO_NAME path) events) <= 1)%nat)
  /\ (forall updates,
        r1.1 = Ok updates ->
        exists done rest,
          updates = (done ++ rest)%list
          /\ files (githubApi gm')
          = written (platform := platform) done (files (githubApi gm))
          /\ (forall u, u ∈ rest ->
                files (githubApi gm') !! (REPO_NAME, update_file u)
                = files (githubApi gm) !! (REPO_NAME, update_file u))
          /\ (rest <> [] ->
              exists e, last (trace (githubApi gm')) = Some (Logged e)))
  /\ (forall updates,
        planned (githubApi gm) (activityQueue gm) = Some updates ->
        r1.1 = Ok updates
        /\ Forall (fun e => e.2 = []) (activityQueue r1.2)
        /\ Forall (fun e => e.2 = []) (activityQueue gm')
        /\ JsMap.keys (activityQueue gm') = JsMap.keys (activityQueue gm)
        /\ isProcessingQueue gm' = false
        /\ processActivityQueue gm' = (Ok tt, gm'))
  /\ ((forall q acts, (q, acts) ∈ activityQueue gm -> acts <> [] ->
         extendable (files (githubApi gm) !! (REPO_NAME, logFile q))) ->
      is_Some (planned (githubApi gm) (activityQueue gm))).
Proof.
  intros Hidle Hwf r1 gm'.
  destruct (flush_two_loops gm Hidle Hwf) as (H1 & H2 & H3 & H4 & H5 & H6).
  fold r1 in H1, H2, H3, H4, H6. fold gm' in H4, H5, H6.
  split_and!; try done; [|by apply planned_extendable].
  intros updates Hplan.
  assert (Hr1 : r1 = (Ok updates,
                      with_activityQueue
                        (cleared (activityQueue gm) (activityQueue gm))
                        (with_githubApi
                           (reads (githubApi gm) (activityQueue gm))
                           (with_isProcessingQueue true gm)))).
  { unfold r1. by rewrite (collectUpdates_planned _ _ _ updates). }
  assert (Hempty : Forall (fun e => e.2 = []) (activityQueue r1.2)).
  { rewrite Hr1. by apply cleared_all_empty. }
  assert (Hkeys : JsMap.keys (activityQueue r1.2)
                  = JsMap.keys (activityQueue gm)).
  { rewrite Hr1. apply cleared_keys. intros e He. by apply JsMap_elem_keys. }
  assert (Hidle' : isProcessingQueue gm' = false).
  { unfold gm'. rewrite processActivityQueue_run, Hidle. simpl orb.
    destruct (_ =? 0); [done|]. cbv zeta.
    destruct (collectUpdates _ _ _).1; [|done].
    by destruct (executeUpdates _ _).1. }
  split_and!; try done.
  - by rewrite Hr1.
  - by rewrite H4.
  - by rewrite H4.
  - apply processActivityQueue_idle; [done|]. by rewrite H4.
Qed.
End FlushPolicy.

Section FlushPolicyTrials.
Import GithubAPI GitManager Trial.

(** The write of the flush fails with status 502: the buffer of [P], which
    held two records, is empty, the stored log is the old one, and the
    next flush leaves everything as it is. *)
Lemma flush_discards_on_failure_witness :
  let gm := manager "[{id:1}]" [Delivered; Delivered; Delivered; Failed 502] in
  let gm' := (processActivityQueue (platform := platform) gm).2 in
  JsMap.get "P" (activityQueue gm) = Some [record1; record2]
  /\ Forall (fun e => e.2 = []) (activityQueue gm')
  /\ processActivityQueue (platform := platform) gm' = (Ok tt, gm')
  /\ exists done rest,
       [update_for (platform := platform) "P" [oldRecord] [record1; record2]]
       = (done ++ rest)%list
       /\ files (githubApi gm')
          = written (platform := platform) done (files (githubApi gm))
       /\ (forall u, u ∈ rest ->
             files (githubApi gm') !! (REPO_NAME, update_file u)
             = files (githubApi gm) !! (REPO_NAME, update_file u)).
Proof.
  intros gm gm'.
  assert (H1 : isProcessingQueue gm = false) by reflexivity.
  assert (H2 : JsMap.wf (activityQueue gm)) by (unfold JsMap.wf; compute_done).
  assert (H3 : planned (platform := platform) (githubApi gm) (activityQueue gm)
               = Some [update_for (platform := platform) "P" [oldRecord]
                         [record1; record2]]) by reflexivity.
  destruct (flush_discards_on_failure (platform := platform) gm H1 H2)
    as (_ & _ & _ & _ & _ & Hwrites & Hplanned & _).
  destruct (Hplanned _ H3) as (Hok & _ & Hempty & _ & _ & Hnext).
  destruct (Hwrites _ Hok) as (done & rest & Ha & Hb & Hc & _).
  split_and!; [reflexivity|exact Hempty|exact Hnext|].
  exists done, rest. split_and!; [exact Ha|exact Hb|exact Hc].
Defined.

(** C6, as the specification states it, fails: not every flush attempt
    empties the buffer. A flush that finds the stored log of [P] to be an
    object stops at [logs.push]: the two records stay in the buffer,
    nothing is written, and the error is the last line on the error
    console. And a flush that is called while another one is under way
    returns at once and leaves the buffer as it is. *)
Lemma flush_stops_on_a_log_that_is_no_array :
  let gm := manager "{}" [] in
  let gm' := (processActivityQueue (platform := platform) gm).2 in
  let busy := with_isProcessingQueue true (manager "[{id:1}]" []) in
  isProcessingQueue gm = false
  /\ JsMap.get "P" (activityQueue gm) = Some [record1; record2]
  /\ JsMap.get "P" (activityQueue gm') = Some [record1; record2]
  /\ files (githubApi gm') !! (REPO_NAME, logFile "P")
     = Some (File "{}" "sha0")
  /\ List.filter isWrite (trace (githubApi gm')) = []
  /\ last (trace (githubApi gm'))
     = Some (Logged (plainError "logs.push is not a function"))
  /\ JsMap.get "P"
       (activityQueue (processActivityQueue (platform := platform) busy).2)
     = Some [record1; record2].
Proof. by vm_compute. Qed.
End FlushPolicyTrials.

(** ** Traffic, repeated flushes, saves and the setup *)

Section TrafficFacts.
Import GithubAPI GitManager Traffic.
Context {platform : Platform}.

(** The events of the reads of the first loop: one request for each
    project with something to flush. *)
Lemma reads_events api entries :
  exists events,
    trace (reads api entries) = (trace api ++ events)%list
    /\ length events = pending entries
    /\ Forall (fun e => isRequest e = true /\ isWrite e = false
                        /\ isWait e = false) events.
Proof.
  revert api. induction entries as [|[project activities] rest IH]; intros api.
  - exists []. by rewrite app_nil_r.
  - simpl. rewrite pending_cons.
    destruct (decide (length activities = 0%nat)); [apply IH|].
    destruct (IH (read_log (logFile project) api)) as (events & -> & Hlen & Hev).
    eexists (_ :: events). unfold read_log. simpl. rewrite <- app_assoc.
    split_and!; [done|by rewrite Hlen|by constructor].
Qed.

(** The events of the second loop when every write goes through: three
    requests and a wait for each update. *)
Lemma executeUpdates_events updates gm :
  reliable (githubApi gm) -> REPO_NAME ∈ repos (githubApi gm) ->
  (forall u, u ∈ updates ->
     files (githubApi gm) !! (REPO_NAME, update_file u) <> Some Directory) ->
  exists events,
    trace (githubApi (executeUpdates updates gm).2)
    = (trace (githubApi gm) ++ events)%list
    /\ length (List.filter isRequest events) = (3 * length updates)%nat
    /\ length (List.filter isWrite events) = length updates
    /\ List.filter isWait events = replicate (length updates) (Slept 1000)
    /\ Forall (fun e => isRequest e = true \/ isWait e = true) events.
Proof.
  revert gm. induction updates as [|u us IH]; intros gm Hrel Hrepo Hfiles.
  { exists []. by rewrite app_nil_r. }
  rewrite executeUpdates_cons. cbv zeta.
  destruct (updateFile_reliable REPO_NAME (update_file u) (update_content u)
              (update_message u) (githubApi gm) Hrel Hrepo)
    as [Hok Hrel']; [apply Hfiles; by left|].
  destruct (updateFile_store REPO_NAME (update_file u) (update_content u)
              (update_message u) (githubApi gm)) as (_ & Hrepos & Hstore).
  destruct (updateFile_Ok _ _ _ _ _ Hok) as (_ & _ & read & Htrace).
  rewrite Hok in Hstore |- *.
  set (r := updateFile _ _ _ _ _) in *.
  set (gm1 := with_githubApi _ gm).
  destruct (IH gm1) as (events & Hev & Hreq & Hwr & Hwait & Hall).
  - done.
  - simpl. by rewrite Hrepos.
  - intros u' Hu'. simpl. rewrite Hstore.
    destruct (decide (update_file u = update_file u')) as [Heq|Hne].
    + by rewrite Heq, lookup_insert_eq.
    + rewrite lookup_insert_ne by congruence. apply Hfiles. by right.
  - eexists (_ :: _ :: _ :: Slept 1000 :: events). split_and!.
    + rewrite Hev. simpl. rewrite Htrace. by rewrite <- !app_assoc.
    + simpl. rewrite Hreq. lia.
    + simpl. by rewrite Hwr.
    + simpl. by rewrite Hwait.
    + repeat (constructor; [by (left + right)|]). done.
Qed.

Lemma expected_length sc stored entries :
  length (expected sc stored entries) = pending entries.
Proof.
  revert sc. induction entries as [|[q acts] rest IH]; intros sc; [done|].
  simpl. rewrite pending_cons.
  destruct (decide (length acts = 0%nat)); [apply IH|]. simpl. by rewrite IH.
Qed.

(** X22. The traffic of a flush that goes through, with [n] projects that
    have records: [n] reads of logs, then for each project the three
    requests of [updateFile] (one of them the write) and a wait of one
    second. So [4 * n] requests, [n] of them writes, and [n] seconds of
    waiting; [console.error] is never called. *)
Theorem flush_traffic gm :
  isProcessingQueue gm = false ->
  JsMap.wf (activityQueue gm) ->
  reliable (githubApi gm) ->
  REPO_NAME ∈ repos (githubApi gm) ->
  (forall q acts, (q, acts) ∈ activityQueue gm -> acts <> [] ->
     extendable (files (githubApi gm) !! (REPO_NAME, logFile q))) ->
  let gm' := (processActivityQueue gm).2 in
  let n := pending (activityQueue gm) in
  exists events,
    trace (githubApi gm') = (trace (githubApi gm) ++ events)%list
    /\ length (List.filter isRequest events) = (4 * n)%nat
    /\ length (List.filter isWrite events) = n
    /\ List.filter isWait events = replicate n (Slept 1000)
    /\ Forall (fun e => isRequest e = true \/ isWait e = true) events.
Proof.
  intros Hidle Hwf Hrel Hrepo Hext gm' n. subst gm' n.
  rewrite processActivityQueue_run, Hidle. simpl orb.
  destruct (JsMap.size (activityQueue gm) =? 0) eqn:Hsize.
  { apply Z.eqb_eq in Hsize. unfold JsMap.size in Hsize.
    destruct (activityQueue gm); [|simpl in Hsize; lia].
    exists []. by rewrite app_nil_r. }
  cbv zeta. set (gm0 := with_isProcessingQueue true gm).
  set (updates := expected (script (githubApi gm)) (files (githubApi gm))
                    (activityQueue gm)).
  assert (Hplan : planned (githubApi gm0) (activityQueue gm) = Some updates).
  { apply planned_expected; [done|]. by apply readable_delivered. }
  rewrite (collectUpdates_planned _ _ _ _ Hplan). cbn [fst snd app].
  set (gm1 := with_activityQueue _ _).
  destruct (reads_store (githubApi gm) (activityQueue gm))
    as (Hf & Hr & _ & Hs & _).
  destruct (reads_events (githubApi gm) (activityQueue gm))
    as (events1 & Htrace1 & Hlen1 & Hall1).
  assert (Hrel1 : reliable (githubApi gm1)).
  { unfold reliable. simpl. rewrite Hs. by apply Forall_drop. }
  assert (Hrepo1 : REPO_NAME ∈ repos (githubApi gm1)) by (simpl; by rewrite Hr).
  assert (Hdir1 : forall u, u ∈ updates ->
            files (githubApi gm1) !! (REPO_NAME, update_file u) <> Some Directory).
  { intros u Hu. simpl. rewrite Hf.
    apply expected_inv in Hu as (q & acts & Hin & Hne & ->).
    intros Hd. specialize (Hext q acts Hin Hne). by rewrite Hd in Hext. }
  destruct (executeUpdates_reliable updates gm1 Hrel1 Hrepo1 Hdir1) as (Hok & _).
  destruct (executeUpdates_events updates gm1 Hrel1 Hrepo1 Hdir1)
    as (events2 & Htrace2 & Hreq2 & Hwr2 & Hwait2 & Hall2).
  rewrite Hok. unfold updates in Hreq2, Hwr2, Hwait2.
  rewrite expected_length in Hreq2, Hwr2, Hwait2.
  exists (events1 ++ events2)%list. split_and!.
  - simpl. rewrite Htrace2. simpl. rewrite Htrace1. by rewrite <- app_assoc.
  - rewrite List.filter_app, length_app, Hreq2.
    rewrite filter_all by (eapply Forall_impl; [done|]; by intros ? (? & _)).
    lia.
  - rewrite List.filter_app, length_app, Hwr2.
    rewrite filter_none by (eapply Forall_impl; [done|]; by intros ? (_ & ? & _)).
    done.
  - rewrite List.filter_app, Hwait2.
    rewrite filter_none by (eapply Forall_impl; [done|]; by intros ? (_ & _ & ?)).
    done.
  - apply Forall_app. split; [|done].
    eapply Forall_impl; [done|]. intros ? (? & _). by left.
Qed.
End TrafficFacts.

Section Accumulate.
Import GithubAPI GitManager.
Context {platform : Platform}.

Lemma updateFile_keeps_reliable repo path content message api :
  reliable api -> reliable (updateFile repo path content message api).2.
Proof.
  intros Hrel. rewrite updateFile_run. cbv zeta.
  assert (H1 : forall e, reliable (after e api)) by (intros; by apply reliable_after).
  assert (H2 : forall e e', reliable (after e' (after e api)))
    by (intros; by apply reliable_after).
  assert (H3 : forall e e' e'', reliable (after e'' (after e' (after e api))))
    by (intros; by apply reliable_after).
  destruct (served_get repo api) as [[]|e1].
  - destruct (served_content _ _ _) as [e0|e2].
    + destruct (served_write _ _ _ _) as [[]|e3]; apply H3.
    + destruct (decide (status e2 = Some 404)); [|apply H2].
      destruct (served_write _ _ _ _) as [[]|e3]; apply H3.
  - destruct (decide (status e1 = Some 404)); apply H1.
Qed.

Lemma executeUpdates_keeps_reliable updates gm :
  reliable (githubApi gm) -> reliable (githubApi (executeUpdates updates gm).2).
Proof.
  revert gm. induction updates as [|u us IH]; intros gm Hrel; [done|].
  rewrite executeUpdates_cons. cbv zeta.
  pose proof (updateFile_keeps_reliable REPO_NAME (update_file u)
                (update_content u) (update_message u) (githubApi gm) Hrel) as Hr.
  destruct (updateFile _ _ _ _ _).1 as [[]|e]; [|done].
  apply IH. done.
Qed.

Lemma collectUpdates_keeps_reliable entries updates gm :
  reliable (githubApi gm) ->
  reliable (githubApi (collectUpdates entries updates gm).2).
Proof.
  revert updates gm.
  induction entries as [|[project activities] rest IH]; intros updates gm Hrel;
    [done|].
  rewrite collectUpdates_cons. cbv zeta.
  destruct (decide (length activities = 0%nat)); [by apply IH|].
  assert (Hr : reliable (read_log (logFile project) (githubApi gm)))
    by (by apply reliable_after).
  destruct (logs_seen (githubApi gm) (logFile project)); try done.
  by apply IH.
Qed.

Lemma processActivityQueue_keeps_reliable gm :
  reliable (githubApi gm) -> reliable (githubApi (processActivityQueue gm).2).
Proof.
  intros Hrel. rewrite processActivityQueue_run.
  destruct (_ || _); [done|]. cbv zeta.
  pose proof (collectUpdates_keeps_reliable (activityQueue gm) []
                (with_isProcessingQueue true gm) Hrel) as H1.
  set (r1 := collectUpdates _ _ _) in *.
  destruct (r1.1) as [updates|e]; [|done].
  pose proof (executeUpdates_keeps_reliable updates r1.2 H1) as H2.
  by destruct (executeUpdates updates r1.2).1.
Qed.

Lemma logActivities_state activities gm :
  githubApi (logActivities activities gm) = githubApi gm
  /\ isProcessingQueue (logActivities activities gm) = isProcessingQueue gm
  /\ (JsMap.wf (activityQueue gm) ->
      JsMap.wf (activityQueue (logActivities activities gm)))
  /\ (forall q, (forall a, a ∈ activities -> project a <> q) ->
        JsMap.get q (activityQueue (logActivities activities gm))
        = JsMap.get q (activityQueue gm)).
Proof.
  revert gm. induction activities as [|a rest IH]; intros gm; [done|].
  unfold logActivities. simpl. fold (logActivities rest (logActivity a gm).2).
  destruct (logActivity_run a gm) as (_ & _ & Hother & Hapi & Hbusy & _ & Hwf).
  destruct (IH (logActivity a gm).2) as (IH1 & IH2 & IH3 & IH4).
  split_and!.
  - by rewrite IH1.
  - by rewrite IH2.
  - intros Hwf0. by apply IH3, Hwf.
  - intros q Hq. rewrite IH4.
    + apply Hother. intros ->. by apply (Hq a); [left|].
    + intros a' Ha'. apply Hq. by right.
Qed.

(** X23. Two flushes in a row add up. When a flush has gone through, more
    records of the project are logged and a second flush goes through, the
    log holds what was stored at the start, then the records of the first
    flush, then the records of the second, each once and in the order in
    which they were logged. The text the first flush wrote has to be read
    back as the array it was printed from. *)
Theorem flushes_accumulate gm p rs1 rs2 :
  isProcessingQueue gm = false ->
  JsMap.wf (activityQueue gm) ->
  reliable (githubApi gm) ->
  REPO_NAME ∈ repos (githubApi gm) ->
  (forall q acts, (q, acts) ∈ activityQueue gm -> acts <> [] ->
     extendable (files (githubApi gm) !! (REPO_NAME, logFile q))) ->
  JsMap.get p (activityQueue gm) = Some rs1 -> rs1 <> [] ->
  rs2 <> [] -> (forall a, a ∈ rs2 -> project a = p) ->
  let items := stored_items (files (githubApi gm) !! (REPO_NAME, logFile p)) in
  let log1 := JSON_stringify (JArray (items ++ (toJson <$> rs1))%list) 2 in
  let log2 := JSON_stringify (JArray (items ++ (toJson <$> (rs1 ++ rs2)))%list) 2 in
  log1 <> "" ->
  JSON_parse log1 = Some (JArray (items ++ (toJson <$> rs1))%list) ->
  let gm1 := (processActivityQueue gm).2 in
  let gm2 := logActivities rs2 gm1 in
  let gm3 := (processActivityQueue gm2).2 in
  files (githubApi gm1) !! (REPO_NAME, logFile p) = Some (File log1 (blob_sha log1))
  /\ files (githubApi gm3) !! (REPO_NAME, logFile p)
     = Some (File log2 (blob_sha log2))
  /\ JsMap.get p (activityQueue gm3) = Some [].
Proof.
  intros Hidle Hwf Hrel Hrepo Hext Hget Hrs1 Hrs2 Hp items log1 log2 Hne Hparse
    gm1 gm2 gm3.
  apply JsMap_get_elem_of in Hget as Hin; [|done].
  assert (Hdir : forall q acts, (q, acts) ∈ activityQueue gm -> acts <> [] ->
            files (githubApi gm) !! (REPO_NAME, logFile q) <> Some Directory).
  { intros q acts Hq Hacts Hd. specialize (Hext q acts Hq Hacts).
    by rewrite Hd in Hext. }
  (* the first flush *)
  destruct (flush_completes gm) as (Hfiles1 & Hqueue1 & Hidle1); try done.
  { intros Hnil. rewrite Hnil in Hin. by apply elem_of_nil in Hin. }
  { by apply readable_delivered. }
  { by apply Forall_drop. }
  fold gm1 in Hfiles1, Hqueue1, Hidle1.
  assert (Hlog1 : files (githubApi gm1) !! (REPO_NAME, logFile p)
                  = Some (File log1 (blob_sha log1))).
  { rewrite Hfiles1. apply (written_one _ _ (update_for p items rs1)).
    - by apply expected_delivered.
    - by apply expected_NoDup. }
  pose proof (processActivityQueue_repos gm) as Hrepos1. fold gm1 in Hrepos1.
  assert (Hkeys1 : JsMap.keys (activityQueue gm1)
                   = JsMap.keys (activityQueue gm)).
  { rewrite Hqueue1. apply cleared_keys. intros e He.
    by apply JsMap_elem_keys. }
  assert (Hrel1 : reliable (githubApi gm1))
    by (by apply processActivityQueue_keeps_reliable).
  assert (Hwf1 : JsMap.wf (activityQueue gm1)).
  { unfold JsMap.wf. by rewrite Hkeys1. }
  assert (Hempty1 : Forall (fun e => e.2 = []) (activityQueue gm1)).
  { rewrite Hqueue1. by apply cleared_all_empty. }
  assert (Hp1 : JsMap.get p (activityQueue gm1) = Some []).
  { rewrite Hqueue1. by eapply cleared_pending. }
  (* the records logged after it *)
  destruct (logActivities_state rs2 gm1) as (Hapi2 & Hidle2 & Hwf2 & Hother2).
  fold gm2 in Hapi2, Hidle2, Hwf2, Hother2. specialize (Hwf2 Hwf1).
  assert (Hp2 : JsMap.get p (activityQueue gm2) = Some rs2).
  { unfold gm2. rewrite logActivities_order by done. by rewrite Hp1. }
  assert (Hothers : forall q acts, (q, acts) ∈ activityQueue gm2 -> acts <> [] ->
                      q = p).
  { intros q acts Hq Hacts. destruct (decide (q = p)) as [|Hqp]; [done|].
    apply JsMap_get_elem_of in Hq; [|done].
    rewrite Hother2 in Hq by (intros a Ha; by rewrite (Hp a Ha)).
    apply JsMap_get_elem_of in Hq; [|done].
    eapply Forall_forall in Hempty1; [|done]. simpl in Hempty1. done. }
  (* the second flush *)
  destruct (flush_completes gm2) as (Hfiles3 & Hqueue3 & _); try done.
  { by rewrite Hidle2. }
  { intros Hnil. by rewrite Hnil in Hp2. }
  { by rewrite Hapi2, Hrepos1. }
  { apply readable_delivered; [by rewrite Hapi2|].
    intros q acts Hq Hacts. rewrite (Hothers q acts Hq Hacts), Hapi2, Hlog1.
    simpl. right. by rewrite Hparse. }
  { rewrite Hapi2. by apply Forall_drop. }
  { intros q acts Hq Hacts. by rewrite (Hothers q acts Hq Hacts), Hapi2, Hlog1. }
  fold gm3 in Hfiles3, Hqueue3.
  split_and!; [done| |].
  - rewrite Hfiles3, Hapi2.
    assert (Hitems : stored_items (files (githubApi gm1) !! (REPO_NAME, logFile p))
                     = (items ++ (toJson <$> rs1))%list).
    { rewrite Hlog1. unfold stored_items. by rewrite decide_False, Hparse. }
    assert (Hlog2 : log2 = update_content
                             (update_for p (items ++ (toJson <$> rs1))%list rs2)).
    { unfold log2. simpl. by rewrite fmap_app, app_assoc. }
    rewrite Hlog2, <- Hitems.
    apply (written_one _ _
             (update_for p (stored_items
                              (files (githubApi gm1) !! (REPO_NAME, logFile p)))
                rs2)).
    + apply expected_delivered; [done| |done].
      by apply JsMap_get_elem_of.
    + by apply expected_NoDup.
  - rewrite Hqueue3. eapply cleared_pending; [|done]. by apply JsMap_get_elem_of.
Qed.
End Accumulate.

Section SaveFacts.
Import ActivityTracker Extension.
Variable now : Z -> string.
Variable document : Document.

(** A capture with the git manager of this repository behind it: the one
    try is accepted. *)
Lemma logFileActivity_accepted t gm :
  isTracking t = true -> 0 < retryAttempts t ->
  let a := buildActivityLog now document (trackCodeChanges document t).1 0 in
  logFileActivity GitManager.logActivity now document t gm
  = ((trackCodeChanges document t).2, (GitManager.logActivity a gm).2,
     [LogActivity a None]).
Proof.
  intros Htr Hpos a. unfold logFileActivity. rewrite Htr. simpl negb. cbv iota.
  destruct (Z.to_nat (retryAttempts t)) as [|fuel] eqn:Hfuel; [lia|].
  rewrite retry_loop_round by done. fold a.
  destruct (logActivity_run a gm) as (Hok & _).
  destruct (GitManager.logActivity a gm) as [[[]|e] gm'] eqn:Hcall; [done|].
  by simpl in Hok.
Qed.

(** X24. The save listener of the extension. While the activation has not
    built a tracker the listener throws; while the tracker is stopped (or
    was made with no tries) a save changes nothing. Otherwise a save puts
    exactly one record, with retry count 0, at the end of the buffer of
    the project of the saved file, takes the snapshot of the file, leaves
    the other buffers and the client alone and sets the flush timer. The
    first save after the activation gives a queue with that one record. *)
Theorem save_buffers_one_record t gm :
  let a := buildActivityLog now document (trackCodeChanges document t).1 0 in
  let p := getProjectName document in
  (exists e, onDidSaveTextDocument now document None = (Throw e, None, []))
  /\ (isTracking t = false \/ retryAttempts t <= 0 ->
      onDidSaveTextDocument now document (Some (t, gm)) = (Ok tt, Some (t, gm), []))
  /\ (isTracking t = true -> 0 < retryAttempts t ->
      exists gm',
        onDidSaveTextDocument now document (Some (t, gm))
        = (Ok tt, Some ((trackCodeChanges document t).2, gm'),
           [LogActivity a None])
        /\ JsMap.get p (GitManager.activityQueue gm')
           = Some (default [] (JsMap.get p (GitManager.activityQueue gm)) ++ [a])%list
        /\ (forall q, q <> p ->
              JsMap.get q (GitManager.activityQueue gm')
              = JsMap.get q (GitManager.activityQueue gm))
        /\ GitManager.githubApi gm' = GitManager.githubApi gm
        /\ GitManager.queueProcessInterval gm' = true)
  /\ (forall api,
        exists gm',
          (onDidSaveTextDocument now document (activated api)).1.2
          = Some ((trackCodeChanges document (start (new noOptions))).2, gm')
          /\ GitManager.activityQueue gm'
             = [(p, [buildActivityLog now document
                       (trackCodeChanges document (start (new noOptions))).1 0])]).
Proof.
  intros a p. split_and!.
  - by eexists.
  - intros Hoff. simpl. destruct (isTracking t) eqn:Htr; [|done].
    destruct Hoff as [?|Hzero]; [done|].
    unfold logFileActivity. rewrite Htr. simpl negb. cbv iota.
    by rewrite retry_loop_done.
  - intros Htr Hpos. exists (GitManager.logActivity a gm).2.
    simpl. rewrite Htr, logFileActivity_accepted by done. fold a.
    destruct (logActivity_run a gm) as (_ & Hget & Hother & Hapi & _ & Htimer & _).
    by split_and!.
  - intros api. eexists. unfold activated. simpl.
    rewrite logFileActivity_accepted by done. cbn [fst snd]. split; [done|].
    rewrite logActivity_queue. simpl. by rewrite decide_True.
Qed.
End SaveFacts.

Section SaveAndFlush.
Import ActivityTracker GithubAPI GitManager.
Context {platform : Platform}.
Variable now : Z -> string.
Variable document : Document.

Lemma extendable_not_directory e : extendable e -> e <> Some Directory.
Proof. by intros Hext ->. Qed.

(** X25. From a save to the repository: when the file is saved while the
    tracker runs and the flush that follows goes through, the log of the
    project of the saved file holds what it held, then the records that
    were waiting, then the record of this save, which is the last entry;
    and the buffer is empty. *)
Theorem save_then_flush_stores_record t gm :
  isTracking t = true -> 0 < retryAttempts t ->
  isProcessingQueue gm = false ->
  JsMap.wf (activityQueue gm) ->
  reliable (githubApi gm) ->
  REPO_NAME ∈ repos (githubApi gm) ->
  (forall q, extendable (files (githubApi gm) !! (REPO_NAME, logFile q))) ->
  let a := buildActivityLog now document (trackCodeChanges document t).1 0 in
  let p := getProjectName document in
  let saved := logFileActivity logActivity now document t gm in
  let gm' := (processActivityQueue saved.1.2).2 in
  let log :=
    JSON_stringify
      (JArray (stored_items (files (githubApi gm) !! (REPO_NAME, logFile p))
               ++ (toJson <$> (default [] (JsMap.get p (activityQueue gm))
                               ++ [a])))%list) 2 in
  saved.2 = [LogActivity a None]
  /\ files (githubApi gm') !! (REPO_NAME, logFile p)
     = Some (File log (blob_sha log))
  /\ JsMap.get p (activityQueue gm') = Some [].
Proof.
  intros Htr Hpos Hidle Hwf Hrel Hrepo Hext a p saved gm' log.
  subst gm' saved. rewrite logFileActivity_accepted by done. fold a.
  cbn [fst snd].
  destruct (logActivity_run a gm) as (_ & Hget & _ & Hapi & Hbusy & _ & Hwf').
  set (gm1 := (logActivity a gm).2) in *.
  change (project a) with p in Hget.
  set (rs := (default [] (JsMap.get p (activityQueue gm)) ++ [a])%list) in *.
  assert (Hrs : rs <> []) by (unfold rs; by destruct (default _ _)).
  apply JsMap_get_elem_of in Hget; [|by apply Hwf'].
  destruct (flush_completes gm1) as (Hfiles & Hqueue & _).
  - by rewrite Hbusy.
  - intros Hnil. rewrite Hnil in Hget. by apply elem_of_nil in Hget.
  - by apply Hwf'.
  - by rewrite Hapi.
  - apply readable_delivered; [by rewrite Hapi|]. intros q acts _ _.
    rewrite Hapi. apply Hext.
  - rewrite Hapi. by apply Forall_drop.
  - intros q acts _ _. rewrite Hapi. apply extendable_not_directory, Hext.
  - split_and!; [done| |].
    + rewrite Hfiles, Hapi.
      apply (written_one _ _
               (update_for p (stored_items
                                (files (githubApi gm) !! (REPO_NAME, logFile p)))
                  rs)).
      * by apply expected_delivered.
      * apply expected_NoDup. by apply Hwf'.
    + rewrite Hqueue. by eapply cleared_pending.
Qed.
End SaveAndFlush.

Section ProfileFacts.
Import GithubAPI GitManager.
Context {platform : Platform}.

(** X26. [ensureProfileReadme]: when it returns normally the README of the
    profile repository holds the new text. When it throws, the store is as
    it was and the error is the last line on the console. When the stored
    README is the new text already (and is not empty), nothing is written:
    the one request is the read. The queue is never touched. *)
Theorem ensureProfileReadme_postcondition updatedContent gm :
  let r := ensureProfileReadme updatedContent gm in
  let user := username (githubApi gm) in
  (r.1 = Ok tt ->
   exists sha,
     files (githubApi r.2) !! (user, "README.md")
     = Some (File updatedContent sha))
  /\ (forall e, r.1 = Throw e ->
        files (githubApi r.2) = files (githubApi gm)
        /\ last (trace (githubApi r.2)) = Some (Logged e))
  /\ (forall sha,
        (forall code rest, script (githubApi gm) <> Failed code :: rest) ->
        user ∈ repos (githubApi gm) ->
        files (githubApi gm) !! (user, "README.md")
        = Some (File updatedContent sha) ->
        updatedContent <> "" ->
        r.1 = Ok tt
        /\ files (githubApi r.2) = files (githubApi gm)
        /\ trace (githubApi r.2)
           = (trace (githubApi gm)
              ++ [Exchange (ReposGetContent user "README.md")
                    (Data (File updatedContent sha))])%list)
  /\ activityQueue r.2 = activityQueue gm.
Proof.
  intros r user. subst r user. rewrite ensureProfileReadme_run. cbv zeta.
  set (api := githubApi gm). set (user := username api).
  set (read := served_content user "README.md" api).
  set (api1 := after _ api).
  set (up := updateFile user "README.md" updatedContent
               "Update profile README with visualizations" api1).
  destruct (updateFile_store user "README.md" updatedContent
              "Update profile README with visualizations" api1)
    as (_ & _ & Hstore).
  fold up in Hstore.
  assert (Hupdate :
    let r := match up.1 with
             | Ok _ => (Ok tt, with_githubApi up.2 gm)
             | Throw e =>
                 (Throw e,
                  with_githubApi (with_trace (trace up.2 ++ [Logged e]) up.2) gm)
             end in
    (r.1 = Ok tt ->
     exists sha,
       files (githubApi r.2) !! (user, "README.md")
       = Some (File updatedContent sha))
    /\ (forall e, r.1 = Throw e ->
          files (githubApi r.2) = files api
          /\ last (trace (githubApi r.2)) = Some (Logged e))
    /\ activityQueue r.2 = activityQueue gm).
  { cbv zeta. destruct (up.1) as [[]|e]; cbn [fst snd].
    - split_and!; [|done|done]. intros _. eexists. simpl.
      rewrite Hstore. by rewrite lookup_insert_eq.
    - split_and!; [done| |done]. intros e' [= <-]. simpl.
      split; [done|]. by rewrite last_snoc. }
  cbv zeta in Hupdate. destruct Hupdate as (Hup1 & Hup2 & Hup3).
  assert (Hfresh : forall sha,
    (forall code rest, script api <> Failed code :: rest) ->
    user ∈ repos api ->
    files api !! (user, "README.md") = Some (File updatedContent sha) ->
    read = Ok (File updatedContent sha)).
  { intros sha Hscript Hrepo Hfile. unfold read, served_content.
    rewrite bool_decide_eq_true_2, Hfile by done.
    destruct (script api) as [|[|code] rest] eqn:Hs; try done.
    by destruct (Hscript code rest). }
  destruct read as [[content sha0|]|e0] eqn:Hread.
  - destruct (negb (bool_decide (content = ""))
              && bool_decide (content = updatedContent)) eqn:Hsame.
    + apply andb_true_iff in Hsame as [_ ->%bool_decide_eq_true].
      apply served_content_Ok in Hread as [Hfile _].
      split_and!; [|done| |done].
      * intros _. exists sha0. done.
      * intros sha Hscript Hrepo Hfile' Hne. rewrite Hfile in Hfile'.
        injection Hfile' as ->. done.
    + split_and!; [done|done| |done].
      intros sha Hscript Hrepo Hfile Hne.
      specialize (Hfresh sha Hscript Hrepo Hfile). injection Hfresh as -> ->.
      rewrite bool_decide_eq_false_2, bool_decide_eq_true_2 in Hsame by done.
      done.
  - split_and!; [done| | |done].
    + intros e [= <-]. simpl. split; [done|]. by rewrite last_snoc.
    + intros sha Hscript Hrepo Hfile Hne. by specialize (Hfresh sha Hscript Hrepo Hfile).
  - destruct (decide (status e0 = Some 404)).
    + split_and!; [done|done| |done].
      intros sha Hscript Hrepo Hfile Hne. by specialize (Hfresh sha Hscript Hrepo Hfile).
    + split_and!; [done| | |done].
      * intros e [= <-]. simpl. split; [done|]. by rewrite last_snoc.
      * intros sha Hscript Hrepo Hfile Hne. by specialize (Hfresh sha Hscript Hrepo Hfile).
Qed.
End ProfileFacts.

Section SetupFacts.
Import GithubAPI GitManager RepositorySetup.
Context {platform : Platform}.
Variables getInitialReadme getProfileScript : string.

Lemma createFiles_cons file rest gm :
  createFiles (file :: rest) gm
  = let r := updateFile REPO_NAME (file_path file) (file_content file)
               ("Initialize " +:+ file_path file) (githubApi gm) in
    match r.1 with
    | Ok _ =>
        createFiles rest
          (with_githubApi (with_trace (trace r.2 ++ [Slept 1000]) r.2) gm)
    | Throw e => (Throw e, with_githubApi r.2 gm)
    end.
Proof.
  cbn [createFiles]. unfold record. unfold_M. rewrite call_run.
  destruct (updateFile _ _ _ _ _) as [[[]|e] api']; [|done].
  cbn [fst snd]. by rewrite call_run.
Qed.

(** The loop makes the files in order up to the first that fails, and
    touches nothing else. *)
Lemma createFiles_any files gm :
  let r := createFiles files gm in
  activityQueue r.2 = activityQueue gm
  /\ isProcessingQueue r.2 = isProcessingQueue gm
  /\ queueProcessInterval r.2 = queueProcessInterval gm
  /\ repos (githubApi r.2) = repos (githubApi gm)
  /\ exists done rest,
       files = (done ++ rest)%list
       /\ GithubAPI.files (githubApi r.2) = made done (GithubAPI.files (githubApi gm))
       /\ match r.1 with Ok _ => rest = [] | Throw _ => rest <> [] end.
Proof.
  revert gm. induction files as [|f fs IH]; intros gm.
  { simpl. split_and!; try done. by exists [], []. }
  rewrite createFiles_cons. cbv zeta.
  destruct (updateFile_store REPO_NAME (file_path f) (file_content f)
              ("Initialize " +:+ file_path f) (githubApi gm))
    as (_ & Hrepos & Hstore).
  set (r := updateFile _ _ _ _ _) in *.
  destruct (r.1) as [[]|e] eqn:Hr.
  - set (gm1 := with_githubApi _ gm).
    destruct (IH gm1) as (IH1 & IH2 & IH3 & IH4 & done & rest & -> & IH5 & IH6).
    split_and!; try done.
    + by rewrite IH4.
    + exists (f :: done), rest. split_and!; [done| |done].
      rewrite IH5. simpl. by rewrite Hstore.
  - simpl. split_and!; try done. exists [], (f :: fs). by split_and!.
Qed.

Lemma made_other files stored key :
  key ∉ (fun f => (REPO_NAME, file_path f)) <$> files ->
  made files stored !! key = stored !! key.
Proof.
  revert stored. induction files as [|f fs IH]; intros stored Hnot; [done|].
  simpl in Hnot. apply not_elem_of_cons in Hnot as [Hne Hnot].
  change (made (f :: fs) stored)
    with (made fs (<[(REPO_NAME, file_path f)
                     := File (file_content f) (blob_sha (file_content f))]> stored)).
  rewrite IH by done. by rewrite lookup_insert_ne.
Qed.

Lemma made_one files stored f :
  f ∈ files -> NoDup (file_path <$> files) ->
  made files stored !! (REPO_NAME, file_path f)
  = Some (File (file_content f) (blob_sha (file_content f))).
Proof.
  revert stored. induction files as [|f' fs IH]; intros stored Hin Hnd.
  { by apply elem_of_nil in Hin. }
  simpl in Hnd. apply NoDup_cons in Hnd as [Hfresh Hnd].
  change (made (f' :: fs) stored)
    with (made fs (<[(REPO_NAME, file_path f')
                     := File (file_content f') (blob_sha (file_content f'))]> stored)).
  apply elem_of_cons in Hin as [->|Hin].
  - rewrite made_other; [by rewrite lookup_insert_eq|].
    intros ([g ?] & [= Hg] & Hg')%list_elem_of_fmap. apply Hfresh.
    apply list_elem_of_fmap. eexists. split; [|done]. done.
  - by apply IH.
Qed.

Lemma createFiles_reliable files gm :
  reliable (githubApi gm) -> REPO_NAME ∈ repos (githubApi gm) ->
  (forall f, f ∈ files ->
     GithubAPI.files (githubApi gm) !! (REPO_NAME, file_path f) <> Some Directory) ->
  (createFiles files gm).1 = Ok tt.
Proof.
  revert gm. induction files as [|f fs IH]; intros gm Hrel Hrepo Hfiles; [done|].
  rewrite createFiles_cons. cbv zeta.
  destruct (updateFile_reliable REPO_NAME (file_path f) (file_content f)
              ("Initialize " +:+ file_path f) (githubApi gm) Hrel Hrepo)
    as [Hok Hrel']; [apply Hfiles; by left|].
  destruct (updateFile_store REPO_NAME (file_path f) (file_content f)
              ("Initialize " +:+ file_path f) (githubApi gm))
    as (_ & Hrepos & Hstore).
  rewrite Hok in Hstore |- *. apply IH.
  - done.
  - simpl. by rewrite Hrepos.
  - intros f' Hf'. simpl. rewrite Hstore.
    destruct (decide (file_path f = file_path f')) as [Heq|Hne].
    + by rewrite Heq, lookup_insert_eq.
    + rewrite lookup_insert_ne by congruence. apply Hfiles. by right.
Qed.

Lemma initialFiles_paths :
  file_path <$> initialFiles getInitialReadme getProfileScript
  = ["README.md"; ".github/scripts/update-profile.js"; "projects/README.md";
     "visualizations/README.md"].
Proof. done. Qed.

Lemma logFile_not_initial project :
  logFile project
  ∉ file_path <$> initialFiles getInitialReadme getProfileScript.
Proof.
  rewrite initialFiles_paths. unfold logFile.
  rewrite !not_elem_of_cons. split_and!; try done.
  - intros Heq. change "projects/README.md" with ("projects/" +:+ "README.md") in Heq.
    apply String.app_inj in Heq.
    apply (f_equal String.length) in Heq. rewrite string_length_app in Heq.
    simpl in Heq. lia.
  - apply not_elem_of_nil.
Qed.

(** X27. [initializeRepoStructure] writes to four paths of the tracker
    repository and to nothing else: files of other repositories, and every
    activity log, are as they were, whether it fails or not. When it
    returns normally each of the four files holds its initial text; when
    it throws, the error is the last line on the console; the queue is
    never touched. With a transport that does not fail, a tracker
    repository that exists and none of the four paths a directory, it
    returns normally. *)
Theorem initializeRepoStructure_spec gm :
  let r := initializeRepoStructure getInitialReadme getProfileScript gm in
  let initial := initialFiles getInitialReadme getProfileScript in
  (forall repo path,
     (repo = REPO_NAME -> path ∉ file_path <$> initial) ->
     files (githubApi r.2) !! (repo, path) = files (githubApi gm) !! (repo, path))
  /\ (forall project,
        files (githubApi r.2) !! (REPO_NAME, logFile project)
        = files (githubApi gm) !! (REPO_NAME, logFile project))
  /\ activityQueue r.2 = activityQueue gm
  /\ (r.1 = Ok tt ->
      forall f, f ∈ initial ->
        files (githubApi r.2) !! (REPO_NAME, file_path f)
        = Some (File (file_content f) (blob_sha (file_content f))))
  /\ (forall e, r.1 = Throw e -> last (trace (githubApi r.2)) = Some (Logged e))
  /\ (reliable (githubApi gm) -> REPO_NAME ∈ repos (githubApi gm) ->
      (forall f, f ∈ initial ->
         files (githubApi gm) !! (REPO_NAME, file_path f) <> Some Directory) ->
      r.1 = Ok tt).
Proof.
  intros r initial. subst r. unfold initializeRepoStructure, record.
  unfold_M. fold initial.
  destruct (createFiles_any initial gm)
    as (Hq & _ & _ & _ & done & rest & Hsplit & Hfiles & Hres).
  pose proof (createFiles_reliable initial gm) as Hrel.
  assert (Hnd : NoDup (file_path <$> initial)).
  { unfold initial. rewrite initialFiles_paths. compute_done. }
  assert (Hframe : forall api repo path,
    files api = made done (files (githubApi gm)) ->
    (repo = REPO_NAME -> path ∉ file_path <$> initial) ->
    files api !! (repo, path) = files (githubApi gm) !! (repo, path)).
  { intros api repo path -> Hout. apply made_other.
    intros (f & [= -> ->] & Hf)%list_elem_of_fmap. apply Hout; [done|].
    apply list_elem_of_fmap. exists f. split; [done|].
    rewrite Hsplit. apply elem_of_app. by left. }
  destruct (createFiles initial gm) as [[[]|e] gm1] eqn:Hrun; cbn [fst snd] in *.
  - subst rest. rewrite app_nil_r in Hsplit. subst done.
    split_and!; try done.
    + intros repo path. by apply Hframe.
    + intros project. apply Hframe; [done|]. intros _. apply logFile_not_initial.
    + intros _ f Hf. rewrite Hfiles. by apply made_one.
  - rewrite call_run. cbn [fst snd]. split_and!; try done.
    + intros repo path. by apply Hframe.
    + intros project. apply Hframe; [done|]. intros _. apply logFile_not_initial.
    + intros e' [= <-]. simpl. by rewrite last_snoc.
Qed.
End SetupFacts.

(** ** A run of the scheduler *)

Section TickFacts.
Import Scheduler Ticks.

Lemma trips_three_in_a_row saves count :
  trips count saves = true ->
  three_in_a_row saves
  \/ (1 <= count /\ exists e1 e2 behind, saves = Throw e1 :: Throw e2 :: behind)
  \/ (2 <= count /\ exists e1 behind, saves = Throw e1 :: behind).
Proof.
  revert count. induction saves as [|[[]|e] saves IH]; intros count; simpl.
  - done.
  - intros Htrips. destruct (IH 0 Htrips) as [(pre & e1 & e2 & e3 & post & ->)|[[? _]|[? _]]];
      [|lia|lia].
    left. by exists (Ok tt :: pre), e1, e2, e3, post.
  - destruct (Z.geb_spec (count + 1) 3) as [Hge|Hlt].
    + intros _. right. right. split; [lia|]. by exists e, saves.
    + intros Htrips.
      destruct (IH (count + 1) Htrips)
        as [(pre & e1 & e2 & e3 & post & ->)
           |[[? (e1 & e2 & post & ->)]|[? (e1 & post & ->)]]].
      * left. by exists (Throw e :: pre), e1, e2, e3, post.
      * left. by exists [], e, e1, e2, post.
      * right. left. split; [lia|]. by exists e, e1, post.
Qed.

Lemma three_in_a_row_trips saves count :
  0 <= count -> three_in_a_row saves -> trips count saves = true.
Proof.
  intros Hcount (pre & e1 & e2 & e3 & post & ->). revert count Hcount.
  induction pre as [|[[]|e] pre IH]; intros count Hcount; simpl.
  - destruct (Z.geb_spec (count + 1) 3); [done|].
    destruct (Z.geb_spec (count + 1 + 1) 3); [done|].
    destruct (Z.geb_spec (count + 1 + 1 + 1) 3); [done|lia].
  - by apply IH.
  - destruct (Z.geb_spec (count + 1) 3); [done|]. apply IH. lia.
Qed.

Lemma run_stopped es h :
  consistent h -> isRunning (scheduler h) = false ->
  Forall (fun e => isStart e = false) es ->
  isRunning (scheduler (run es h).2) = false
  /\ List.filter isFatal (run es h).1 = [].
Proof.
  intros Hc Hrun Hes.
  destruct (stopped_stays es h Hc Hrun Hes) as (Hstop & _ & Hfired).
  split; [done|]. induction Hfired as [|o os Ho _ IH]; [done|].
  simpl. rewrite IH. by destruct o as [| |[]].
Qed.

Lemma ticks_no_start id saves :
  Forall (fun e => isStart e = false) (Elapsed id <$> saves).
Proof. induction saves; by constructor. Qed.

(** Ticks of the armed timer of a running scheduler. *)
Lemma run_ticks saves h id :
  consistent h -> interval (scheduler h) = Some id ->
  let r := run (Elapsed id <$> saves) h in
  isRunning (scheduler r.2) = negb (trips (retryCount (scheduler h)) saves)
  /\ List.filter isFatal r.1
     = (if trips (retryCount (scheduler h)) saves then [Fired (Throw fatal)]
        else [])
  /\ (trips (retryCount (scheduler h)) saves = false ->
      Forall (fun o => o = Fired (Ok tt)) r.1).
Proof.
  revert h. induction saves as [|saved saves IH]; intros h Hc Hid.
  { simpl. pose proof Hc as (_ & _ & Hint). rewrite Hid in Hint.
    by destruct Hint as [-> _]. }
  pose proof Hc as (Hmax & Hcount & _).
  change (Elapsed id <$> saved :: saves) with (Elapsed id saved :: (Elapsed id <$> saves)).
  rewrite run_cons. cbv zeta. cbn [fst snd].
  destruct saved as [[]|e].
  - destruct (tick_success h id Hc Hid) as (Ho & _ & Hn & _ & Hc').
    set (h' := (step (Elapsed id (Ok tt)) h).2) in *.
    assert (Hid' : interval (scheduler h') = Some id).
    { pose proof Hc' as (_ & _ & Hint).
      destruct (interval (scheduler h')) as [id'|] eqn:Hi.
      - destruct Hint as [_ Ha]. destruct (tick_success h id Hc Hid) as (_ & _ & _ & Ha' & _).
        fold h' in Ha'. congruence.
      - destruct Hint as [Hr _]. destruct (tick_success h id Hc Hid) as (_ & Hr' & _).
        fold h' in Hr'. congruence. }
    destruct (IH h' Hc' Hid') as (IH1 & IH2 & IH3). rewrite Hn in IH1, IH2, IH3.
    rewrite Ho. simpl. split_and!; [done|done|].
    intros Hno. constructor; [done|by apply IH3].
  - simpl trips. destruct (Z.geb_spec (retryCount (scheduler h) + 1) 3) as [Hge|Hlt].
    + destruct (tick_trips h id e Hc Hid ltac:(lia)) as (Ho & Hr & _ & _ & _ & Hc').
      set (h' := (step (Elapsed id (Throw e)) h).2) in *.
      destruct (run_stopped (Elapsed id <$> saves) h' Hc' Hr (ticks_no_start id saves))
        as [Hstop Hnone].
      rewrite Ho. simpl. rewrite Hnone. by split_and!.
    + destruct (tick_failure h id e Hc Hid ltac:(lia)) as (Ho & _ & Hn & _ & Hid' & Hc').
      set (h' := (step (Elapsed id (Throw e)) h).2) in *.
      destruct (IH h' Hc' Hid') as (IH1 & IH2 & IH3). rewrite Hn in IH1, IH2, IH3.
      rewrite Ho. simpl. split_and!; [done|done|].
      intros Hno. constructor; [done|by apply IH3].
Qed.

(** X28. A started scheduler whose timer ticks, with the results of the
    saves given: it stops if and only if three saves in a row fail, and a
    tick throws the fatal error if and only if that happens, at most once.
    Failures that are not three in a row never stop it, however many there
    are: then every tick returns normally. *)
Theorem breaker_trips_at_three_in_a_row saves :
  let r := run (Start :: (Elapsed 1%nat <$> saves)) boot in
  (isRunning (scheduler r.2) = false <-> three_in_a_row saves)
  /\ (Fired (Throw fatal) ∈ r.1 <-> three_in_a_row saves)
  /\ (length (List.filter isFatal r.1) <= 1)%nat
  /\ (~ three_in_a_row saves ->
      r.1 = Called :: replicate (length saves) (Fired (Ok tt))).
Proof.
  intros r. subst r. rewrite run_cons.
  change (step Start boot).1 with Called.
  set (h1 := (step Start boot).2).
  assert (Hc1 : consistent h1) by apply step_consistent, boot_consistent.
  destruct (run_ticks saves h1 1%nat Hc1 eq_refl) as (Hrun & Hfatal & Hquiet).
  change (retryCount (scheduler h1)) with 0 in *.
  assert (Hiff : trips 0 saves = true <-> three_in_a_row saves).
  { split.
    - intros Ht. destruct (trips_three_in_a_row _ _ Ht) as [?|[[? _]|[? _]]];
        [done|lia|lia].
    - by apply three_in_a_row_trips. }
  cbn [fst snd].
  split_and!.
  - rewrite Hrun, <- Hiff. by destruct (trips 0 saves).
  - rewrite <- Hiff. rewrite elem_of_cons.
    split.
    + intros [?|Hin]; [done|].
      destruct (trips 0 saves) eqn:Ht; [done|].
      specialize (Hquiet eq_refl). eapply Forall_forall in Hquiet; [|done]. done.
    + intros Ht. rewrite Ht in Hfatal. right.
      assert (Hin : Fired (Throw fatal)
                    ∈ List.filter isFatal (run (Elapsed 1%nat <$> saves) h1).1).
      { rewrite Hfatal. by left. }
      apply list_elem_of_In, filter_In in Hin as [Hin _]. by apply list_elem_of_In.
  - simpl. rewrite Hfatal. destruct (trips 0 saves); simpl; lia.
  - intros Hnot. f_equal.
    destruct (trips 0 saves) eqn:Ht; [by destruct Hnot; apply Hiff|].
    specialize (Hquiet eq_refl).
    assert (Hlen : length (run (Elapsed 1%nat <$> saves) h1).1 = length saves).
    { clear. generalize h1. induction saves as [|s saves IH]; intros h; [done|].
      change (Elapsed 1%nat <$> s :: saves)
        with (Elapsed 1%nat s :: (Elapsed 1%nat <$> saves)).
      rewrite run_cons. simpl. by rewrite IH. }
    revert Hquiet Hlen. generalize (run (Elapsed 1%nat <$> saves) h1).1.
    clear. induction saves as [|s saves IH]; intros [|o os] Hq Hlen; try done.
    apply Forall_cons in Hq as [-> Hq]. simpl. f_equal. apply IH; [done|].
    simpl in Hlen. lia.
Qed.
End TickFacts.

(** ** The placing of cells and bars *)

Section LayoutFacts.
Import Visualization.

(** X29. The cells of the heat map: two cells with different indices never
    overlap (they are apart by the padding, to the side or downwards), and
    no cell reaches over the right edge of the canvas. But a cell lies
    within the height of the canvas only while its index is below 780:
    from the 781st day on the cells are placed below the canvas. *)
Theorem heatmap_cells_layout i j :
  0 <= i -> i < j ->
  (cellX i + cellSize + cellPadding <= cellX j
   \/ cellX j + cellSize + cellPadding <= cellX i
   \/ cellY i + cellSize + cellPadding <= cellY j)
  /\ 20 <= cellX i /\ cellX i + cellSize <= heatmapSize.1
  /\ 20 <= cellY i
  /\ (cellY i + cellSize <= heatmapSize.2 <-> i < 780).
Proof.
  intros Hi Hij. unfold cellX, cellY, cellSize, cellPadding, heatmapSize.
  cbn [fst snd].
  pose proof (Z.div_mod i 52 ltac:(lia)) as Hdi.
  pose proof (Z.div_mod j 52 ltac:(lia)) as Hdj.
  pose proof (Z.mod_pos_bound i 52 ltac:(lia)) as Hmi.
  pose proof (Z.mod_pos_bound j 52 ltac:(lia)) as Hmj.
  assert (Hq : 0 <= i / 52) by (apply Z.div_pos; lia).
  split_and!; lia.
Qed.

(** X30. The bars of the chart: the bars of two projects never overlap
    (they are apart by the gap), and a bar lies within the width of the
    canvas only while its index is at most 11: the bar of a thirteenth
    project reaches over the right edge. *)
Theorem chart_bars_layout i j :
  0 <= i -> i < j ->
  barX i + barWidth + barGap <= barX j
  /\ 50 <= barX i
  /\ (barX i + barWidth <= chartSize.1 <-> i <= 11).
Proof.
  intros Hi Hij. unfold barX, barWidth, barGap, chartSize. cbn [fst snd].
  split_and!; lia.
Qed.
End LayoutFacts.

(** ** Trials *)

Section CaptureTrials.
Import ActivityTracker Capture.

(** The trial document after its function has been renamed. *)
Lemma capture_compares_with_previous_save_witness :
  let second :=
    {| fileName := "/w/P/a.js"; getText := "function b(){}";
       workspaceFolder := Some "P"; fsPath := "/w/P/a.js" |} in
  let r := trackCodeChanges second
             (trackCodeChanges Trial.document (new noOptions)).2 in
  functions r.1 = detectFunctionChanges "function a(){}" "function b(){}"
  /\ JsMap.get "/w/P/a.js" (previousContent r.2) = Some "function b(){}".
Proof.
  intros second r.
  destruct (capture_compares_with_previous_save (new noOptions) Trial.document
              second eq_refl) as (H1 & _ & _ & _ & H2 & _).
  split; [exact H1|exact H2].
Defined.

(** The first capture of the trial document by a new tracker. *)
Lemma first_capture_reports_all_added_witness :
  let changes := (trackCodeChanges Trial.document (new noOptions)).1 in
  added (functions changes) = functionNames "function a(){}"
  /\ addedLines (lineChanges changes) = lineCount "function a(){}" - 1.
Proof.
  intros changes.
  destruct (first_capture_reports_all_added (new noOptions) Trial.document
              (or_introl eq_refl)) as (H1 & _ & _ & _ & H2 & _).
  split; [exact H1|exact H2].
Defined.

(** A git manager that rejects the first two tries. *)
Lemma retried_records_tell_of_no_change_witness :
  let t := start (new noOptions) in
  let r := logFileActivity (flaky 2) Trial.clock Trial.document t (0%nat, []) in
  captured Trial.document r.1.1
  /\ exists o retries,
       r.2 = LogActivity Trial.record1 o :: retries
       /\ forall a o', LogActivity a o' ∈ retries -> unchanged a.
Proof.
  intros t r.
  exact (retried_records_tell_of_no_change (flaky 2) Trial.clock Trial.document
           t (0%nat, []) eq_refl ltac:(by vm_compute)).
Defined.

(** A tracker made with room for one file. *)
Lemma small_capacity_keeps_last_file_witness :
  let t := new {| opt_maxCachedFiles := Some 1; opt_retryAttempts := None;
                  opt_retryDelay := None |} in
  previousContent (manageAll ([("a.js", "1"); ("b.js", "2")] ++ [("c.js", "3")]) t)
  = [("c.js", "3")].
Proof.
  intros t.
  destruct (small_capacity_keeps_last_file t [("a.js", "1"); ("b.js", "2")]
              "c.js" "3" ltac:(by vm_compute) ltac:(by vm_compute))
    as (H & _).
  exact H.
Defined.
End CaptureTrials.

Section ClientTrials.
Import GithubAPI GitManager Trial.

(** A write of a new file to the trial repository, read back. *)
Lemma updateFile_then_getFileContent_witness :
  let api := client "[]" [] in
  let r := updateFile (platform := platform) REPO_NAME "notes.md" "hello"
             "Add notes" api in
  files r.2 !! (REPO_NAME, "notes.md") = Some (File "hello" "sha of hello")
  /\ (getFileContent REPO_NAME "notes.md" r.2).1
     = Ok (Some "hello").
Proof.
  intros api r.
  destruct (updateFile_then_getFileContent (platform := platform) REPO_NAME
              "notes.md" "hello" "Add notes" api eq_refl)
    as (H1 & _ & _ & H2).
  split.
  - fold r in H1. rewrite H1. apply lookup_insert_eq.
  - apply H2. intros code rest. by vm_compute.
Defined.

(** The write is refused with status 502. *)
Lemma updateFile_failure_keeps_store_witness :
  let api := client "[]" [Delivered; Delivered; Failed 502] in
  let r := updateFile (platform := platform) REPO_NAME "notes.md" "hello"
             "Add notes" api in
  files r.2 = files api
  /\ r.1 = Throw (plainError "Failed to update file: HttpError").
Proof.
  intros api r.
  destruct (updateFile_failure_keeps_store (platform := platform) REPO_NAME
              "notes.md" "hello" "Add notes" api
              (plainError "Failed to update file: HttpError") eq_refl)
    as (H1 & _).
  split; [exact H1|reflexivity].
Defined.

(** A write to a repository the user does not have. *)
Lemma updateFile_missing_repository_witness :
  let api := client "[]" [] in
  (updateFile (platform := platform) "elsewhere" "notes.md" "hello" "Add notes"
     api).1
  = Throw (plainError
             "Failed to update file: Repository elsewhere does not exist").
Proof.
  intros api.
  destruct (updateFile_missing_repository (platform := platform) "elsewhere"
              "notes.md" "hello" "Add notes" api ltac:(by vm_compute))
    as (refusal & cause & _ & _ & _ & H).
  apply H. intros code rest Hscript. by vm_compute in Hscript.
Defined.

(** Two writes of the log of the trial repository. *)
Lemma updateFile_twice_witness :
  let api := client "[]" [] in
  let r1 := updateFile (platform := platform) REPO_NAME (logFile "P") "one"
              "first" api in
  let r2 := updateFile (platform := platform) REPO_NAME (logFile "P") "two"
              "second" r1.2 in
  last (trace r2.2)
  = Some (Exchange (CreateOrUpdateFileContents REPO_NAME (logFile "P") "second"
                      "two" (Some "sha of one")) Success).
Proof.
  intros api r1 r2.
  destruct (updateFile_twice (platform := platform) REPO_NAME (logFile "P")
              "one" "first" "two" "second" api
              ltac:(constructor) ltac:(by vm_compute) ltac:(by vm_compute))
    as (_ & _ & _ & H).
  exact H.
Defined.
End ClientTrials.

Section QueueTrials.
Import GithubAPI GitManager Trial.

(** A flush that is called while another one is under way. *)
Lemma idle_flush_does_nothing_witness :
  let gm := with_isProcessingQueue true (manager "[{id:1}]" []) in
  processActivityQueue (platform := platform) gm = (Ok tt, gm).
Proof.
  intros gm.
  exact (idle_flush_does_nothing (platform := platform) gm (or_introl eq_refl)).
Defined.

(** The write of the flush fails with status 502; the next flush does
    nothing. *)
Lemma flushed_records_are_not_retried_witness :
  let gm := manager "[{id:1}]" [Delivered; Delivered; Delivered; Failed 502] in
  let gm' := (processActivityQueue (platform := platform) gm).2 in
  Forall (fun e => e.2 = []) (activityQueue gm')
  /\ processActivityQueue (platform := platform) gm' = (Ok tt, gm').
Proof.
  intros gm gm'.
  assert (H1 : isProcessingQueue gm = false) by reflexivity.
  assert (H2 : JsMap.wf (activityQueue gm)) by (unfold JsMap.wf; compute_done).
  assert (H3 : is_Some (planned (platform := platform) (githubApi gm)
                          (activityQueue gm)))
    by (vm_compute; by eexists).
  destruct (flushed_records_are_not_retried (platform := platform) gm H1 H2 H3)
    as (Ha & _ & Hb).
  split; [exact Ha|exact Hb].
Defined.

(** The stored log of [P] is an object. *)
Lemma first_loop_stops_at_a_log_that_is_no_array_witness :
  let gm := manager "{}" [] in
  let gm' := (processActivityQueue (platform := platform) gm).2 in
  files (githubApi gm') = files (githubApi gm)
  /\ JsMap.get "P" (activityQueue gm') = Some [record1; record2].
Proof.
  intros gm gm'.
  assert (H1 : isProcessingQueue gm = false) by reflexivity.
  assert (H2 : JsMap.wf (activityQueue gm)) by (unfold JsMap.wf; compute_done).
  assert (H3 : reliable (githubApi gm)) by constructor.
  assert (H4 : REPO_NAME ∈ repos (githubApi gm)) by (by vm_compute).
  assert (H5 : activityQueue gm = ([] ++ ("P", [record1; record2]) :: [])%list)
    by reflexivity.
  assert (H6 : [record1; record2] <> []) by done.
  assert (H7 : forall (q : string) (acts : list ActivityLog),
                 (q, acts) ∈ @nil (string * list ActivityLog) -> acts <> [] ->
                 extendable (platform := platform)
                   (files (githubApi gm) !! (REPO_NAME, logFile q))).
  { intros q acts Hin. by apply elem_of_nil in Hin. }
  assert (H8 : files (githubApi gm) !! (REPO_NAME, logFile "P")
               = Some (File "{}" "sha0")) by (by vm_compute).
  assert (H9 : "{}" <> "") by done.
  assert (H10 : JSON_parse (Platform := platform) "{}" = Some (JObject []))
    by reflexivity.
  destruct (first_loop_stops_at_a_log_that_is_no_array (platform := platform)
              gm [] "P" [record1; record2] [] "{}" "sha0" (JObject [])
              H1 H2 H3 H4 H5 H6 H7 H8 H9 H10 eq_refl)
    as (Ha & _ & _ & _ & Hb & _).
  split; [exact Ha|exact Hb].
Defined.

(** The stored log of [P] is no JSON. *)
Lemma flush_overwrites_unparsable_log_witness :
  let gm := manager "<html>" [] in
  let log := printJson (JArray [toJson record1; toJson record2]) in
  files (githubApi (processActivityQueue (platform := platform) gm).2)
    !! (REPO_NAME, logFile "P")
  = Some (File log ("sha of " +:+ log)).
Proof.
  intros gm log.
  assert (H1 : isProcessingQueue gm = false) by reflexivity.
  assert (H2 : JsMap.wf (activityQueue gm)) by (unfold JsMap.wf; compute_done).
  assert (H3 : reliable (githubApi gm)) by constructor.
  assert (H4 : REPO_NAME ∈ repos (githubApi gm)) by (by vm_compute).
  assert (H5 : forall q acts, (q, acts) ∈ activityQueue gm -> acts <> [] ->
                 extendable (platform := platform)
                   (files (githubApi gm) !! (REPO_NAME, logFile q))).
  { intros q acts Hin _. apply list_elem_of_singleton in Hin as [= -> _].
    vm_compute. by right. }
  assert (H6 : JsMap.get "P" (activityQueue gm) = Some [record1; record2])
    by reflexivity.
  assert (H7 : [record1; record2] <> []) by done.
  assert (H8 : files (githubApi gm) !! (REPO_NAME, logFile "P")
               = Some (File "<html>" "sha0")) by (by vm_compute).
  destruct (flush_overwrites_unparsable_log (platform := platform) gm "P"
              [record1; record2] "<html>" "sha0" H1 H2 H3 H4 H5 H6 H7 H8
              (or_intror eq_refl)) as (Hlog & _).
  exact Hlog.
Defined.

(** The user has no tracker repository. *)
Lemma flush_without_repository_witness :
  let api := {| username := "dev"; repos := ∅; files := ∅; script := [];
                trace := [] |} in
  let gm := logActivities [record1; record2] (new api) in
  let gm' := (processActivityQueue (platform := platform) gm).2 in
  Forall (fun e => e.2 = []) (activityQueue gm')
  /\ files (githubApi gm') = files (githubApi gm).
Proof.
  intros api gm gm'.
  assert (H1 : isProcessingQueue gm = false) by reflexivity.
  assert (H2 : JsMap.wf (activityQueue gm)) by (unfold JsMap.wf; compute_done).
  assert (H3 : REPO_NAME ∉ repos (githubApi gm)) by (by vm_compute).
  assert (H4 : (0 < pending (activityQueue gm))%nat) by (vm_compute; lia).
  destruct (flush_without_repository (platform := platform) gm H1 H2 H3 H4)
    as (Ha & Hb & _).
  split; [exact Ha|exact Hb].
Defined.

(** The flush of the trial manager: one project, four requests. *)
Lemma flush_traffic_witness :
  let gm := manager "[{id:1}]" [] in
  let gm' := (processActivityQueue (platform := platform) gm).2 in
  exists events,
    trace (githubApi gm') = (trace (githubApi gm) ++ events)%list
    /\ length (List.filter Traffic.isRequest events) = 4%nat
    /\ List.filter Traffic.isWait events = [Slept 1000].
Proof.
  intros gm gm'.
  assert (H1 : isProcessingQueue gm = false) by reflexivity.
  assert (H2 : JsMap.wf (activityQueue gm)) by (unfold JsMap.wf; compute_done).
  assert (H3 : reliable (githubApi gm)) by constructor.
  assert (H4 : REPO_NAME ∈ repos (githubApi gm)) by (by vm_compute).
  assert (H5 : forall q acts, (q, acts) ∈ activityQueue gm -> acts <> [] ->
                 extendable (platform := platform)
                   (files (githubApi gm) !! (REPO_NAME, logFile q))).
  { intros q acts Hin _. apply list_elem_of_singleton in Hin as [= -> _].
    vm_compute. by right. }
  destruct (flush_traffic (platform := platform) gm H1 H2 H3 H4 H5)
    as (events & Ha & Hb & _ & Hc & _).
  exists events. split_and!; [exact Ha|exact Hb|exact Hc].
Defined.

(** One record is flushed, then another: the log holds the old record and
    the two new ones. *)
Lemma flushes_accumulate_witness :
  let gm := logActivities [record1] (new (client "[{id:1}]" [])) in
  let gm1 := (processActivityQueue (platform := Replay.platform) gm).2 in
  let gm3 := (processActivityQueue (platform := Replay.platform)
                (logActivities [record2] gm1)).2 in
  let log := printJson (JArray [oldRecord; toJson record1; toJson record2]) in
  files (githubApi gm3) !! (REPO_NAME, logFile "P")
  = Some (File log ("sha of " +:+ log)).
Proof.
  intros gm gm1 gm3 log.
  assert (H1 : isProcessingQueue gm = false) by reflexivity.
  assert (H2 : JsMap.wf (activityQueue gm)) by (unfold JsMap.wf; compute_done).
  assert (H3 : reliable (githubApi gm)) by constructor.
  assert (H4 : REPO_NAME ∈ repos (githubApi gm)) by (by vm_compute).
  assert (H5 : forall q acts, (q, acts) ∈ activityQueue gm -> acts <> [] ->
                 extendable (platform := Replay.platform)
                   (files (githubApi gm) !! (REPO_NAME, logFile q))).
  { intros q acts Hin _. apply list_elem_of_singleton in Hin as [= -> _].
    vm_compute. by right. }
  assert (H6 : JsMap.get "P" (activityQueue gm) = Some [record1]) by reflexivity.
  assert (H7 : [record1] <> []) by done.
  assert (H8 : [record2] <> []) by done.
  assert (H9 : forall a, a ∈ [record2] -> project a = "P").
  { intros a Ha. by apply list_elem_of_singleton in Ha as ->. }
  destruct (flushes_accumulate (platform := Replay.platform) gm "P" [record1]
              [record2] H1 H2 H3 H4 H5 H6 H7 H8 H9
              ltac:(by vm_compute) ltac:(by vm_compute)) as (_ & Hlog & _).
  exact Hlog.
Defined.

(** A save of the trial document and the flush after it, the repository
    holding no log yet. *)
Lemma save_then_flush_stores_record_witness :
  let api := {| username := "dev"; repos := {[ REPO_NAME ]}; files := ∅;
                script := []; trace := [] |} in
  let t := ActivityTracker.start (ActivityTracker.new ActivityTracker.noOptions) in
  let saved := ActivityTracker.logFileActivity logActivity clock document t
                 (new api) in
  let gm' := (processActivityQueue (platform := platform) saved.1.2).2 in
  let log := printJson (JArray [toJson record1]) in
  files (githubApi gm') !! (REPO_NAME, logFile "P")
  = Some (File log ("sha of " +:+ log)).
Proof.
  intros api t saved gm' log.
  assert (H1 : forall q, extendable (platform := platform)
                 (files (githubApi (new api)) !! (REPO_NAME, logFile q))).
  { intros q. change (extendable (platform := platform)
                        ((∅ : gmap (string * string) Entry)
                           !! (REPO_NAME, logFile q))).
    by rewrite lookup_empty. }
  destruct (save_then_flush_stores_record (platform := platform) clock document
              t (new api) eq_refl ltac:(by vm_compute) eq_refl
              ltac:(unfold JsMap.wf; compute_done) ltac:(constructor)
              ltac:(by vm_compute) H1) as (_ & Hlog & _).
  exact Hlog.
Defined.
End QueueTrials.

Section LayoutTrials.
Import Visualization.

(** The last cell of the first row and the first cell of the second. *)
Lemma heatmap_cells_layout_witness :
  cellY 51 + cellSize + cellPadding <= cellY 52
  /\ (cellY 51 + cellSize <= heatmapSize.2 <-> 51 < 780).
Proof.
  destruct (heatmap_cells_layout 51 52 ltac:(lia) ltac:(lia))
    as (H1 & _ & _ & _ & H2).
  split; [|exact H2].
  destruct H1 as [H|[H|H]]; [by vm_compute in H|by vm_compute in H|exact H].
Defined.

(** The bars of the twelfth and of the thirteenth project. *)
Lemma chart_bars_layout_witness :
  barX 11 + barWidth + barGap <= barX 12
  /\ (barX 11 + barWidth <= chartSize.1 <-> 11 <= 11).
Proof.
  destruct (chart_bars_layout 11 12 ltac:(lia) ltac:(lia)) as (H1 & _ & H2).
  split; [exact H1|exact H2].
Defined.
End LayoutTrials.
